(** * tinyformat.h: the format-string interpreter, embedded and verified

    The development follows the header top to bottom.  Characters are
    [ascii], a [const char*] into the format string is a cursor that knows
    the text on both of its sides, a [std::ostream] is a record of its
    formatting state together with the text written so far, and the
    [TINYFORMAT_ERROR] macro is an operation of a small state-and-exception
    monad whose behaviour is fixed by the build configuration. *)

From Stdlib Require Import ZArith List Ascii String Bool Lia Permutation.
Import ListNotations.

Set Implicit Arguments.

(* ------------------------------------------------------------------ *)
(** ** Characters and C strings *)

Definition NUL : ascii := "000"%char.

(** The integer value of a [char] that holds a 7-bit character; only used
    for range tests such as [*c >= '0' && *c <= '9'], which fail for every
    byte above 127 whether [char] is signed or not. *)
Definition code (a : ascii) : Z := Z.of_N (N_of_ascii a).

Definition in_range (lo hi a : ascii) : bool :=
  ((code lo <=? code a) && (code a <=? code hi))%Z.

Definition is_digit (a : ascii) : bool := in_range "0" "9" a.

Definition is_letter (a : ascii) : bool :=
  in_range "A" "Z" a || in_range "a" "z" a.

(** [*c == 'l' || *c == 'h' || *c == 'L' || *c == 'j' || *c == 'z' || *c == 't'] *)
Definition is_length_modifier (a : ascii) : bool :=
  (a =? "l")%char || (a =? "h")%char || (a =? "L")%char ||
  (a =? "j")%char || (a =? "z")%char || (a =? "t")%char.

(** The text of a C string: the characters before the terminating NUL. *)
Definition chars (s : string) : list ascii := list_ascii_of_string s.
Definition text (l : list ascii) : string := string_of_list_ascii l.

(** A [const char*] pointing into a NUL-terminated buffer.  [before] holds
    the characters that precede the pointer, nearest first, and [after] the
    characters from the pointer up to the terminator; the terminator itself
    is not stored, so reading at an empty [after] yields NUL. *)
Record cptr : Type := mkPtr { before : list ascii; after : list ascii }.

(** [*p] *)
Definition deref (p : cptr) : ascii :=
  match after p with
  | [] => NUL
  | a :: _ => a
  end.

(** [*(p-1)] *)
Definition deref_prev (p : cptr) : ascii :=
  match before p with
  | [] => NUL
  | a :: _ => a
  end.

(** [++p]; the source never steps over the terminator. *)
Definition next (p : cptr) : cptr :=
  match after p with
  | [] => p
  | a :: r => mkPtr (a :: before p) r
  end.

(** Distance from the start of the buffer; [p < q] and [p - q] on pointers
    into one buffer are comparisons and differences of offsets. *)
Definition offset (p : cptr) : nat := List.length (before p).

Definition ptr_lt (p q : cptr) : bool := (offset p <? offset q)%nat.
Definition ptr_le (p q : cptr) : bool := (offset p <=? offset q)%nat.
Definition ptr_diff (p q : cptr) : nat := (offset p - offset q)%nat.

(** The pointer to the first character of a string literal. *)
Definition c_str (s : string) : cptr := mkPtr [] (chars s).

(* ------------------------------------------------------------------ *)
(** ** Machine integers *)

(** [int] is 32 bits wide; arithmetic that leaves the range wraps around. *)
Definition to_int (z : Z) : Z := ((z + 2 ^ 31) mod 2 ^ 32 - 2 ^ 31)%Z.

(** [static_cast<unsigned int>] *)
Definition to_unsigned (z : Z) : Z := (z mod 2 ^ 32)%Z.

(* ------------------------------------------------------------------ *)
(** ** The stream: [std::ios_base] state and the characters written *)

(** [std::ios_base::fmtflags] is a bitmask type; the values are the ones of
    libstdc++.  The proofs only use that the named bits are distinct. *)
Module ios.
Definition fmtflags := Z.
Definition boolalpha  : fmtflags := 1%Z.
Definition dec        : fmtflags := 2%Z.
Definition fixed      : fmtflags := 4%Z.
Definition hex        : fmtflags := 8%Z.
Definition internal   : fmtflags := 16%Z.
Definition left       : fmtflags := 32%Z.
Definition oct        : fmtflags := 64%Z.
Definition right      : fmtflags := 128%Z.
Definition scientific : fmtflags := 256%Z.
Definition showbase   : fmtflags := 512%Z.
Definition showpoint  : fmtflags := 1024%Z.
Definition showpos    : fmtflags := 2048%Z.
Definition skipws     : fmtflags := 4096%Z.
Definition unitbuf    : fmtflags := 8192%Z.
Definition uppercase  : fmtflags := 16384%Z.
Definition adjustfield : fmtflags := Z.lor left (Z.lor right internal).
Definition basefield   : fmtflags := Z.lor dec (Z.lor oct hex).
Definition floatfield  : fmtflags := Z.lor scientific fixed.
End ios.

Record ostream : Type := mkStream {
  width : Z;                 (* out.width() *)
  precision : Z;             (* out.precision() *)
  flags : ios.fmtflags;      (* out.flags() *)
  fill : ascii;              (* out.fill() *)
  str : list ascii           (* everything written to the stream so far *)
}.

Definition set_width (w : Z) (o : ostream) : ostream :=
  mkStream w (precision o) (flags o) (fill o) (str o).
Definition set_precision (p : Z) (o : ostream) : ostream :=
  mkStream (width o) p (flags o) (fill o) (str o).
Definition set_flags (f : ios.fmtflags) (o : ostream) : ostream :=
  mkStream (width o) (precision o) f (fill o) (str o).
Definition set_fill (c : ascii) (o : ostream) : ostream :=
  mkStream (width o) (precision o) (flags o) c (str o).
Definition put (l : list ascii) (o : ostream) : ostream :=
  mkStream (width o) (precision o) (flags o) (fill o) (str o ++ l).

(** [out.setf(fl)] *)
Definition setf (fl : ios.fmtflags) (o : ostream) : ostream :=
  set_flags (Z.lor (flags o) fl) o.
(** [out.setf(fl, mask)] *)
Definition setf_mask (fl mask : ios.fmtflags) (o : ostream) : ostream :=
  set_flags (Z.lor (Z.ldiff (flags o) mask) (Z.land fl mask)) o.
(** [out.unsetf(mask)] *)
Definition unsetf (mask : ios.fmtflags) (o : ostream) : ostream :=
  set_flags (Z.ldiff (flags o) mask) o.

(** [(out.flags() & mask)] as a condition *)
Definition has_flag (o : ostream) (mask : ios.fmtflags) : bool :=
  negb (Z.land (flags o) mask =? 0)%Z.

(** [out.write(p, n)]: unformatted output of [n] characters starting at [p];
    the field width is neither used nor reset. *)
Definition write (p : list ascii) (n : Z) (o : ostream) : ostream :=
  put (firstn (Z.to_nat n) p) o.

(** A default-constructed [std::ostringstream]. *)
Definition ostringstream : ostream :=
  mkStream 0 6 (Z.lor ios.skipws ios.dec) " " [].

(** [dst.copyfmt(src)]: the formatting state of [src], the buffer of [dst]. *)
Definition copyfmt (dst src : ostream) : ostream :=
  mkStream (width src) (precision src) (flags src) (fill src) (str dst).

(* ------------------------------------------------------------------ *)
(** ** Formatted insertion, [operator<<] of the C++ standard library

    These operators are not part of the header; they are written out after
    ISO C++ [ostream.inserters] and [facet.num.put.virtuals] in the classic
    locale, as far as integers, characters and strings go. *)

(** The fill characters of a field of width [w] around [n] characters. *)
Definition padding (o : ostream) (n : nat) : list ascii :=
  repeat (fill o) (Z.to_nat (width o - Z.of_nat n)).

(** Characters and strings are padded after the text under [left] and
    before it otherwise; the width is reset to zero afterwards. *)
Definition insert_text (o : ostream) (s : list ascii) : ostream :=
  let pad := padding o (List.length s) in
  let field := if (Z.land (flags o) ios.adjustfield =? ios.left)%Z
               then s ++ pad else pad ++ s in
  set_width 0 (put field o).

Definition digit_char (upper : bool) (d : Z) : ascii :=
  if (d <? 10)%Z then ascii_of_N (Z.to_N (48 + d))
  else ascii_of_N (Z.to_N ((if upper then 55 else 87) + d)).

(** The digits of [u >= 0] in [base], most significant first.  The fuel
    covers every 64-bit value (at most 22 octal digits). *)
Fixpoint digits_from (fuel : nat) (base : Z) (upper : bool) (u : Z)
                     (acc : list ascii) : list ascii :=
  match fuel with
  | O => acc
  | S fuel' =>
      let acc' := digit_char upper (u mod base) :: acc in
      if (u / base =? 0)%Z then acc'
      else digits_from fuel' base upper (u / base) acc'
  end.

Definition digits (base : Z) (upper : bool) (u : Z) : list ascii :=
  digits_from 64 base upper u [].

(** Stage 1 and 2 of [num_put::do_put] for a [long]: sign, base prefix and
    digits, governed by [basefield], [showpos], [showbase], [uppercase]. *)
Definition num_text (fl : ios.fmtflags) (v : Z) : list ascii :=
  let base := Z.land fl ios.basefield in
  let upper := negb (Z.land fl ios.uppercase =? 0)%Z in
  let showpos := negb (Z.land fl ios.showpos =? 0)%Z in
  let showbase := negb (Z.land fl ios.showbase =? 0)%Z in
  if (base =? ios.oct)%Z then
    (if showbase && negb (v =? 0)%Z then ["0"%char] else [])
      ++ digits 8 upper (v mod 2 ^ 64)
  else if (base =? ios.hex)%Z then
    (if showbase && negb (v =? 0)%Z
     then ["0"%char; if upper then "X"%char else "x"%char] else [])
      ++ digits 16 upper (v mod 2 ^ 64)
  else if (0 <=? v)%Z then
    (if showpos then ["+"%char] else []) ++ digits 10 false v
  else "-"%char :: digits 10 false (- v).

(** Stage 3: numbers are padded like text, except that under [internal]
    the fill goes after a leading sign or a leading 0x. *)
Definition pad_number (o : ostream) (s : list ascii) : list ascii :=
  let pad := padding o (List.length s) in
  let adjust := Z.land (flags o) ios.adjustfield in
  if (adjust =? ios.left)%Z then s ++ pad
  else if (adjust =? ios.internal)%Z then
    match s with
    | a :: r =>
        if (a =? "-")%char || (a =? "+")%char then a :: pad ++ r
        else match r with
             | b :: r' =>
                 if (a =? "0")%char && ((b =? "x")%char || (b =? "X")%char)
                 then a :: b :: pad ++ r'
                 else pad ++ s
             | [] => pad ++ s
             end
    | [] => pad ++ s
    end
  else pad ++ s.

(** [out << v] for a [long]. *)
Definition insert_long (o : ostream) (v : Z) : ostream :=
  set_width 0 (put (pad_number o (num_text (flags o) v)) o).

(** [out << n] for an [int]: printed through [unsigned int] when the base
    is octal or hexadecimal. *)
Definition insert_int (o : ostream) (n : Z) : ostream :=
  let base := Z.land (flags o) ios.basefield in
  if (base =? ios.oct)%Z || (base =? ios.hex)%Z
  then insert_long o (to_unsigned n)
  else insert_long o n.

(** [out << c] for [char], [signed char] and [unsigned char]. *)
Definition insert_char (o : ostream) (c : ascii) : ostream :=
  insert_text o [c].

(** [out << p] for a [const void*]: the address in hexadecimal with its
    0x prefix, as libstdc++ prints it. *)
Definition insert_voidptr (o : ostream) (addr : Z) : ostream :=
  let fl := Z.lor (Z.ldiff (flags o) (Z.lor ios.basefield ios.uppercase))
                  (Z.lor ios.hex ios.showbase) in
  set_width 0 (put (pad_number o (num_text fl addr)) o).

(** What the template [formatValue] asks of an argument type [T]: its
    stream insertion operator and the two conversions probed by
    [is_convertible<T,char>] and [is_convertible<T,const void*>]. *)
Class Insertable (T : Type) : Type := {
  insert : ostream -> T -> ostream;
  convert_char : option (T -> ascii);
  convert_voidptr : option (T -> Z)
}.

(** [int]: converts to [char], not to a pointer. *)
#[export] Instance Insertable_int : Insertable Z := {
  insert := insert_int;
  convert_char := Some (fun n => ascii_of_N (Z.to_N (n mod 256)));
  convert_voidptr := None
}.

(** [std::string]: converts to neither. *)
#[export] Instance Insertable_string : Insertable string := {
  insert := fun o s => insert_text o (chars s);
  convert_char := None;
  convert_voidptr := None
}.

(** The arguments of a call.  The header overloads [formatValue] on the
    three narrow character types and [formatCStringTruncate] on [char*];
    every other type goes through the templates. *)
Inductive value : Type :=
| char_ (c : ascii)                       (* char *)
| signed_char (c : ascii)                 (* signed char *)
| unsigned_char (c : ascii)               (* unsigned char *)
| c_string (addr : Z) (s : list ascii)    (* const char* or char*: address and text *)
| generic (T : Type) (ins : Insertable T) (v : T).

Arguments generic {T ins} v.

Definition int (n : Z) : value := generic n.
Definition std_string (s : string) : value := generic s.

(* ------------------------------------------------------------------ *)
(** ** Build configuration, errors and the computation monad *)

(** How [TINYFORMAT_ERROR(reason)] is defined: left at its default
    [assert(0 && reason)], or replaced by a handler that throws, or by a
    handler that returns to the caller (one that only logs, say). *)
Inductive error_hook : Type := hook_assert | hook_throw | hook_return.

Record config : Type := mkConfig {
  TINYFORMAT_ERROR_as : error_hook;
  NDEBUG : bool;              (* assertions compiled out *)
  char_is_signed : bool       (* signedness of plain char *)
}.

(** The stream the call writes to and the reasons handed to
    [TINYFORMAT_ERROR] so far, oldest first. *)
Record world : Type := mkWorld { out : ostream; reported : list string }.

(** A call returns, or is left by an exception of the error handler, or
    ends the process in a failed assertion. *)
Inductive result (A : Type) : Type :=
| Done (a : A)
| Thrown (reason : string)
| Aborted.

Arguments Thrown {A} reason.
Arguments Aborted {A}.

Definition M (A : Type) : Type := world -> result A * world.

Definition ret {A : Type} (a : A) : M A := fun w => (Done a, w).

Definition bind {A B : Type} (m : M A) (k : A -> M B) : M B :=
  fun w =>
    match m w with
    | (Done a, w') => k a w'
    | (Thrown r, w') => (Thrown r, w')
    | (Aborted, w') => (Aborted, w')
    end.

Notation "x <- m ;; k" := (bind m (fun x => k))
  (at level 61, m at next level, right associativity).
Notation "' p <- m ;; k" := (bind m (fun r => match r with p => k end))
  (at level 61, p pattern, m at next level, right associativity).
Notation "m ;; k" := (bind m (fun _ => k))
  (at level 61, right associativity).

Definition get_out : M ostream := fun w => (Done (out w), w).
Definition set_out (o : ostream) : M unit :=
  fun w => (Done tt, mkWorld o (reported w)).
(** A statement that acts on the stream, such as [out.width(0);]. *)
Definition update (f : ostream -> ostream) : M unit :=
  fun w => (Done tt, mkWorld (f (out w)) (reported w)).

(** Flags for features not representable with standard stream state. *)
Definition Flag_TruncateToPrecision : Z := Z.shiftl 1 0.
Definition Flag_SpacePadPositive : Z := Z.shiftl 1 1.

(** [(extraFlags & flag)] as a condition *)
Definition has_extra (extraFlags flag : Z) : bool :=
  negb (Z.land extraFlags flag =? 0)%Z.

Definition err_variable_width : string :=
  "tinyformat: variable field widths not supported".
Definition err_variable_precision : string :=
  "tinyformat: variable precision not supported".
Definition err_percent_n : string :=
  "tinyformat: %n conversion spec not supported".
Definition err_not_enough : string :=
  "tinyformat: Not enough conversion specifiers in format string".
Definition err_unterminated : string :=
  "tinyformat: Conversion spec incorrectly terminated by end of string".
Definition err_too_many : string :=
  "tinyformat: Too many conversion specifiers in format string".

(** The bits cleared by the [out.unsetf(...)] at the top of
    [streamStateFromFormat]. *)
Definition reset_mask : ios.fmtflags :=
  Z.lor ios.adjustfield (Z.lor ios.basefield (Z.lor ios.floatfield
    (Z.lor ios.showbase (Z.lor ios.showpoint (Z.lor ios.showpos
      ios.uppercase))))).

(* ------------------------------------------------------------------ *)
(** ** namespace detail *)

(** [parseIntAndAdvance]: the loop [for(; *c >= '0' && *c <= '9'; ++c)]
    run from the cursor with [cb] behind and [ca] ahead. *)
Fixpoint parseInt_loop (i : Z) (cb ca : list ascii) : Z * cptr :=
  match ca with
  | a :: ca' =>
      if is_digit a
      then parseInt_loop (to_int (10 * i + (code a - code "0"))) (a :: cb) ca'
      else (i, mkPtr cb ca)
  | [] => (i, mkPtr cb ca)
  end.

Definition parseIntAndAdvance (c : cptr) : Z * cptr :=
  parseInt_loop 0 (before c) (after c).

(** 1) Parse flags: the [switch] inside the loop.  A flag character gives
    the new stream and extra flags and the loop continues; at any other
    character the loop is left by the [break]. *)
Definition parse_flag (a : ascii) (o : ostream) (extraFlags : Z)
  : option (ostream * Z) :=
  if (a =? "#")%char then
    Some (setf (Z.lor ios.showpoint ios.showbase) o, extraFlags)
  else if (a =? "0")%char then
    (* overridden by left alignment ('-' flag) *)
    Some (if negb (has_flag o ios.left)
          then setf_mask ios.internal ios.adjustfield (set_fill "0" o)
          else o,
          extraFlags)
  else if (a =? "-")%char then
    Some (setf_mask ios.left ios.adjustfield (set_fill " " o), extraFlags)
  else if (a =? " ")%char then
    (* overridden by show positive sign, '+' flag. *)
    Some (o, if negb (has_flag o ios.showpos)
             then Z.lor extraFlags Flag_SpacePadPositive
             else extraFlags)
  else if (a =? "+")%char then
    Some (setf ios.showpos o, Z.ldiff extraFlags Flag_SpacePadPositive)
  else None.

(** The loop over the flags, run from the cursor with [cb] behind and [ca]
    ahead. *)
Fixpoint parse_flags (o : ostream) (extraFlags : Z) (cb ca : list ascii)
  : ostream * Z * cptr :=
  match ca with
  | a :: ca' =>
      match parse_flag a o extraFlags with
      | Some (o', extraFlags') => parse_flags o' extraFlags' (a :: cb) ca'
      | None => (o, extraFlags, mkPtr cb ca)
      end
  | [] => (o, extraFlags, mkPtr cb ca)
  end.

(** Step 4, the loop that skips the C99 length modifiers l h L j z t. *)
Fixpoint skip_length_loop (cb ca : list ascii) : cptr :=
  match ca with
  | a :: ca' =>
      if is_length_modifier a then skip_length_loop (a :: cb) ca'
      else mkPtr cb ca
  | [] => mkPtr cb ca
  end.

Definition skip_length_modifiers (c : cptr) : cptr :=
  skip_length_loop (before c) (after c).

(** The loop of [printFormatStringLiteral].  [fmt] is the start of the
    pending literal section and the cursor has [cb] behind and [ca] ahead.
    At a [%] the section is written, [fmt = ++c], and either the function
    returns or, at a second [%], the loop goes on behind it with the [%]
    as first character of the next section. *)
Fixpoint literal_loop (o : ostream) (fmt : cptr) (cb ca : list ascii)
  : ostream * cptr :=
  let c := mkPtr cb ca in
  match ca with
  | a :: ca' =>
      if (a =? NUL)%char then
        (write (after fmt) (Z.of_nat (ptr_diff c fmt)) o, c)
      else if (a =? "%")%char then
        let o := write (after fmt) (Z.of_nat (ptr_diff c fmt)) o in
        let c := mkPtr (a :: cb) ca' in
        let fmt := c in
        match ca' with
        | b :: ca'' =>
            if negb (b =? "%")%char then (o, c)
            else literal_loop o fmt (b :: a :: cb) ca''
        | [] => (o, c)
        end
      else literal_loop o fmt (a :: cb) ca'
  | [] => (write (after fmt) (Z.of_nat (ptr_diff c fmt)) o, c)
  end.

(** Print literal part of format string and return next format spec
    position. *)
Definition printFormatStringLiteral (o : ostream) (fmt : cptr)
  : ostream * cptr :=
  literal_loop o fmt (before fmt) (after fmt).

(** The loop of [findFormatSpecEnd]: [Some p] when it returns [c+1] from
    inside, [None] with the final cursor when it runs into the end. *)
Fixpoint spec_end_loop (cb ca : list ascii) : option cptr * cptr :=
  match ca with
  | a :: ca' =>
      if (a =? NUL)%char then (None, mkPtr cb ca)
      else if is_length_modifier a then spec_end_loop (a :: cb) ca'
      else if is_letter a then (Some (mkPtr (a :: cb) ca'), mkPtr cb ca)
      else spec_end_loop (a :: cb) ca'
  | [] => (None, mkPtr cb ca)
  end.

(** [formatCStringTruncate]: the overload for [char*] writes at most
    [truncLen] characters and returns true, the template returns false. *)
Fixpoint truncate_len (len : Z) (truncLen : Z) (s : list ascii) : Z :=
  match s with
  | a :: s' =>
      if (len <? truncLen)%Z && negb (a =? NUL)%char
      then truncate_len (len + 1) truncLen s'
      else len
  | [] => len
  end.

Definition formatCStringTruncate (o : ostream) (v : value) (truncLen : Z)
  : bool * ostream :=
  match v with
  | c_string _ s => (true, write s (truncate_len 0 truncLen s) o)
  | _ => (false, o)
  end.

Section Build.

Variable cfg : config.

(** [TINYFORMAT_ERROR(reason)] *)
Definition TINYFORMAT_ERROR (reason : string) : M unit :=
  fun w =>
    let w' := mkWorld (out w) (reported w ++ [reason]) in
    match TINYFORMAT_ERROR_as cfg with
    | hook_return => (Done tt, w')
    | hook_throw => (Thrown reason, w')
    | hook_assert => if NDEBUG cfg then (Done tt, w') else (Aborted, w')
    end.

(** [assert(cond)] *)
Definition assert (cond : bool) : M unit :=
  fun w => if cond || NDEBUG cfg then (Done tt, w) else (Aborted, w).

(** [streamStateFromFormat] is one function in the header; its numbered
    steps are kept as separate definitions here and put together below.
    The stream it acts on is the one of the world. *)

(** Reset stream state to defaults. *)
Definition reset_stream_state : M unit :=
  update (set_width 0) ;;
  update (set_precision 6) ;;
  update (set_fill " ") ;;
  update (unsetf reset_mask).

(** 2) Parse width: whether a width was given, and the cursor behind it. *)
Definition parse_width (c : cptr) : M (bool * cptr) :=
  '(widthSet, c) <-
    (if is_digit (deref c)
     then let '(w, c) := parseIntAndAdvance c in
          update (set_width w) ;; ret (true, c)
     else ret (false, c)) ;;
  (if (deref c =? "*")%char
   then TINYFORMAT_ERROR err_variable_width else ret tt) ;;
  ret (widthSet, c).

(** 3) Parse precision *)
Definition parse_precision (c : cptr) : M (bool * cptr) :=
  if (deref c =? ".")%char then
    let c := next c in
    (if (deref c =? "*")%char
     then TINYFORMAT_ERROR err_variable_precision else ret tt) ;;
    let '(precision, c) :=
      if is_digit (deref c) then parseIntAndAdvance c
      else if (deref c =? "-")%char
           then (0%Z, snd (parseIntAndAdvance (next c)))
           else (0%Z, c) in
    update (set_precision precision) ;; ret (true, c)
  else ret (false, c).

(** 5) Set stream flags based on conversion specifier: whether it is an
    integer conversion, and the extra flags. *)
Definition set_conversion (type : ascii) (precisionSet : bool)
    (extraFlags : Z) : M (bool * Z) :=
  if (type =? "u")%char || (type =? "d")%char || (type =? "i")%char then
    update (setf_mask ios.dec ios.basefield) ;; ret (true, extraFlags)
  else if (type =? "o")%char then
    update (setf_mask ios.oct ios.basefield) ;; ret (true, extraFlags)
  else if (type =? "X")%char then
    update (setf ios.uppercase) ;;
    update (setf_mask ios.hex ios.basefield) ;; ret (true, extraFlags)
  else if (type =? "x")%char || (type =? "p")%char then
    update (setf_mask ios.hex ios.basefield) ;; ret (true, extraFlags)
  else if (type =? "E")%char then
    update (setf ios.uppercase) ;;
    update (setf_mask ios.scientific ios.floatfield) ;;
    update (setf_mask ios.dec ios.basefield) ;; ret (false, extraFlags)
  else if (type =? "e")%char then
    update (setf_mask ios.scientific ios.floatfield) ;;
    update (setf_mask ios.dec ios.basefield) ;; ret (false, extraFlags)
  else if (type =? "F")%char then
    update (setf ios.uppercase) ;;
    update (setf_mask ios.fixed ios.floatfield) ;; ret (false, extraFlags)
  else if (type =? "f")%char then
    update (setf_mask ios.fixed ios.floatfield) ;; ret (false, extraFlags)
  else if (type =? "G")%char then
    update (setf ios.uppercase) ;;
    update (setf_mask ios.dec ios.basefield) ;;
    update (fun o => set_flags (Z.ldiff (flags o) ios.floatfield) o) ;;
    ret (false, extraFlags)
  else if (type =? "g")%char then
    update (setf_mask ios.dec ios.basefield) ;;
    update (fun o => set_flags (Z.ldiff (flags o) ios.floatfield) o) ;;
    ret (false, extraFlags)
  else if (type =? "a")%char || (type =? "A")%char then
    ret (false, extraFlags)
  else if (type =? "c")%char then
    ret (false, extraFlags)
  else if (type =? "s")%char then
    ret (false, if precisionSet
                then Z.lor extraFlags Flag_TruncateToPrecision
                else extraFlags)
  else if (type =? "n")%char then
    TINYFORMAT_ERROR err_percent_n ;; ret (false, extraFlags)
  else ret (false, extraFlags).

(** The precision of an integer conversion gives the minimum number of
    digits; simulated with the width if the width isn't otherwise used. *)
Definition integer_precision_fixup (intConversion precisionSet widthSet : bool)
  : M unit :=
  if intConversion && precisionSet && negb widthSet then
    update (fun o => set_width (precision o) o) ;;
    update (setf_mask ios.internal ios.adjustfield) ;;
    update (set_fill "0")
  else ret tt.

(** Parse the format string and set the stream state accordingly.
    Returns the extra flags. *)
Definition streamStateFromFormat (fmtStart fmtEnd : cptr) : M Z :=
  reset_stream_state ;;
  (* 1) Parse flags *)
  o <- get_out ;;
  let '(o, extraFlags, c) :=
    parse_flags o 0 (before fmtStart) (after fmtStart) in
  set_out o ;;
  '(widthSet, c) <- parse_width c ;;
  '(precisionSet, c) <- parse_precision c ;;
  (* 4) Ignore any C99 length modifier *)
  let c := skip_length_modifiers c in
  (* 5) We're up to the conversion specifier character. *)
  let type := if ptr_lt c fmtEnd then deref c else "s"%char in
  '(intConversion, extraFlags) <-
    set_conversion type precisionSet extraFlags ;;
  integer_precision_fixup intConversion precisionSet widthSet ;;
  assert (ptr_le c fmtEnd) ;;
  ret extraFlags.

(** Skip to end of format spec and return it. *)
Definition findFormatSpecEnd (fmt : cptr) : M cptr :=
  (if (deref fmt =? NUL)%char
   then TINYFORMAT_ERROR err_not_enough else ret tt) ;;
  match spec_end_loop (before fmt) (after fmt) with
  | (Some e, _) => ret e
  | (None, c) => TINYFORMAT_ERROR err_unterminated ;; ret c
  end.

(* ------------------------------------------------------------------ *)
(** ** Variable formatting functions *)

(** The characters of a C string argument, up to its terminator. *)
Fixpoint until_nul (s : list ascii) : list ascii :=
  match s with
  | a :: s' => if (a =? NUL)%char then [] else a :: until_nul s'
  | [] => []
  end.

(** [static_cast<int>(value)] for the three narrow character types. *)
Definition int_of_signed (c : ascii) : Z :=
  if (code c <? 128)%Z then code c else (code c - 256)%Z.

(** The template [formatValue]: stream insertion, except that [%c] prints
    a type convertible to [char] as that character and [%p] prints a type
    convertible to [const void*] as an address. *)
Definition formatValue_generic {T : Type} {ins : Insertable T}
    (o : ostream) (fmtEnd : cptr) (v : T) : ostream :=
  match convert_char, convert_voidptr with
  | Some to_char, to_ptr =>
      if (deref_prev fmtEnd =? "c")%char then insert_char o (to_char v)
      else match to_ptr with
           | Some to_voidptr =>
               if (deref_prev fmtEnd =? "p")%char
               then insert_voidptr o (to_voidptr v)
               else insert o v
           | None => insert o v
           end
  | None, Some to_voidptr =>
      if (deref_prev fmtEnd =? "p")%char
      then insert_voidptr o (to_voidptr v)
      else insert o v
  | None, None => insert o v
  end.

(** The overload of [formatValue] for the character types. *)
Definition formatValue_char (o : ostream) (fmtEnd : cptr)
    (as_int : Z) (c : ascii) : ostream :=
  let t := deref_prev fmtEnd in
  if (t =? "u")%char || (t =? "d")%char || (t =? "i")%char ||
     (t =? "o")%char || (t =? "X")%char || (t =? "x")%char
  then insert_int o as_int
  else insert_char o c.

(** [const char*] is a type like any other for the template: it converts
    to [const void*] and not to [char]. *)
Definition Insertable_c_string (addr : Z) : Insertable (list ascii) := {|
  insert := fun o s => insert_text o (until_nul s);
  convert_char := None;
  convert_voidptr := Some (fun _ => addr)
|}.

(** Format a value into a stream. *)
Definition formatValue (o : ostream) (fmtBegin fmtEnd : cptr) (v : value)
  : ostream :=
  match v with
  | char_ c =>
      formatValue_char o fmtEnd
        (if char_is_signed cfg then int_of_signed c else code c) c
  | signed_char c => formatValue_char o fmtEnd (int_of_signed c) c
  | unsigned_char c => formatValue_char o fmtEnd (code c) c
  | c_string addr s =>
      @formatValue_generic _ (Insertable_c_string addr) o fmtEnd s
  | @generic T ins x => @formatValue_generic T ins o fmtEnd x
  end.

(** Every [+] of the buffered text becomes a space. *)
Definition plus_to_space (result : list ascii) : list ascii :=
  map (fun a => if (a =? "+")%char then " "%char else a) result.

(** The special cases of [formatValueBasic]: the text formatted into the
    temporary string stream [tmpStream], which takes the formatting state
    of [out]. *)
Definition buffered (extraFlags : Z) (o : ostream) (fmtBegin fmtEnd : cptr)
    (v : value) : list ascii :=
  let tmpStream := copyfmt ostringstream o in
  let tmpStream :=
    if has_extra extraFlags Flag_SpacePadPositive
    then setf ios.showpos tmpStream else tmpStream in
  let tmpStream :=
    if has_extra extraFlags Flag_TruncateToPrecision then
      match formatCStringTruncate tmpStream v (precision o) with
      | (true, tmpStream) => tmpStream
      | (false, tmpStream) => formatValue tmpStream fmtBegin fmtEnd v
      end
    else formatValue tmpStream fmtBegin fmtEnd v in
  str tmpStream.

(** ... and the munging of the resulting string on its way to [out]. *)
Definition munge (extraFlags : Z) (result : list ascii) (o : ostream)
  : ostream :=
  let result :=
    if has_extra extraFlags Flag_SpacePadPositive
    then plus_to_space result else result in
  if has_extra extraFlags Flag_TruncateToPrecision &&
     (to_int (Z.of_nat (List.length result)) >? to_int (precision o))%Z
  then write result (precision o) o
  else insert_text o result.

(** Format a value into a stream, called for all types by [format]. *)
Definition formatValueBasic (fmtBegin fmtEnd : cptr) (v : value) : M unit :=
  (* Save stream state *)
  o <- get_out ;;
  let width_ := width o in
  let precision_ := precision o in
  let flags_ := flags o in
  let fill_ := fill o in
  (* Set stream state. *)
  extraFlags <- streamStateFromFormat fmtBegin fmtEnd ;;
  (* Format the value into the stream. *)
  (if (extraFlags =? 0)%Z then
     update (fun o => formatValue o fmtBegin fmtEnd v)
   else
     update (fun o =>
       munge extraFlags (buffered extraFlags o fmtBegin fmtEnd v) o)) ;;
  (* Restore stream state *)
  update (set_width width_) ;;
  update (set_precision precision_) ;;
  update (set_flags flags_) ;;
  update (set_fill fill_).

(* ------------------------------------------------------------------ *)
(** ** The format function *)

(** [format(out, fmt, v1, ..., vn)]: the 0-argument case prints the rest of
    the string, the N-argument case formats one value and calls the N-1
    argument case. *)
Fixpoint format (fmt : cptr) (args : list value) : M unit :=
  match args with
  | [] =>
      o <- get_out ;;
      let '(o, fmt) := printFormatStringLiteral o fmt in
      set_out o ;;
      if negb (deref fmt =? NUL)%char
      then TINYFORMAT_ERROR err_too_many else ret tt
  | value1 :: args =>
      o <- get_out ;;
      let '(o, fmt) := printFormatStringLiteral o fmt in
      set_out o ;;
      fmtEnd <- findFormatSpecEnd fmt ;;
      formatValueBasic fmt fmtEnd value1 ;;
      format fmtEnd args
  end.

(** [std::string format(fmt, args...)]: the text collected in a fresh
    string stream, when the call returns. *)
Definition format_string (fmt : string) (args : list value)
  : result string * list string :=
  match format (c_str fmt) args (mkWorld ostringstream []) with
  | (Done _, w) => (Done (text (str (out w))), reported w)
  | (Thrown r, w) => (Thrown r, reported w)
  | (Aborted, w) => (Aborted, reported w)
  end.

End Build.

Arguments format_string cfg fmt%_string args.

(** The default build: [TINYFORMAT_ERROR] is [assert], assertions are on. *)
Definition default_build : config := mkConfig hook_assert false true.
(** A build whose error handler throws. *)
Definition throwing_build : config := mkConfig hook_throw false true.
(** A build whose error handler returns to the formatting code. *)
Definition returning_build : config := mkConfig hook_return false true.

(* ------------------------------------------------------------------ *)
(** ** Vocabulary of the specification *)

(** [outcome m w Q X]: run from [w], the computation [m] either returns a
    value and a world that satisfy [Q], or is left by an exception or an
    abort in a world that satisfies [X]. *)
Definition outcome {A : Type} (m : M A) (w : world)
    (Q : A -> world -> Prop) (X : world -> Prop) : Prop :=
  match m w with
  | (Done a, w') => Q a w'
  | (_, w') => X w'
  end.

(** The world right after the handler has been given [reason]. *)
Definition report (reason : string) (w : world) : world :=
  mkWorld (out w) (reported w ++ [reason]).

(** The builds in which [TINYFORMAT_ERROR] hands control back: a handler
    that returns, or the default [assert] compiled out. *)
Definition error_returns (cfg : config) : bool :=
  match TINYFORMAT_ERROR_as cfg with
  | hook_return => true
  | hook_throw => false
  | hook_assert => NDEBUG cfg
  end.

(** No character of the text is the terminator. *)
Definition nul_free (s : list ascii) : bool :=
  forallb (fun a => negb (a =? NUL)%char) s.

(** No character of the text is a percent sign. *)
Definition percent_free (s : list ascii) : bool :=
  forallb (fun a => negb (a =? "%")%char) s.

(** The text with every percent sign doubled. *)
Fixpoint escape (s : list ascii) : list ascii :=
  match s with
  | a :: s' =>
      if (a =? "%")%char then "%"%char :: "%"%char :: escape s'
      else a :: escape s'
  | [] => []
  end.

(** [w] after the text [s] has been written to its stream. *)
Definition wrote (s : list ascii) (w : world) : world :=
  mkWorld (put s (out w)) (reported w).

(** A character the scan for the end of a directive steps over: not the
    terminator, and either a length modifier or no letter at all. *)
Definition passes (a : ascii) : bool :=
  negb (a =? NUL)%char && (is_length_modifier a || negb (is_letter a)).

(** A character that ends a directive: a letter that is no length
    modifier. *)
Definition terminates (a : ascii) : bool :=
  is_letter a && negb (is_length_modifier a).

(** The five flag characters. *)
Definition is_flag (a : ascii) : bool :=
  (a =? "#")%char || (a =? "0")%char || (a =? "-")%char ||
  (a =? " ")%char || (a =? "+")%char.

(** The characters the cursor of [streamStateFromFormat] can step over:
    flags, digits, the dot, the minus sign and the length modifiers. *)
Definition advances (a : ascii) : bool :=
  is_flag a || is_digit a || (a =? ".")%char || is_length_modifier a.

(** The text begins with a character the cursor cannot step over, or is
    empty. *)
Definition stops (stop : list ascii) : bool :=
  match stop with
  | [] => true
  | a :: _ => negb (advances a)
  end.

(** [c'] is reached from [c] by stepping over advancing characters. *)
Definition steps_from (c c' : cptr) : Prop :=
  exists k, after c = k ++ after c' /\ before c' = rev k ++ before c /\
            forallb advances k = true.

(** The cursor [c] lies in the stretch [l] that starts behind [cb] and is
    followed by [stop]. *)
Definition within (cb l stop : list ascii) (c : cptr) : Prop :=
  exists l1 l2, l = l1 ++ l2 /\ c = mkPtr (rev l1 ++ cb) (l2 ++ stop).

(** The pointer [findFormatSpecEnd] returns, whatever it reports. *)
Definition spec_end (fmt : cptr) : cptr :=
  match spec_end_loop (before fmt) (after fmt) with
  | (Some e, _) => e
  | (None, c) => c
  end.

(** From [w] to [w'] the handler was given reasons from [P] only. *)
Definition only_reports (P : string -> Prop) (w w' : world) : Prop :=
  exists msgs, reported w' = reported w ++ msgs /\ Forall P msgs.

(** The reasons raised while a directive is interpreted. *)
Definition spec_error (r : string) : Prop :=
  r = err_variable_width \/ r = err_variable_precision \/ r = err_percent_n.

(** Width, precision, flags and fill agree. *)
Definition same_formatting (o o' : ostream) : Prop :=
  width o' = width o /\ precision o' = precision o /\
  flags o' = flags o /\ fill o' = fill o.

(** The stream as [streamStateFromFormat] resets it. *)
Definition reset (o : ostream) : ostream :=
  unsetf reset_mask (set_fill " " (set_precision 6 (set_width 0 o))).

(** The fill character is one of the two the interpreter ever sets. *)
Definition good_fill (o : ostream) : Prop :=
  fill o = " "%char \/ fill o = "0"%char.

(** The two reasons raised at a star in a directive. *)
Definition star_error (r : string) : Prop :=
  r = err_variable_width \/ r = err_variable_precision.

(** Some position of the stretch holds a star. *)
Definition star_seen (cb l stop : list ascii) : Prop :=
  exists c, within cb l stop c /\ deref c = "*"%char.

(** What parsing width and precision does to the world: no text, no
    change of fill or flags, and errors raised only at a star. *)
Definition parses (cb l stop : list ascii) (w w' : world) : Prop :=
  str (out w') = str (out w) /\ fill (out w') = fill (out w) /\
  flags (out w') = flags (out w) /\
  exists msgs, reported w' = reported w ++ msgs /\ Forall star_error msgs /\
               (msgs = [] \/ star_seen cb l stop).

(** The flag bits for numeric base, float style and case. *)
Definition conversion_bits : ios.fmtflags :=
  Z.lor ios.basefield (Z.lor ios.floatfield ios.uppercase).

(** The conversions under which a narrow character prints as a number. *)
Definition prints_as_integer (t : ascii) : bool :=
  (t =? "u")%char || (t =? "d")%char || (t =? "i")%char ||
  (t =? "o")%char || (t =? "X")%char || (t =? "x")%char.

(** The number of directives in a template.  Outside a directive a
    doubled percent sign is text, a percent sign at the very end of the
    string starts nothing, and any other percent sign starts a directive;
    inside, the directive runs up to its terminating letter, or up to the
    end of the string when there is none. *)
Fixpoint directives_from (inside : bool) (s : list ascii) : nat :=
  match s with
  | [] => 0
  | a :: r =>
      if (a =? NUL)%char then 0
      else if inside then
        if terminates a then directives_from false r
        else directives_from true r
      else if (a =? "%")%char then
        match r with
        | [] => 0
        | b :: r' =>
            if (b =? "%")%char then directives_from false r'
            else if (b =? NUL)%char then 0
            else S (directives_from true r)
        end
      else directives_from false r
  end.

Definition directives (s : list ascii) : nat := directives_from false s.

(** A reason other than the two about the number of arguments. *)
Definition not_a_count_error (r : string) : Prop :=
  r <> err_too_many /\ r <> err_not_enough.

(** The phrase occurs in the reason, letter case aside. *)
Definition lower (a : ascii) : ascii :=
  if in_range "A" "Z" a then ascii_of_N (N_of_ascii a + 32) else a.

Fixpoint begins_with (phrase reason : list ascii) : bool :=
  match phrase, reason with
  | [], _ => true
  | p :: phrase', r :: reason' =>
      (lower p =? lower r)%char && begins_with phrase' reason'
  | _ :: _, [] => false
  end.

Fixpoint occurs_in (phrase reason : list ascii) : bool :=
  begins_with phrase reason ||
  match reason with
  | [] => false
  | _ :: reason' => occurs_in phrase reason'
  end.

Definition states (phrase reason : string) : bool :=
  occurs_in (chars phrase) (chars reason).

(** The reasons [msgs] raise a count error only when the counts differ in
    that direction: too many specifiers only with [n] arguments for more
    than [n] directives, not enough specifiers only with more arguments
    than the [d] directives. *)
Definition counted (d n : nat) (msgs : list string) : Prop :=
  (In err_too_many msgs -> (n < d)%nat) /\
  (In err_not_enough msgs -> (d < n)%nat).

(** ... and they do raise it when the counts differ. *)
Definition complete (d n : nat) (msgs : list string) : Prop :=
  ((n < d)%nat -> In err_too_many msgs) /\
  ((d < n)%nat -> In err_not_enough msgs).

(** The effect of one character on the state of the flag loop, stream and
    extra flags; a character that is no flag has none. *)
Definition flag_step (s : ostream * Z) (a : ascii) : ostream * Z :=
  match parse_flag a (fst s) (snd s) with
  | Some s' => s'
  | None => s
  end.

(** The effect of a sequence of flag characters, from left to right. *)
Definition flag_run (fl : list ascii) (s : ostream * Z) : ostream * Z :=
  fold_left flag_step fl s.

(** The text does not begin with a flag character. *)
Definition no_flag_ahead (rest : list ascii) : bool :=
  match rest with
  | [] => true
  | a :: _ => negb (is_flag a)
  end.

(** The number a run of digits denotes for [parseIntAndAdvance]. *)
Definition int_value (ds : list ascii) : Z :=
  fold_left (fun i a => to_int (10 * i + (code a - code "0"))) ds 0%Z.

(** The conversions [streamStateFromFormat] treats as integer
    conversions. *)
Definition is_int_conversion (t : ascii) : bool :=
  (t =? "u")%char || (t =? "d")%char || (t =? "i")%char ||
  (t =? "o")%char || (t =? "X")%char || (t =? "x")%char || (t =? "p")%char.

(** The text of a directive behind its percent sign: flags, width,
    precision (if any, behind a dot), length modifiers and the conversion
    character. *)
Definition directive_text (fl wd : list ascii) (prec : option (list ascii))
    (lm : list ascii) (conv : ascii) : list ascii :=
  fl ++ wd ++
  match prec with
  | Some ds => "."%char :: ds
  | None => []
  end ++ lm ++ [conv].

(** The parts are what they are called: flag characters, digits that do
    not begin with the flag 0, digits, length modifiers, and a letter that
    is no length modifier. *)
Definition well_formed (fl wd : list ascii) (prec : option (list ascii))
    (lm : list ascii) (conv : ascii) : bool :=
  forallb is_flag fl && forallb is_digit wd && no_flag_ahead wd &&
  match prec with
  | Some ds => forallb is_digit ds
  | None => true
  end && forallb is_length_modifier lm && terminates conv.

(** The stream after flags, width and precision of a directive have been
    applied to the reset stream. *)
Definition parsed_stream (fl wd : list ascii) (prec : option (list ascii))
    (o : ostream) : ostream :=
  let o1 := fst (flag_run fl (reset o, 0%Z)) in
  let o2 := match wd with
            | [] => o1
            | _ :: _ => set_width (int_value wd) o1
            end in
  match prec with
  | Some ds => set_precision (int_value ds) o2
  | None => o2
  end.

(** The text begins with a letter. *)
Definition letter_ahead (rest : list ascii) : bool :=
  match rest with
  | a :: _ => is_letter a
  | [] => false
  end.

(** The conversion letters of the format mini-language. *)
Definition known_conversion (t : ascii) : bool :=
  existsb (fun k => (t =? k)%char) (chars "diouxXeEfFgGaAcspn").

(** The rendering of the value into the temporary stream of a field
    whose width is an [int] is shorter than 2^31 characters, so that the
    cast of its length to [int] is exact.  For a C string under
    truncation this follows from the precision. *)
Definition short_rendering (cfg : config) (v : value) : Prop :=
  match v with
  | c_string _ _ => True
  | _ => forall extraFlags o fmtBegin fmtEnd,
           (- 2 ^ 31 <= width o < 2 ^ 31)%Z ->
           (Z.of_nat (List.length
                        (buffered cfg extraFlags o fmtBegin fmtEnd v))
            < 2 ^ 31)%Z
  end.

(** The number a decimal numeral denotes, digit by position. *)
Fixpoint decimal (ds : list ascii) : Z :=
  match ds with
  | [] => 0
  | a :: r => (code a - code "0") * 10 ^ Z.of_nat (List.length r) + decimal r
  end.

(** The text does not begin with a digit. *)
Definition no_digit_ahead (rest : list ascii) : bool :=
  match rest with
  | [] => true
  | a :: _ => negb (is_digit a)
  end.

(** A directive whose precision has a minus sign: flags, width, a dot, a
    minus sign, digits, length modifiers and the conversion character. *)
Definition negative_precision_text (fl wd ds lm : list ascii) (conv : ascii)
  : list ascii :=
  fl ++ wd ++ "."%char :: "-"%char :: ds ++ lm ++ [conv].

(** The stream after the flags and the width of a directive. *)
Definition width_stream (fl wd : list ascii) (o : ostream) : ostream :=
  match wd with
  | [] => fst (flag_run fl (reset o, 0%Z))
  | _ :: _ => set_width (int_value wd) (fst (flag_run fl (reset o, 0%Z)))
  end.

(** Two worlds that differ at most in what [streamStateFromFormat] resets:
    the same reports, the same text written, and the same flags outside
    the reset mask; width, precision, fill and the flags of the mask are
    free. *)
Definition alike (w1 w2 : world) : Prop :=
  reported w1 = reported w2 /\ str (out w1) = str (out w2) /\
  Z.ldiff (flags (out w1)) reset_mask = Z.ldiff (flags (out w2)) reset_mask.

(** The computation cannot tell two such worlds apart. *)
Definition respects {A : Type} (m : M A) : Prop :=
  forall w1 w2, alike w1 w2 ->
    fst (m w1) = fst (m w2) /\ alike (snd (m w1)) (snd (m w2)).

(** The text does not begin with a percent sign. *)
Definition no_percent_ahead (rest : list ascii) : bool :=
  match rest with
  | [] => true
  | a :: _ => negb (a =? "%")%char
  end.

(** A directive by its parts. *)
Record directive : Type := mkDirective {
  dflags : list ascii;
  dwidth : list ascii;
  dprecision : option (list ascii);
  dlength : list ascii;
  dconv : ascii
}.

(** The text of the directive behind its percent sign. *)
Definition directive_chars (d : directive) : list ascii :=
  directive_text (dflags d) (dwidth d) (dprecision d) (dlength d) (dconv d).

(** A directive of the documented form whose conversion is not [n]. *)
Definition supported (d : directive) : bool :=
  well_formed (dflags d) (dwidth d) (dprecision d) (dlength d) (dconv d) &&
  negb (dconv d =? "n")%char.

(** A template put together from its parts: literal text, in which a
    percent sign stands for itself, in front of each directive and at the
    end. *)
Fixpoint template (parts : list (list ascii * directive)) (last : list ascii)
  : list ascii :=
  match parts with
  | [] => escape last
  | (s, d) :: parts' =>
      escape s ++ "%"%char :: directive_chars d ++ template parts' last
  end.

(** Run from [w], the computation only adds to the reports, and when it
    does not return it was the error handler that ended it: by throwing
    the reason reported last, in a build whose handler throws, or in the
    failed [assert] that is the default handler. *)
Definition ends_by_hook (cfg : config) {A : Type} (m : M A) (w : world)
  : Prop :=
  match m w with
  | (Done _, w') => exists msgs, reported w' = reported w ++ msgs
  | (Thrown r, w') =>
      TINYFORMAT_ERROR_as cfg = hook_throw /\
      exists msgs, reported w' = reported w ++ msgs ++ [r]
  | (Aborted, w') =>
      TINYFORMAT_ERROR_as cfg = hook_assert /\ NDEBUG cfg = false /\
      exists msgs r, reported w' = reported w ++ msgs ++ [r]
  end.

(** The arguments that are text, and the text they are: a C string up to
    its terminator, a [std::string] as it is. *)
Inductive prints_text : value -> list ascii -> Prop :=
| text_c_string addr s : prints_text (c_string addr s) (until_nul s)
| text_std_string x : prints_text (std_string x) (chars x).

(** The fill characters that bring a text of [n] characters to the width
    the digits [wd] denote. *)
Definition pad_to (wd : list ascii) (c : ascii) (n : nat) : list ascii :=
  repeat c (Z.to_nat (int_value wd - Z.of_nat n)).

(** The flags for numeric base, float style and case that go with a
    conversion letter. *)
Definition conversion_flags (conv : ascii) : ios.fmtflags :=
  if (conv =? "u")%char || (conv =? "d")%char || (conv =? "i")%char
  then ios.dec
  else if (conv =? "o")%char then ios.oct
  else if (conv =? "X")%char then Z.lor ios.hex ios.uppercase
  else if (conv =? "x")%char || (conv =? "p")%char then ios.hex
  else if (conv =? "E")%char
  then Z.lor ios.scientific (Z.lor ios.dec ios.uppercase)
  else if (conv =? "e")%char then Z.lor ios.scientific ios.dec
  else if (conv =? "F")%char then Z.lor ios.fixed ios.uppercase
  else if (conv =? "f")%char then ios.fixed
  else if (conv =? "G")%char then Z.lor ios.dec ios.uppercase
  else if (conv =? "g")%char then ios.dec
  else 0%Z.

(** [void printf(fmt, args...)]: [format] on [std::cout], which is the
    stream of the world here. *)
Definition printf (cfg : config) (fmt : string) (args : list value) : M unit :=
  format cfg (c_str fmt) args.

(** The stream [o] with the text [p] written before everything else. *)
Definition onto (p : list ascii) (o : ostream) : ostream :=
  mkStream (width o) (precision o) (flags o) (fill o) (p ++ str o).

(** ... and the world whose stream is that one. *)
Definition onto_world (p : list ascii) (w : world) : world :=
  mkWorld (onto p (out w)) (reported w).

(** The computation does not look at the text that is in the stream
    already. *)
Definition content_blind {A : Type} (m : M A) : Prop :=
  forall p w, m (onto_world p w) = (fst (m w), onto_world p (snd (m w))).

(** The insertion operator of the argument does not look at it either;
    the overloads of the header for characters and C strings never do. *)
Definition inserts_blindly (v : value) : Prop :=
  match v with
  | @generic T ins x => forall p o, insert (onto p o) x = onto p (insert o x)
  | _ => True
  end.

(** In a build whose handler keeps control the first error ends the
    computation: run from [w] it reports nothing when it returns, and
    otherwise it reports the one reason at which the handler threw or the
    default [assert] failed. *)
Definition ends_at_first_error (cfg : config) {A : Type} (m : M A)
    (w : world) : Prop :=
  match m w with
  | (Done _, w') => reported w' = reported w
  | (Thrown r, w') =>
      TINYFORMAT_ERROR_as cfg = hook_throw /\
      reported w' = reported w ++ [r]
  | (Aborted, w') =>
      TINYFORMAT_ERROR_as cfg = hook_assert /\ NDEBUG cfg = false /\
      exists r, reported w' = reported w ++ [r]
  end.

(** The call was cut short before it came to count: the handler kept
    control at the reason [r], which is the only reason reported and is
    neither of the two count errors, and the call ended as the handler
    does, by the exception [r] or in the failed [assert]. *)
Definition cut_short (cfg : config) (res : result unit)
    (msgs : list string) : Prop :=
  error_returns cfg = false /\
  exists r, msgs = [r] /\ not_a_count_error r /\
    ((TINYFORMAT_ERROR_as cfg = hook_throw /\ res = Thrown r) \/
     (TINYFORMAT_ERROR_as cfg = hook_assert /\ res = Aborted)).

(** An argument of one of the three narrow character types, the character
    it holds and its integer value: the code of the character for
    [unsigned char], and for [signed char] the number from -128 to 127
    that is congruent to the code modulo 256; plain [char] is the one or
    the other, as the build has it. *)
Inductive narrow_character (cfg : config) : value -> ascii -> Z -> Prop :=
| narrow_unsigned c : narrow_character cfg (unsigned_char c) c (code c)
| narrow_signed c n :
    (-128 <= n < 128)%Z -> (n mod 256 = code c)%Z ->
    narrow_character cfg (signed_char c) c n
| narrow_char_signed c n :
    char_is_signed cfg = true ->
    (-128 <= n < 128)%Z -> (n mod 256 = code c)%Z ->
    narrow_character cfg (char_ c) c n
| narrow_char_unsigned c :
    char_is_signed cfg = false ->
    narrow_character cfg (char_ c) c (code c).

(** The value of a digit character: 0 to 9, and a to f or A to F as the
    letter case says. *)
Definition digit_of (upper : bool) (a : ascii) : option Z :=
  if in_range "0" "9" a then Some (code a - 48)%Z
  else if upper
       then (if in_range "A" "F" a then Some (code a - 55)%Z else None)
       else (if in_range "a" "f" a then Some (code a - 87)%Z else None).

(** The number a numeral denotes in [base], read from the left with [acc]
    the number read so far; nothing if a character is no digit of the
    base. *)
Fixpoint numeral_value (base : Z) (upper : bool) (acc : Z) (t : list ascii)
  : option Z :=
  match t with
  | [] => Some acc
  | a :: t' =>
      match digit_of upper a with
      | Some d =>
          if (d <? base)%Z
          then numeral_value base upper (base * acc + d) t'
          else None
      | None => None
      end
  end.

(** [t] is the numeral of [u] in [base]: at least one digit, no leading
    zero except for zero itself, and [u] is the number it denotes. *)
Definition is_numeral (base : Z) (upper : bool) (u : Z) (t : list ascii)
  : bool :=
  match t with
  | [] => false
  | a :: t' =>
      (negb (a =? "0")%char || match t' with [] => true | _ :: _ => false end)
      && match numeral_value base upper 0 t with
         | Some x => (x =? u)%Z
         | None => false
         end
  end.

(** [t] is the text of the integer [n] under an integer conversion: under
    u, d and i the decimal numeral, behind a minus sign when [n] is
    negative; under o, x and X the octal or hexadecimal numeral of [n] as
    an [unsigned int], that is of [n] modulo 2^32, with the letters of the
    case of the conversion. *)
Definition integer_text (conv : ascii) (n : Z) (t : list ascii) : bool :=
  if (conv =? "o")%char then is_numeral 8 false (n mod 2 ^ 32) t
  else if (conv =? "x")%char then is_numeral 16 false (n mod 2 ^ 32) t
  else if (conv =? "X")%char then is_numeral 16 true (n mod 2 ^ 32) t
  else if (0 <=? n)%Z then is_numeral 10 false n t
  else match t with
       | a :: t' => (a =? "-")%char && is_numeral 10 false (- n) t'
       | [] => false
       end.

(** The integers a narrow character can hold. *)
Definition narrow_values : list Z :=
  map (fun k => (Z.of_nat k - 128)%Z) (seq 0 384).

(** [format] of the one directive [%conv] writes the text of [n] for the
    [int] argument [n] and raises no error. *)
Definition writes_integer_text (cfg : config) (conv : ascii) (n : Z) : bool :=
  match format_string cfg (String "%" (String conv "")) [int n] with
  | (Done t, []) => integer_text conv n (chars t)
  | _ => false
  end.

(* ================================================================== *)
(** * Properties *)

(** ** Reasoning about computations *)


Lemma outcome_ret {A} (a : A) w (Q : A -> world -> Prop) X :
  Q a w -> outcome (ret a) w Q X.
Proof. intro H. exact H. Qed.

Lemma outcome_bind {A B} (m : M A) (k : A -> M B) w
    (Q : B -> world -> Prop) X :
  outcome m w (fun a w' => outcome (k a) w' Q X) X ->
  outcome (bind m k) w Q X.
Proof.
  unfold outcome, bind. destruct (m w) as [[a | r |] w']; auto.
Qed.

Lemma outcome_mono {A} (m : M A) w (Q Q' : A -> world -> Prop)
    (X X' : world -> Prop) :
  outcome m w Q X ->
  (forall a w', Q a w' -> Q' a w') -> (forall w', X w' -> X' w') ->
  outcome m w Q' X'.
Proof.
  unfold outcome. destruct (m w) as [[a | r |] w']; auto.
Qed.

Lemma outcome_update (f : ostream -> ostream) w
    (Q : unit -> world -> Prop) X :
  Q tt (mkWorld (f (out w)) (reported w)) -> outcome (update f) w Q X.
Proof. intro H. exact H. Qed.

Lemma outcome_get_out w (Q : ostream -> world -> Prop) X :
  Q (out w) w -> outcome get_out w Q X.
Proof. intro H. exact H. Qed.

Lemma outcome_set_out o w (Q : unit -> world -> Prop) X :
  Q tt (mkWorld o (reported w)) -> outcome (set_out o) w Q X.
Proof. intro H. exact H. Qed.

Lemma outcome_error_cases cfg reason w (Q : unit -> world -> Prop)
    (X : world -> Prop) :
  (error_returns cfg = true -> Q tt (report reason w)) ->
  (error_returns cfg = false -> X (report reason w)) ->
  outcome (TINYFORMAT_ERROR cfg reason) w Q X.
Proof.
  unfold outcome, TINYFORMAT_ERROR, report, error_returns. intros HQ HX.
  destruct (TINYFORMAT_ERROR_as cfg); [destruct (NDEBUG cfg) | |]; auto.
Qed.

Lemma outcome_assert cfg cond w (Q : unit -> world -> Prop)
    (X : world -> Prop) :
  Q tt w -> (cond = false -> X w) -> outcome (assert cfg cond) w Q X.
Proof.
  unfold outcome, assert. intros HQ HX.
  destruct cond; simpl; auto. destruct (NDEBUG cfg); auto.
Qed.

Lemma outcome_assert_true cfg w (Q : unit -> world -> Prop) X :
  Q tt w -> outcome (assert cfg true) w Q X.
Proof. intro H. exact H. Qed.

(** One step of symbolic execution. *)
Ltac mstep :=
  lazymatch goal with
  | |- outcome (bind _ _) _ _ _ => apply outcome_bind
  | |- outcome (ret _) _ _ _ => apply outcome_ret
  | |- outcome (update _) _ _ _ => apply outcome_update
  | |- outcome get_out _ _ _ => apply outcome_get_out
  | |- outcome (set_out _) _ _ _ => apply outcome_set_out
  | |- outcome (assert _ true) _ _ _ => apply outcome_assert_true
  | |- outcome (TINYFORMAT_ERROR _ _) _ _ _ =>
      apply outcome_error_cases; intros ?
  | |- outcome (if ?b then _ else _) _ _ _ => destruct b eqn:?
  | |- outcome (match ?p with (_, _) => _ end) _ _ _ => destruct p eqn:?
  | |- outcome (let '(_, _) := ?p in _) _ _ _ => destruct p eqn:?
  end.

Ltac msteps := repeat (mstep; cbn [out reported]).

(* ------------------------------------------------------------------ *)
(** ** The literal scanner *)

Lemma put_put l1 l2 o : put l2 (put l1 o) = put (l1 ++ l2) o.
Proof. unfold put; simpl. now rewrite app_assoc. Qed.

(** Writing the pending section: the cursor is [l] ahead of [fmt]. *)
Lemma write_pending l fb rest x o :
  write (l ++ rest)
        (Z.of_nat (ptr_diff (mkPtr (rev l ++ fb) x) (mkPtr fb (l ++ rest)))) o
  = put l o.
Proof.
  unfold write, ptr_diff, offset; simpl.
  rewrite Nat2Z.id, length_app, length_rev.
  replace (List.length l + List.length fb - List.length fb)%nat
    with (List.length l + 0)%nat by lia.
  now rewrite firstn_app_2, app_nil_r.
Qed.

Lemma escape_percent_free s : percent_free s = true -> escape s = s.
Proof.
  induction s as [| a s IH]; simpl; [reflexivity |].
  intros H. apply andb_prop in H. destruct H as [Ha Hs].
  apply negb_true_iff in Ha. rewrite Ha. now rewrite IH.
Qed.

(** On escaped text the loop never returns early: it runs to the end of
    the string and has then written the text itself. *)
Lemma literal_loop_escape s : forall o fb l,
  nul_free s = true ->
  literal_loop o (mkPtr fb (l ++ escape s)) (rev l ++ fb) (escape s)
  = (put (l ++ s) o, mkPtr (rev (escape s) ++ rev l ++ fb) []).
Proof.
  induction s as [| a s IH]; intros o fb l Hs.
  - simpl. rewrite write_pending. now rewrite !app_nil_r.
  - simpl in Hs. apply andb_prop in Hs. destruct Hs as [Ha Hs].
    apply negb_true_iff in Ha.
    simpl escape. destruct (a =? "%")%char eqn:Hp.
    + apply Ascii.eqb_eq in Hp. subst a.
      simpl literal_loop. rewrite write_pending.
      specialize (IH (put l o) ("%"%char :: rev l ++ fb) ["%"%char] Hs).
      simpl in IH. rewrite IH. rewrite put_put. f_equal.
      simpl. now rewrite <- !app_assoc.
    + simpl literal_loop. rewrite Ha, Hp.
      specialize (IH o fb (l ++ [a]) Hs).
      rewrite rev_app_distr in IH. simpl in IH.
      rewrite <- app_assoc in IH. simpl in IH. rewrite IH.
      f_equal; [now rewrite <- app_assoc |].
      simpl. now rewrite <- !app_assoc.
Qed.

Lemma format_escape cfg s cb w :
  nul_free s = true ->
  format cfg (mkPtr cb (escape s)) [] w = (Done tt, wrote s w).
Proof.
  intros Hs. simpl. unfold bind, get_out, printFormatStringLiteral. simpl.
  pose proof (literal_loop_escape s (out w) cb [] Hs) as H.
  simpl in H. rewrite H. reflexivity.
Qed.

(** C3.  A template without percent sign is written verbatim by the
    0-argument [format] and no error is raised; and in literal text every
    doubled percent sign comes out as one percent sign, the scan going on
    behind it: the template [escape s] prints [s].  So 100%% prints 100%
    and %%%% prints %%. *)
Theorem C3_literal_text_and_escapes cfg (s cb : list ascii) (w : world) :
  nul_free s = true ->
  (percent_free s = true ->
   format cfg (mkPtr cb s) [] w = (Done tt, wrote s w)) /\
  format cfg (mkPtr cb (escape s)) [] w = (Done tt, wrote s w) /\
  format_string cfg "100%%" [] = (Done "100%"%string, []) /\
  format_string cfg "%%%%" [] = (Done "%%"%string, []).
Proof.
  intros Hs. repeat split.
  - intros Hp. rewrite <- (escape_percent_free s Hp) at 1.
    now apply format_escape.
  - now apply format_escape.
Qed.

Lemma C3_witness :
  nul_free (chars "50%, then 100%") = true /\
  format default_build (mkPtr [] (escape (chars "50%, then 100%"))) []
         (mkWorld ostringstream [])
  = (Done tt, wrote (chars "50%, then 100%") (mkWorld ostringstream [])).
Proof.
  split; [reflexivity |].
  apply (C3_literal_text_and_escapes default_build (chars "50%, then 100%")
           [] (mkWorld ostringstream [])).
  reflexivity.
Defined.

(* ------------------------------------------------------------------ *)
(** ** The directive terminator *)

Lemma is_letter_not_NUL a : is_letter a = true -> (a =? NUL)%char = false.
Proof.
  intros H. destruct (a =? NUL)%char eqn:E; [| reflexivity].
  apply Ascii.eqb_eq in E. subst a. discriminate H.
Qed.

Lemma spec_end_loop_passes l : forall cb rest,
  forallb passes l = true ->
  spec_end_loop cb (l ++ rest) = spec_end_loop (rev l ++ cb) rest.
Proof.
  induction l as [| x l IH]; intros cb rest H; [reflexivity |].
  simpl in H. apply andb_prop in H. destruct H as [Hx Hl].
  unfold passes in Hx. apply andb_prop in Hx. destruct Hx as [Hn Hx].
  apply negb_true_iff in Hn. simpl. rewrite Hn.
  rewrite <- app_assoc. simpl.
  destruct (is_length_modifier x); [now apply IH |].
  simpl in Hx. apply negb_true_iff in Hx. rewrite Hx. now apply IH.
Qed.

Lemma spec_end_loop_terminates a cb post :
  terminates a = true ->
  spec_end_loop cb (a :: post)
  = (Some (mkPtr (a :: cb) post), mkPtr cb (a :: post)).
Proof.
  unfold terminates. intros H. apply andb_prop in H. destruct H as [Hl Hm].
  apply negb_true_iff in Hm. simpl.
  now rewrite (is_letter_not_NUL a Hl), Hm, Hl.
Qed.

Lemma deref_passes_or_terminates l a post cb :
  forallb passes l = true -> terminates a = true ->
  (deref (mkPtr cb (l ++ a :: post)) =? NUL)%char = false.
Proof.
  intros Hl Ha. destruct l as [| x l]; simpl.
  - unfold terminates in Ha. apply andb_prop in Ha.
    now apply is_letter_not_NUL.
  - simpl in Hl. apply andb_prop in Hl. destruct Hl as [Hx _].
    unfold passes in Hx. apply andb_prop in Hx.
    now apply negb_true_iff.
Qed.

(** C4.  From the character after the percent sign, [findFormatSpecEnd]
    steps over length modifiers (and over everything that is no letter)
    and ends the directive behind the first letter outside the length
    modifiers, raising nothing.  When the string ends before such a
    letter it raises the error of an unterminated conversion, and when
    the string ends right behind the percent sign it raises, first, a
    different error. *)
Theorem C4_findFormatSpecEnd cfg (cb l : list ascii) (w : world) :
  forallb passes l = true ->
  (forall a post, terminates a = true ->
     findFormatSpecEnd cfg (mkPtr cb (l ++ a :: post)) w
     = (Done (mkPtr (a :: rev l ++ cb) post), w)) /\
  (l <> [] ->
     findFormatSpecEnd cfg (mkPtr cb l) w
     = (TINYFORMAT_ERROR cfg err_unterminated ;;
        ret (mkPtr (rev l ++ cb) [])) w) /\
  findFormatSpecEnd cfg (mkPtr cb []) w
  = (TINYFORMAT_ERROR cfg err_not_enough ;;
     TINYFORMAT_ERROR cfg err_unterminated ;;
     ret (mkPtr cb [])) w /\
  err_not_enough <> err_unterminated.
Proof.
  intros Hl. repeat split.
  - intros a post Ha. unfold findFormatSpecEnd.
    rewrite (deref_passes_or_terminates l a post cb Hl Ha).
    cbn [before after]. rewrite (spec_end_loop_passes l cb (a :: post) Hl).
    rewrite (spec_end_loop_terminates a (rev l ++ cb) post Ha).
    reflexivity.
  - intros Hne. unfold findFormatSpecEnd. cbn [before after].
    pose proof (spec_end_loop_passes l cb [] Hl) as H.
    rewrite app_nil_r in H. rewrite H. simpl spec_end_loop.
    destruct l as [| x l]; [contradiction |].
    simpl in Hl. apply andb_prop in Hl. destruct Hl as [Hx _].
    unfold passes in Hx. apply andb_prop in Hx. destruct Hx as [Hx _].
    apply negb_true_iff in Hx. unfold deref. cbn [after]. rewrite Hx.
    unfold bind at 1. unfold ret at 1. reflexivity.
  - discriminate.
Qed.

Lemma C4_witness :
  forallb passes (chars "-08.3ll") = true /\
  findFormatSpecEnd default_build
    (mkPtr ["%"%char] (chars "-08.3ll" ++ "d"%char :: chars " done"))
    (mkWorld ostringstream [])
  = (Done (mkPtr ("d"%char :: rev (chars "-08.3ll") ++ ["%"%char])
                 (chars " done")),
     mkWorld ostringstream []).
Proof.
  split; [reflexivity |].
  apply (C4_findFormatSpecEnd default_build ["%"%char] (chars "-08.3ll")
           (mkWorld ostringstream [])); reflexivity.
Defined.

(* ------------------------------------------------------------------ *)
(** ** Where the cursor of the directive interpreter can go *)

Lemma steps_from_refl c : steps_from c c.
Proof. exists []. auto. Qed.

Lemma steps_from_trans c1 c2 c3 :
  steps_from c1 c2 -> steps_from c2 c3 -> steps_from c1 c3.
Proof.
  intros (k1 & A1 & B1 & F1) (k2 & A2 & B2 & F2).
  exists (k1 ++ k2). repeat split.
  - now rewrite A1, A2, app_assoc.
  - now rewrite B2, B1, rev_app_distr, app_assoc.
  - now rewrite forallb_app, F1, F2.
Qed.

Lemma steps_from_one a cb ca :
  advances a = true -> steps_from (mkPtr cb (a :: ca)) (mkPtr (a :: cb) ca).
Proof.
  intros H. exists [a]. simpl. now rewrite H.
Qed.

Lemma steps_from_cons a cb ca c :
  advances a = true -> steps_from (mkPtr (a :: cb) ca) c ->
  steps_from (mkPtr cb (a :: ca)) c.
Proof.
  intros H. apply steps_from_trans. now apply steps_from_one.
Qed.

Lemma advances_flag a : is_flag a = true -> advances a = true.
Proof. unfold advances. now intros ->. Qed.

Lemma advances_digit a : is_digit a = true -> advances a = true.
Proof. unfold advances. intros ->. now rewrite orb_true_r. Qed.

Lemma advances_length a : is_length_modifier a = true -> advances a = true.
Proof. unfold advances. intros ->. now rewrite !orb_true_r. Qed.

Lemma parse_flag_is_flag a o e :
  parse_flag a o e <> None -> is_flag a = true.
Proof.
  unfold parse_flag, is_flag.
  destruct (a =? "#")%char; [reflexivity |].
  destruct (a =? "0")%char; [reflexivity |].
  destruct (a =? "-")%char; [reflexivity |].
  destruct (a =? " ")%char; [reflexivity |].
  destruct (a =? "+")%char; [reflexivity |].
  intros H. now contradiction H.
Qed.

Lemma parse_flags_steps ca : forall o e cb,
  steps_from (mkPtr cb ca) (snd (parse_flags o e cb ca)).
Proof.
  induction ca as [| a ca IH]; intros o e cb; simpl.
  - apply steps_from_refl.
  - destruct (parse_flag a o e) as [[o' e'] |] eqn:E.
    + apply steps_from_cons; [| apply IH].
      apply advances_flag. apply (parse_flag_is_flag a o e). now rewrite E.
    + apply steps_from_refl.
Qed.

Lemma parseInt_loop_steps ca : forall i cb,
  steps_from (mkPtr cb ca) (snd (parseInt_loop i cb ca)).
Proof.
  induction ca as [| a ca IH]; intros i cb; simpl.
  - apply steps_from_refl.
  - destruct (is_digit a) eqn:E.
    + apply steps_from_cons; [now apply advances_digit | apply IH].
    + apply steps_from_refl.
Qed.

Lemma parseIntAndAdvance_steps c :
  steps_from c (snd (parseIntAndAdvance c)).
Proof. destruct c. apply parseInt_loop_steps. Qed.

Lemma skip_length_loop_steps ca : forall cb,
  steps_from (mkPtr cb ca) (skip_length_loop cb ca).
Proof.
  induction ca as [| a ca IH]; intros cb; simpl.
  - apply steps_from_refl.
  - destruct (is_length_modifier a) eqn:E.
    + apply steps_from_cons; [now apply advances_length | apply IH].
    + apply steps_from_refl.
Qed.

Lemma skip_length_modifiers_steps c :
  steps_from c (skip_length_modifiers c).
Proof. destruct c. apply skip_length_loop_steps. Qed.

Lemma next_steps c :
  advances (deref c) = true -> steps_from c (next c).
Proof.
  destruct c as [cb [| a ca]]; unfold deref, next; simpl.
  - discriminate.
  - apply steps_from_one.
Qed.

(** Advancing characters in front of a stop stay in front of it. *)
Lemma advancing_prefix k : forall l2 r stop,
  k ++ r = l2 ++ stop -> forallb advances k = true -> stops stop = true ->
  exists l2', l2 = k ++ l2' /\ r = l2' ++ stop.
Proof.
  induction k as [| x k IH]; intros l2 r stop E F S; simpl in *.
  - exists l2. auto.
  - apply andb_prop in F. destruct F as [Fx Fk].
    destruct l2 as [| y l2]; simpl in E.
    + subst stop. simpl in S. rewrite Fx in S. discriminate.
    + injection E as -> E. destruct (IH l2 r stop E Fk S) as (l2' & -> & ->).
      exists l2'. auto.
Qed.

Lemma within_steps cb l stop c c' :
  stops stop = true -> within cb l stop c -> steps_from c c' ->
  within cb l stop c'.
Proof.
  intros S (l1 & l2 & -> & ->) (k & A & B & F). simpl in A, B.
  symmetry in A.
  destruct (advancing_prefix k l2 (after c') stop A F S) as (l2' & -> & R).
  exists (l1 ++ k), l2'. split; [now rewrite app_assoc |].
  destruct c' as [b a]. simpl in *. subst.
  now rewrite rev_app_distr, app_assoc.
Qed.

Lemma within_start cb l stop : within cb l stop (mkPtr cb (l ++ stop)).
Proof. exists [], l. auto. Qed.

Lemma within_offset cb l stop c :
  within cb l stop c -> (offset c <= List.length l + List.length cb)%nat.
Proof.
  intros (l1 & l2 & -> & ->). unfold offset. simpl.
  rewrite !length_app, length_rev. lia.
Qed.

(** In front of a stop, a character the cursor can step over belongs to
    the stretch. *)
Lemma within_next cb l stop c :
  stops stop = true -> within cb l stop c -> advances (deref c) = true ->
  within cb l stop (next c).
Proof.
  intros S W A. eapply within_steps; eauto. now apply next_steps.
Qed.

(* ------------------------------------------------------------------ *)
(** ** Bit masks *)

Lemma testbit_high c n :
  (0 <= c < 32768)%Z -> (15 <= n)%Z -> Z.testbit c n = false.
Proof.
  intros Hc Hn. destruct (Z.eq_dec c 0) as [-> | Hne]; [apply Z.bits_0 |].
  apply Z.bits_above_log2; [lia |].
  assert (Z.log2 c < 15)%Z by (apply Z.log2_lt_pow2; lia). lia.
Qed.

Ltac mask_values :=
  unfold conversion_bits, reset_mask, ios.adjustfield, ios.basefield,
    ios.floatfield, ios.boolalpha, ios.dec, ios.fixed, ios.hex,
    ios.internal, ios.left, ios.oct, ios.right, ios.scientific,
    ios.showbase, ios.showpoint, ios.showpos, ios.skipws, ios.unitbuf,
    ios.uppercase, Flag_SpacePadPositive, Flag_TruncateToPrecision in *.

Ltac bit_specs :=
  repeat first [ rewrite Z.lor_spec | rewrite Z.land_spec
               | rewrite Z.ldiff_spec | rewrite Z.bits_0 ].

Ltac destruct_var_bits :=
  repeat match goal with
  | |- context [Z.testbit ?f ?k] =>
      lazymatch f with
      | Zpos _ => fail
      | Z0 => fail
      | _ => generalize (Z.testbit f k); intros []
      end
  end.

Ltac high_bits :=
  repeat match goal with
  | |- context [Z.testbit (Zpos ?p) ?k] =>
      rewrite (@testbit_high (Zpos p) k) by (try split; try lia; reflexivity)
  end.

(** Equations between masks built from variables and the fifteen flag
    bits: compared bit by bit, the low fifteen one at a time. *)
Ltac bits :=
  mask_values;
  apply Z.bits_inj'; 
  let n := fresh "n" in
  let Hn := fresh "Hn" in
  let Hcases := fresh "Hcases" in
  intros n Hn; bit_specs;
  destruct (Z_lt_le_dec n 15);
  [ assert (Hcases : In n [0; 1; 2; 3; 4; 5; 6; 7; 8; 9; 10; 11; 12; 13; 14]%Z)
      by (simpl; lia);
    simpl in Hcases;
    repeat (destruct Hcases as [<- | Hcases]); [.. | contradiction];
    destruct_var_bits; reflexivity
  | high_bits; destruct_var_bits; reflexivity ].

Lemma land_setf_other f a k :
  Z.land a k = 0%Z -> Z.land (Z.lor f a) k = Z.land f k.
Proof.
  intros H. rewrite Z.land_lor_distr_l, H. apply Z.lor_0_r.
Qed.

Lemma land_ldiff_other f m k :
  Z.land m k = 0%Z -> Z.land (Z.ldiff f m) k = Z.land f k.
Proof.
  intros H. apply Z.bits_inj'. intros n Hn.
  apply (f_equal (fun z => Z.testbit z n)) in H.
  rewrite Z.land_spec, Z.bits_0 in H.
  rewrite !Z.land_spec, Z.ldiff_spec.
  destruct (Z.testbit f n), (Z.testbit m n), (Z.testbit k n);
    simpl in *; congruence.
Qed.

Lemma land_setf_mask_other f fl m k :
  Z.land m k = 0%Z ->
  Z.land (Z.lor (Z.ldiff f m) (Z.land fl m)) k = Z.land f k.
Proof.
  intros H. rewrite Z.land_lor_distr_l, land_ldiff_other by assumption.
  rewrite <- Z.land_assoc, H, Z.land_0_r. apply Z.lor_0_r.
Qed.

Lemma land_ldiff_inside f m k :
  Z.land k m = k -> Z.land (Z.ldiff f m) k = 0%Z.
Proof.
  intros H. apply Z.bits_inj'. intros n Hn.
  apply (f_equal (fun z => Z.testbit z n)) in H.
  rewrite Z.land_spec in H.
  rewrite Z.land_spec, Z.ldiff_spec, Z.bits_0.
  destruct (Z.testbit f n), (Z.testbit m n), (Z.testbit k n);
    simpl in *; congruence.
Qed.

(* ------------------------------------------------------------------ *)
(** ** What the reports of a computation can be *)

Lemma only_reports_refl P w : only_reports P w w.
Proof. exists []. split; [now rewrite app_nil_r | constructor]. Qed.

Lemma only_reports_trans P w1 w2 w3 :
  only_reports P w1 w2 -> only_reports P w2 w3 -> only_reports P w1 w3.
Proof.
  intros (m1 & E1 & F1) (m2 & E2 & F2). exists (m1 ++ m2). split.
  - now rewrite E2, E1, app_assoc.
  - apply Forall_app. auto.
Qed.

Lemma only_reports_weaken (P P' : string -> Prop) w w' :
  (forall r, P r -> P' r) -> only_reports P w w' -> only_reports P' w w'.
Proof.
  intros H (m & E & F). exists m. split; [assumption |].
  eapply Forall_impl; eauto.
Qed.

Lemma only_reports_report (P : string -> Prop) r w :
  P r -> only_reports P w (report r w).
Proof. intros H. exists [r]. split; [reflexivity | now constructor]. Qed.

Lemma only_reports_out P o w : only_reports P w (mkWorld o (reported w)).
Proof. exists []. split; [simpl; now rewrite app_nil_r | constructor]. Qed.

Lemma parses_refl cb l stop w : parses cb l stop w w.
Proof.
  repeat split. exists []. rewrite app_nil_r. auto.
Qed.

Lemma parses_trans cb l stop w1 w2 w3 :
  parses cb l stop w1 w2 -> parses cb l stop w2 w3 -> parses cb l stop w1 w3.
Proof.
  intros (S1 & F1 & G1 & m1 & E1 & A1 & B1) (S2 & F2 & G2 & m2 & E2 & A2 & B2).
  repeat split; try congruence.
  exists (m1 ++ m2). repeat split.
  - now rewrite E2, E1, app_assoc.
  - apply Forall_app. auto.
  - destruct B1 as [-> | B1]; [| now right].
    destruct B2 as [-> | B2]; [now left | now right].
Qed.

Lemma parses_only_reports cb l stop w w' :
  parses cb l stop w w' -> only_reports spec_error w w'.
Proof.
  intros (_ & _ & _ & m & E & A & _). exists m. split; [assumption |].
  eapply Forall_impl; [| exact A]. unfold star_error, spec_error. tauto.
Qed.

(* ------------------------------------------------------------------ *)
(** ** Interpreting a directive: what every run has in common *)

Lemma parse_flag_frame a o e o' e' :
  parse_flag a o e = Some (o', e') ->
  str o' = str o /\ width o' = width o /\ precision o' = precision o /\
  (good_fill o -> good_fill o') /\
  Z.land (flags o') conversion_bits = Z.land (flags o) conversion_bits.
Proof.
  unfold parse_flag.
  repeat match goal with
  | |- context [if (a =? ?x)%char then _ else _] =>
      destruct (a =? x)%char
  end; intros H; try discriminate H; injection H as <- <-.
  - repeat split; auto. cbn [flags setf set_flags].
    apply land_setf_other. reflexivity.
  - destruct (negb (has_flag o ios.left)); repeat split; auto.
    + intros _. right. reflexivity.
    + cbn [flags setf_mask set_flags set_fill].
      apply land_setf_mask_other. reflexivity.
  - repeat split; auto.
    + intros _. left. reflexivity.
    + cbn [flags setf_mask set_flags set_fill].
      apply land_setf_mask_other. reflexivity.
  - repeat split; auto.
  - repeat split; auto. cbn [flags setf set_flags].
    apply land_setf_other. reflexivity.
Qed.

Lemma parse_flags_frame ca : forall o e cb,
  let o' := fst (fst (parse_flags o e cb ca)) in
  str o' = str o /\ width o' = width o /\ precision o' = precision o /\
  (good_fill o -> good_fill o') /\
  Z.land (flags o') conversion_bits = Z.land (flags o) conversion_bits.
Proof.
  induction ca as [| a ca IH]; intros o e cb; simpl.
  - tauto.
  - destruct (parse_flag a o e) as [[o1 e1] |] eqn:E; [| simpl; tauto].
    destruct (parse_flag_frame a o e E) as (A1 & B1 & C1 & D1 & E1).
    destruct (IH o1 e1 (a :: cb)) as (A & B & C & D & E2).
    rewrite A, B, C, E2. repeat split; auto.
Qed.

Lemma has_extra_truncate e :
  has_extra (Z.lor e Flag_TruncateToPrecision) Flag_SpacePadPositive
  = has_extra e Flag_SpacePadPositive.
Proof.
  unfold has_extra. rewrite land_setf_other; reflexivity.
Qed.

Ltac list_eq :=
  first [ symmetry; apply app_nil_r | rewrite <- ?app_assoc; reflexivity ].

Ltac one_of :=
  unfold star_error, spec_error;
  first [ reflexivity | left; reflexivity | right; reflexivity
        | right; left; reflexivity | right; right; reflexivity ].

Ltac all_of :=
  repeat (apply Forall_cons; [one_of |]); apply Forall_nil.

Ltac reports :=
  unfold only_reports, report; cbn [out reported];
  eexists; split; [ list_eq | all_of ].

Ltac parses_tac :=
  unfold parses, report;
  cbn [out reported str fill flags set_width set_precision];
  repeat split;
  eexists; split;
  [ list_eq
  | split; [ all_of | first [ left; reflexivity | right; assumption ] ] ].

Section Directive.

Variables (cfg : config) (cb l stop : list ascii).
Hypothesis Hstop : stops stop = true.

Lemma within_parseInt c z c0 :
  within cb l stop c -> parseIntAndAdvance c = (z, c0) -> within cb l stop c0.
Proof.
  intros W E. eapply within_steps; eauto.
  replace c0 with (snd (parseIntAndAdvance c)) by (now rewrite E).
  apply parseIntAndAdvance_steps.
Qed.

Lemma star_seen_at c :
  within cb l stop c -> (deref c =? "*")%char = true -> star_seen cb l stop.
Proof. intros W E. apply Ascii.eqb_eq in E. exists c. auto. Qed.

Lemma parse_width_spec c w :
  within cb l stop c ->
  outcome (parse_width cfg c) w
    (fun r w' => within cb l stop (snd r) /\ parses cb l stop w w')
    (fun w' => error_returns cfg = false /\ star_seen cb l stop /\
               only_reports star_error w w').
Proof.
  intros W. unfold parse_width. msteps.
  - assert (W0 : within cb l stop c0) by (eapply within_parseInt; eauto).
    assert (S0 : star_seen cb l stop) by (eapply star_seen_at; eauto).
    split; [exact W0 | parses_tac].
  - assert (W0 : within cb l stop c0) by (eapply within_parseInt; eauto).
    assert (S0 : star_seen cb l stop) by (eapply star_seen_at; eauto).
    repeat split; auto. reports.
  - assert (W0 : within cb l stop c0) by (eapply within_parseInt; eauto).
    split; [exact W0 | parses_tac].
  - assert (S0 : star_seen cb l stop) by (eapply star_seen_at; eauto).
    split; [exact W | parses_tac].
  - assert (S0 : star_seen cb l stop) by (eapply star_seen_at; eauto).
    repeat split; auto. reports.
  - split; [exact W | apply parses_refl].
Qed.

Lemma advances_dot c :
  (deref c =? ".")%char = true -> advances (deref c) = true.
Proof. intros E. apply Ascii.eqb_eq in E. now rewrite E. Qed.

Lemma advances_minus c :
  (deref c =? "-")%char = true -> advances (deref c) = true.
Proof. intros E. apply Ascii.eqb_eq in E. now rewrite E. Qed.

Lemma parse_precision_spec c w :
  within cb l stop c ->
  outcome (parse_precision cfg c) w
    (fun r w' => within cb l stop (snd r) /\ parses cb l stop w w')
    (fun w' => error_returns cfg = false /\ star_seen cb l stop /\
               only_reports star_error w w').
Proof.
  intros W. unfold parse_precision. mstep.
  2: { mstep. split; [exact W | apply parses_refl]. }
  assert (W1 : within cb l stop (next c))
    by (apply within_next; auto using advances_dot).
  assert (W2 : forall z c2,
             (if is_digit (deref (next c)) then parseIntAndAdvance (next c)
              else if (deref (next c) =? "-")%char
                   then (0%Z, snd (parseIntAndAdvance (next (next c))))
                   else (0%Z, next c)) = (z, c2) -> within cb l stop c2).
  { intros z c2 E. destruct (is_digit (deref (next c))).
    - eapply within_parseInt; eauto.
    - destruct (deref (next c) =? "-")%char eqn:M.
      + injection E as _ <-. eapply within_steps; eauto.
        eapply steps_from_trans;
          [apply next_steps; now apply advances_minus
          | apply parseIntAndAdvance_steps].
      + now injection E as _ <-. }
  msteps.
  - assert (S0 : star_seen cb l stop) by (eapply star_seen_at; eauto).
    split; [eapply W2; eauto | parses_tac].
  - assert (S0 : star_seen cb l stop) by (eapply star_seen_at; eauto).
    repeat split; auto. reports.
  - split; [eapply W2; eauto | parses_tac].
Qed.

Lemma set_conversion_spec type precisionSet e w :
  outcome (set_conversion cfg type precisionSet e) w
    (fun r w' =>
       str (out w') = str (out w) /\ fill (out w') = fill (out w) /\
       only_reports spec_error w w' /\
       has_extra (snd r) Flag_SpacePadPositive
       = has_extra e Flag_SpacePadPositive)
    (fun w' => error_returns cfg = false /\ only_reports spec_error w w').
Proof.
  unfold set_conversion. msteps.
  all: repeat split; auto; try reports.
  cbn [snd]. destruct precisionSet; [apply has_extra_truncate | reflexivity].
Qed.

Lemma integer_precision_fixup_spec ic ps ws w (X : world -> Prop) :
  outcome (integer_precision_fixup ic ps ws) w
    (fun _ w' =>
       str (out w') = str (out w) /\ reported w' = reported w /\
       (good_fill (out w) -> good_fill (out w')))
    X.
Proof.
  unfold integer_precision_fixup. msteps; repeat split; auto.
  intros _. right. reflexivity.
Qed.

End Directive.

Section Interpreter.

Variables (cfg : config) (cb l stop : list ascii) (fmtEnd : cptr).
Hypothesis Hstop : stops stop = true.
Hypothesis Hend : (List.length l + List.length cb <= offset fmtEnd)%nat.

Lemma star_to_spec w w' :
  only_reports star_error w w' -> only_reports spec_error w w'.
Proof.
  apply only_reports_weaken. unfold star_error, spec_error. tauto.
Qed.

Lemma streamStateFromFormat_spec w :
  outcome (streamStateFromFormat cfg (mkPtr cb (l ++ stop)) fmtEnd) w
    (fun extraFlags w' =>
       str (out w') = str (out w) /\ good_fill (out w') /\
       only_reports spec_error w w' /\
       has_extra extraFlags Flag_SpacePadPositive
       = has_extra (snd (fst (parse_flags (reset (out w)) 0 cb (l ++ stop))))
                   Flag_SpacePadPositive)
    (fun w' => error_returns cfg = false /\ only_reports spec_error w w').
Proof.
  unfold streamStateFromFormat, reset_stream_state. msteps.
  change (unsetf reset_mask
            (set_fill " " (set_precision 6 (set_width 0 (out w)))))
    with (reset (out w)) in *.
  cbn [before after] in *.
  pose proof (parse_flags_frame (l ++ stop) (reset (out w)) 0 cb) as F.
  pose proof (parse_flags_steps (l ++ stop) (reset (out w)) 0 cb) as S.
  rewrite Heqp in F, S. cbn [fst snd] in F, S.
  destruct F as (Fs & _ & _ & Ff & _).
  assert (G0 : good_fill o) by (apply Ff; left; reflexivity).
  assert (W : within cb l stop c)
    by (eapply within_steps; eauto; apply within_start).
  assert (R0 : only_reports spec_error w (mkWorld o (reported w)))
    by apply only_reports_out.
  rewrite Heqp. cbn [fst snd]. clear Heqp Heqp0 Ff S.
  msteps.
  (* width *)
  eapply outcome_mono; [apply parse_width_spec; eauto | |].
  2: { intros w' (E & _ & R). split; [assumption |].
       eapply only_reports_trans; [exact R0 | now apply star_to_spec]. }
  intros [widthSet c1] w1 (W1 & P1). cbn [snd] in W1.
  assert (R1 : only_reports spec_error w w1)
    by (eapply only_reports_trans; [exact R0 |];
        eapply parses_only_reports; eauto).
  destruct P1 as (S1 & F1 & _). cbn [out] in S1, F1.
  (* precision *)
  mstep.
  eapply outcome_mono; [apply parse_precision_spec; eauto | |].
  2: { intros w' (E & _ & R). split; [assumption |].
       eapply only_reports_trans; [exact R1 | now apply star_to_spec]. }
  intros [precisionSet c2] w2 (W2 & P2). cbn [snd] in W2.
  assert (R2 : only_reports spec_error w w2)
    by (eapply only_reports_trans; [exact R1 |];
        eapply parses_only_reports; eauto).
  destruct P2 as (S2 & F2 & _).
  (* conversion *)
  mstep.
  eapply outcome_mono; [apply set_conversion_spec | |].
  2: { intros w' (E & R). split; [assumption |].
       eapply only_reports_trans; eauto. }
  intros [intConversion extraFlags] w3 (S3 & F3 & R3 & E3). cbn [snd] in E3.
  mstep.
  eapply outcome_mono; [apply integer_precision_fixup_spec | |].
  2: { intros w' H; exact H. }
  intros [] w4 (S4 & R4 & G4).
  assert (Hle : ptr_le (skip_length_modifiers c2) fmtEnd = true).
  { unfold ptr_le. apply Nat.leb_le.
    assert (W3 : within cb l stop (skip_length_modifiers c2))
      by (eapply within_steps; eauto; apply skip_length_modifiers_steps).
    apply within_offset in W3. lia. }
  rewrite Hle. msteps.
  change (str (reset (out w))) with (str (out w)) in Fs.
  repeat split.
  - congruence.
  - apply G4. unfold good_fill in *. rewrite F3, F2, F1. exact G0.
  - destruct R3 as (m3 & E3' & A3). destruct R2 as (m2 & E2' & A2).
    exists (m2 ++ m3). split.
    + rewrite R4, E3', E2'. now rewrite app_assoc.
    + apply Forall_app. auto.
  - exact E3.
Qed.

End Interpreter.

(* ------------------------------------------------------------------ *)
(** ** The value dispatcher *)

Lemma advances_passes a : advances a = true -> passes a = true.
Proof.
  destruct a as [[] [] [] [] [] [] [] []]; vm_compute; congruence.
Qed.

Lemma split_advancing pa :
  exists l stop, pa = l ++ stop /\ forallb advances l = true /\
                 stops stop = true.
Proof.
  induction pa as [| a pa (l & stop & E & F & S)].
  - exists [], []. auto.
  - destruct (advances a) eqn:A.
    + exists (a :: l), stop. simpl. rewrite A, E. auto.
    + exists [], (a :: pa). simpl. rewrite A. auto.
Qed.

Lemma spec_end_loop_offset ca : forall cb,
  (List.length cb <= offset (snd (spec_end_loop cb ca)))%nat /\
  match fst (spec_end_loop cb ca) with
  | Some e => (List.length cb <= offset e)%nat
  | None => True
  end.
Proof.
  induction ca as [| a ca IH]; intros cb; simpl.
  - unfold offset. simpl. auto.
  - destruct (a =? NUL)%char; [unfold offset; simpl; auto |].
    assert (H := IH (a :: cb)). simpl in H.
    destruct (is_length_modifier a).
    + destruct H as [H1 H2]. split; [lia |].
      destruct (fst (spec_end_loop (a :: cb) ca)); auto. lia.
    + destruct (is_letter a); simpl.
      * unfold offset. simpl. split; lia.
      * destruct H as [H1 H2]. split; [lia |].
        destruct (fst (spec_end_loop (a :: cb) ca)); auto. lia.
Qed.

Lemma spec_end_bound cb l stop :
  forallb advances l = true ->
  (List.length l + List.length cb
   <= offset (spec_end (mkPtr cb (l ++ stop))))%nat.
Proof.
  intros F. unfold spec_end. cbn [before after].
  rewrite spec_end_loop_passes.
  - destruct (spec_end_loop_offset stop (rev l ++ cb)) as [H1 H2].
    rewrite length_app, length_rev in H1, H2.
    destruct (spec_end_loop (rev l ++ cb) stop) as [[e |] c]; simpl in *; lia.
  - rewrite forallb_forall in *. intros x Hx. apply advances_passes. auto.
Qed.

(** Interpreting the directive that [findFormatSpecEnd] delimits. *)
Lemma streamStateFromFormat_delimited cfg fmtBegin w :
  outcome (streamStateFromFormat cfg fmtBegin (spec_end fmtBegin)) w
    (fun extraFlags w' =>
       str (out w') = str (out w) /\ good_fill (out w') /\
       only_reports spec_error w w' /\
       has_extra extraFlags Flag_SpacePadPositive
       = has_extra (snd (fst (parse_flags (reset (out w)) 0
                                (before fmtBegin) (after fmtBegin))))
                   Flag_SpacePadPositive)
    (fun w' => error_returns cfg = false /\ only_reports spec_error w w').
Proof.
  destruct fmtBegin as [cb pa].
  destruct (split_advancing pa) as (l & stop & -> & F & S).
  apply streamStateFromFormat_spec; [assumption |].
  now apply spec_end_bound.
Qed.

Lemma formatValueBasic_spec cfg fmtBegin v w :
  outcome (formatValueBasic cfg fmtBegin (spec_end fmtBegin) v) w
    (fun _ w' => same_formatting (out w) (out w') /\
                 only_reports spec_error w w')
    (fun w' => error_returns cfg = false /\ only_reports spec_error w w').
Proof.
  unfold formatValueBasic. msteps.
  eapply outcome_mono; [apply streamStateFromFormat_delimited | |].
  2: { intros w' H. exact H. }
  intros extraFlags w1 (_ & _ & R & _).
  msteps; (split; [repeat split | ]);
    destruct R as (m & E & A); exists m; auto.
Qed.

(** C1, as far as it holds.  Whenever [formatValueBasic] returns, the
    width, precision, flags and fill of the stream are the ones from before
    the call; and in a build whose error handler returns, the call on a
    directive delimited by [findFormatSpecEnd] does return, errors raised
    or not.  (When the handler throws, the restoring statements are not
    reached: see the counterexample.) *)
Theorem C1_state_restored_on_return cfg fmtBegin fmtEnd v w :
  outcome (formatValueBasic cfg fmtBegin fmtEnd v) w
    (fun _ w' => same_formatting (out w) (out w')) (fun _ => True) /\
  (error_returns cfg = true -> fmtEnd = spec_end fmtBegin ->
   exists w', formatValueBasic cfg fmtBegin fmtEnd v w = (Done tt, w') /\
              same_formatting (out w) (out w')).
Proof.
  split.
  - unfold formatValueBasic. msteps.
    unfold outcome at 1.
    destruct (streamStateFromFormat cfg fmtBegin fmtEnd w)
      as [[extraFlags | r |] w1]; auto.
    msteps; repeat split.
  - intros Hret ->.
    pose proof (formatValueBasic_spec cfg fmtBegin v w) as H.
    unfold outcome in H.
    destruct (formatValueBasic cfg fmtBegin (spec_end fmtBegin) v w)
      as [[[] | r |] w'].
    + exists w'. split; [reflexivity | tauto].
    + destruct H as [H _]. congruence.
    + destruct H as [H _]. congruence.
Qed.

Lemma C1_witness :
  error_returns returning_build = true /\
  exists w',
    formatValueBasic returning_build (mkPtr ["%"%char] (chars "*d"))
      (spec_end (mkPtr ["%"%char] (chars "*d"))) (int 5)
      (mkWorld (mkStream 7 3 ios.hex "*" []) [])
    = (Done tt, w') /\
    same_formatting (mkStream 7 3 ios.hex "*" []) (out w').
Proof.
  split; [reflexivity |].
  apply (C1_state_restored_on_return returning_build
           (mkPtr ["%"%char] (chars "*d"))
           (spec_end (mkPtr ["%"%char] (chars "*d"))) (int 5)
           (mkWorld (mkStream 7 3 ios.hex "*" []) [])); reflexivity.
Defined.

(** The claim C1 fails in a build whose error handler throws: at [%n] the
    exception leaves [formatValueBasic] between the reset of the stream
    and the restoring statements, and width, precision and fill stay at
    their reset values. *)
Lemma C1_counterexample_throwing_handler :
  fst (formatValueBasic throwing_build (mkPtr ["%"%char] (chars "n"))
         (mkPtr ["n"%char; "%"%char] []) (int 5)
         (mkWorld (mkStream 7 3 ios.hex "*" []) []))
  = Thrown err_percent_n /\
  ~ same_formatting (mkStream 7 3 ios.hex "*" [])
      (out (snd (formatValueBasic throwing_build
                   (mkPtr ["%"%char] (chars "n"))
                   (mkPtr ["n"%char; "%"%char] []) (int 5)
                   (mkWorld (mkStream 7 3 ios.hex "*" []) [])))).
Proof.
  split; [reflexivity |].
  intros (W & _). vm_compute in W. discriminate W.
Qed.

(* ------------------------------------------------------------------ *)
(** ** Counting directives against arguments *)

(** What the literal scanner returns tells whether a directive is left. *)
Lemma literal_loop_directives n : forall ca o fmt cb,
  (List.length ca <= n)%nat ->
  directives ca
  = (if (deref (snd (literal_loop o fmt cb ca)) =? NUL)%char then 0%nat
     else S (directives_from true (after (snd (literal_loop o fmt cb ca))))).
Proof.
  induction n as [| n IH]; intros ca o fmt cb Hn.
  - destruct ca; [reflexivity | simpl in Hn; lia].
  - destruct ca as [| a ca]; [reflexivity |].
    simpl in Hn. unfold directives. simpl.
    destruct (a =? NUL)%char eqn:Ha.
    + unfold deref. simpl. now rewrite Ha.
    + destruct (a =? "%")%char eqn:Hp.
      * destruct ca as [| b ca]; [reflexivity |].
        destruct (b =? "%")%char eqn:Hb; simpl.
        -- apply IH. simpl in Hn. lia.
        -- unfold deref. simpl. destruct (b =? NUL)%char; reflexivity.
      * apply IH. lia.
Qed.

Lemma printFormatStringLiteral_directives o fmt :
  directives (after fmt)
  = (if (deref (snd (printFormatStringLiteral o fmt)) =? NUL)%char then 0%nat
     else S (directives_from true
               (after (snd (printFormatStringLiteral o fmt))))).
Proof.
  unfold printFormatStringLiteral. eapply literal_loop_directives. eauto.
Qed.

Lemma spec_end_directives ca : forall cb,
  directives_from true ca = directives (after (spec_end (mkPtr cb ca))).
Proof.
  unfold spec_end, directives. cbn [before after].
  induction ca as [| a ca IH]; intros cb; simpl; [reflexivity |].
  destruct (a =? NUL)%char eqn:Ha; [simpl; now rewrite Ha |].
  unfold terminates.
  destruct (is_length_modifier a); simpl.
  - rewrite andb_false_r. apply IH.
  - rewrite andb_true_r. destruct (is_letter a); [reflexivity | apply IH].
Qed.

Lemma spec_end_at_end p :
  (deref p =? NUL)%char = true -> spec_end p = p.
Proof.
  destruct p as [cb [| a ca]]; unfold spec_end, deref; simpl; [reflexivity |].
  now intros ->.
Qed.

Lemma directives_at_end p :
  (deref p =? NUL)%char = true -> directives (after p) = 0%nat.
Proof.
  destruct p as [cb [| a ca]]; unfold directives, deref; simpl; [reflexivity |].
  now intros ->.
Qed.

Section Counting.

Variable cfg : config.

Lemma findFormatSpecEnd_spec p w :
  outcome (findFormatSpecEnd cfg p) w
    (fun e w' =>
       e = spec_end p /\
       if (deref p =? NUL)%char
       then reported w' = reported w ++ [err_not_enough; err_unterminated]
       else reported w' = reported w \/
            reported w' = reported w ++ [err_unterminated])
    (fun w' =>
       error_returns cfg = false /\
       if (deref p =? NUL)%char
       then reported w' = reported w ++ [err_not_enough] \/
            reported w' = reported w ++ [err_not_enough; err_unterminated]
       else reported w' = reported w ++ [err_unterminated]).
Proof.
  unfold findFormatSpecEnd, spec_end.
  destruct (deref p =? NUL)%char eqn:E.
  - rewrite (surjective_pairing (spec_end_loop (before p) (after p))).
    assert (H : fst (spec_end_loop (before p) (after p)) = None).
    { destruct p as [cb [| a ca]]; unfold deref in E; simpl in *;
        [reflexivity | now rewrite E]. }
    rewrite H. msteps; unfold report; cbn [reported];
      rewrite <- ?app_assoc; auto.
  - destruct (spec_end_loop (before p) (after p)) as [[e |] c];
      msteps; unfold report; cbn [reported]; auto.
Qed.

Ltac distinct :=
  let H := fresh in intro H; vm_compute in H; discriminate H.

Lemma spec_error_not_count r : spec_error r -> not_a_count_error r.
Proof. intros [-> | [-> | ->]]; split; discriminate. Qed.

Lemma no_count_error m r :
  Forall not_a_count_error m -> In r m ->
  r <> err_too_many /\ r <> err_not_enough.
Proof. intros F I. rewrite Forall_forall in F. exact (F r I). Qed.

Lemma counted_extend d n m0 m :
  Forall not_a_count_error m0 -> counted d n m ->
  counted (S d) (S n) (m0 ++ m).
Proof.
  intros F [C1 C2]. split; intros I; apply in_app_or in I;
    destruct I as [I | I].
  - destruct (@no_count_error _ _ F I) as [N1 N2]. now contradiction N1.
  - apply C1 in I. lia.
  - destruct (@no_count_error _ _ F I) as [N1 N2]. now contradiction N2.
  - apply C2 in I. lia.
Qed.

Lemma complete_extend d n m0 m :
  complete d n m -> complete (S d) (S n) (m0 ++ m).
Proof.
  intros [C1 C2]. split; intros I; apply in_or_app; right;
    [apply C1 | apply C2]; lia.
Qed.

Lemma counted_none d n m : Forall not_a_count_error m -> counted d n m.
Proof.
  intros F. split; intros I; destruct (@no_count_error _ _ F I) as [N1 N2];
    [now contradiction N1 | now contradiction N2].
Qed.

Lemma counted_surplus n m0 m :
  Forall (fun r => r <> err_too_many) m0 -> counted 0 n m ->
  counted 0 (S n) (m0 ++ m).
Proof.
  intros F [C1 C2]. split; intros I; [| lia].
  apply in_app_or in I. destruct I as [I | I].
  - rewrite Forall_forall in F. now destruct (F _ I).
  - apply C1 in I. lia.
Qed.

Lemma format_counts args : forall fmt w,
  outcome (format cfg fmt args) w
    (fun _ w' =>
       exists msgs, reported w' = reported w ++ msgs /\
         counted (directives (after fmt)) (List.length args) msgs /\
         complete (directives (after fmt)) (List.length args) msgs)
    (fun w' =>
       error_returns cfg = false /\
       exists msgs, reported w' = reported w ++ msgs /\
         counted (directives (after fmt)) (List.length args) msgs).
Proof.
  induction args as [| v args IH]; intros fmt w; cbn [format List.length].
  - pose proof (printFormatStringLiteral_directives (out w) fmt) as D.
    msteps; try rewrite Heqp in D; cbn [snd] in D; rewrite D;
      rewrite ?negb_true_iff, ?negb_false_iff in *;
      match goal with H : (deref _ =? NUL)%char = _ |- _ => rewrite H end.
    + exists [err_too_many]. repeat split; try lia.
      * intros [H0 | []]. vm_compute in H0; discriminate H0.
      * intros _. now left.
    + split; [assumption |]. exists [err_too_many]. repeat split; try lia.
      intros [H0 | []]. vm_compute in H0; discriminate H0.
    + exists []. rewrite app_nil_r. repeat split;
        try contradiction; lia.
  - pose proof (printFormatStringLiteral_directives (out w) fmt) as D.
    msteps. try rewrite Heqp in D. cbn [snd] in D. clear Heqp.
    eapply outcome_mono; [apply findFormatSpecEnd_spec | |]; rewrite D;
      cbn [List.length].
    + (* the directive terminator returned *)
      intros e w1 (-> & R1).
      mstep.
      eapply outcome_mono; [apply formatValueBasic_spec | |].
      * intros _ w2 (_ & m2 & R2 & F2).
        eapply outcome_mono; [apply IH | |].
        -- intros _ w3 (m3 & R3 & C3 & K3).
           destruct (deref c =? NUL)%char eqn:E.
           ++ rewrite (spec_end_at_end c E), (directives_at_end c E) in *.
              exists ([err_not_enough; err_unterminated] ++ m2 ++ m3).
              split; [rewrite R3, R2, R1; cbn [reported];
                      now rewrite <- !app_assoc |].
              split.
              ** rewrite app_assoc. apply counted_surplus; [| exact C3].
                 apply Forall_app. split.
                 --- repeat constructor; distinct.
                 --- eapply Forall_impl; [| exact F2].
                     intros r Hr. now destruct (spec_error_not_count Hr).
              ** split; [lia |]. intros _. now left.
           ++ destruct c as [cb ca]. cbn [after] in *.
              rewrite (spec_end_directives ca cb).
              assert (exists m1, reported w1 = reported w ++ m1 /\
                                 Forall not_a_count_error m1)
                as (m1 & R1' & F1).
              { destruct R1 as [R1 | R1]; cbn [reported] in R1.
                - exists []. rewrite app_nil_r. auto.
                - exists [err_unterminated]. split; [assumption |].
                  repeat constructor; distinct. }
              exists ((m1 ++ m2) ++ m3).
              split; [rewrite R3, R2, R1'; now rewrite <- !app_assoc |].
              split.
              ** apply counted_extend; [| exact C3].
                 apply Forall_app. split; [exact F1 |].
                 eapply Forall_impl; [| exact F2].
                 apply spec_error_not_count.
              ** now apply complete_extend.
        -- intros w3 (Hx & m3 & R3 & C3). split; [assumption |].
           destruct (deref c =? NUL)%char eqn:E.
           ++ rewrite (spec_end_at_end c E), (directives_at_end c E) in *.
              exists ([err_not_enough; err_unterminated] ++ m2 ++ m3).
              split; [rewrite R3, R2, R1; cbn [reported];
                      now rewrite <- !app_assoc |].
              rewrite app_assoc. apply counted_surplus; [| exact C3].
              apply Forall_app. split.
              ** repeat constructor; distinct.
              ** eapply Forall_impl; [| exact F2].
                 intros r Hr. now destruct (spec_error_not_count Hr).
           ++ destruct c as [cb ca]. cbn [after] in *.
              rewrite (spec_end_directives ca cb).
              assert (exists m1, reported w1 = reported w ++ m1 /\
                                 Forall not_a_count_error m1)
                as (m1 & R1' & F1).
              { destruct R1 as [R1 | R1]; cbn [reported] in R1.
                - exists []. rewrite app_nil_r. auto.
                - exists [err_unterminated]. split; [assumption |].
                  repeat constructor; distinct. }
              exists ((m1 ++ m2) ++ m3).
              split; [rewrite R3, R2, R1'; now rewrite <- !app_assoc |].
              apply counted_extend; [| exact C3].
              apply Forall_app. split; [exact F1 |].
              eapply Forall_impl; [| exact F2].
              apply spec_error_not_count.
      * (* the value dispatcher was left by an exception *)
        intros w2 (Hx & m2 & R2 & F2). split; [assumption |].
        assert (F2' : Forall not_a_count_error m2)
          by (eapply Forall_impl; [| exact F2]; apply spec_error_not_count).
        destruct (deref c =? NUL)%char eqn:E.
        -- exists ([err_not_enough; err_unterminated] ++ m2).
           split; [rewrite R2, R1; cbn [reported];
                   now rewrite <- !app_assoc |].
           split; [| lia]. intros I. exfalso.
           apply in_app_or in I. destruct I as [I | I].
           ++ destruct I as [I | [I | []]]; vm_compute in I; discriminate I.
           ++ destruct (@no_count_error _ _ F2' I) as [N1 N2]. now contradiction N1.
        -- destruct R1 as [R1 | R1]; cbn [reported] in R1.
           ++ exists m2. split; [now rewrite R2, R1 |].
              now apply counted_none.
           ++ exists ([err_unterminated] ++ m2).
              split; [rewrite R2, R1; now rewrite <- !app_assoc |].
              apply counted_none. apply Forall_app. split; [| exact F2'].
              repeat constructor; distinct.
    + (* the directive terminator was left by an exception *)
      intros w1 (Hx & R1). split; [assumption |]. cbn [reported] in R1.
      destruct (deref c =? NUL)%char eqn:E.
      * destruct R1 as [R1 | R1];
          [exists [err_not_enough] | exists [err_not_enough; err_unterminated]];
          (split; [assumption |]); split; try lia; intros I; exfalso;
          repeat (destruct I as [I | I]; try (vm_compute in I; discriminate I));
          contradiction.
      * exists [err_unterminated]. split; [assumption |].
        apply counted_none. repeat constructor; distinct.
Qed.

End Counting.

(* ------------------------------------------------------------------ *)
(** ** The flags of a directive *)

Lemma is_flag_cases a :
  is_flag a = true ->
  a = "#"%char \/ a = "0"%char \/ a = "-"%char \/ a = " "%char \/
  a = "+"%char.
Proof.
  unfold is_flag. intros H.
  repeat (apply orb_prop in H; destruct H as [H | H]);
    apply Ascii.eqb_eq in H; auto 6.
Qed.

Lemma parse_flag_none a o e : is_flag a = false -> parse_flag a o e = None.
Proof.
  unfold is_flag, parse_flag. intros H.
  repeat (apply orb_false_elim in H; destruct H as [H ?]).
  repeat match goal with E : (a =? _)%char = false |- _ =>
    rewrite E; clear E end.
  reflexivity.
Qed.

Lemma flag_step_none s a : is_flag a = false -> flag_step s a = s.
Proof. intros H. unfold flag_step. now rewrite parse_flag_none. Qed.

Lemma parse_flag_some a o e :
  is_flag a = true -> parse_flag a o e = Some (flag_step (o, e) a).
Proof.
  intros H. unfold flag_step. cbn [fst snd].
  destruct (parse_flag a o e) eqn:E; [reflexivity |].
  destruct (is_flag_cases a H) as [-> | [-> | [-> | [-> | ->]]]];
    discriminate E.
Qed.

(** On a run of flags the loop of [parse_flags] is [flag_run]. *)
Lemma parse_flags_run fl : forall o e cb rest,
  forallb is_flag fl = true -> no_flag_ahead rest = true ->
  parse_flags o e cb (fl ++ rest)
  = (flag_run fl (o, e), mkPtr (rev fl ++ cb) rest).
Proof.
  induction fl as [| a fl IH]; intros o e cb rest F R.
  - simpl. destruct rest as [| b rest]; [reflexivity |].
    simpl in R. apply negb_true_iff in R. simpl.
    now rewrite parse_flag_none.
  - simpl in F. apply andb_prop in F. destruct F as [Fa Ffl].
    cbn [app parse_flags]. rewrite (parse_flag_some a o e Fa).
    unfold flag_run. cbn [fold_left].
    destruct (flag_step (o, e) a) as [o1 e1].
    rewrite IH by assumption. unfold flag_run.
    cbn [rev]. now rewrite <- app_assoc.
Qed.

Ltac unfold_steps :=
  unfold flag_step, parse_flag, setf, setf_mask, set_flags, set_fill,
    has_flag; cbn [fst snd flags fill width precision str Ascii.eqb Bool.eqb].

Lemma flag_step_hash o e :
  flag_step (o, e) "#" = (setf (Z.lor ios.showpoint ios.showbase) o, e).
Proof. reflexivity. Qed.

Lemma flag_step_zero o e :
  flag_step (o, e) "0"
  = (if negb (has_flag o ios.left)
     then setf_mask ios.internal ios.adjustfield (set_fill "0" o) else o, e).
Proof. reflexivity. Qed.

Lemma flag_step_minus o e :
  flag_step (o, e) "-"
  = (setf_mask ios.left ios.adjustfield (set_fill " " o), e).
Proof. reflexivity. Qed.

Lemma flag_step_space o e :
  flag_step (o, e) " "
  = (o, if negb (has_flag o ios.showpos)
        then Z.lor e Flag_SpacePadPositive else e).
Proof. reflexivity. Qed.

Lemma flag_step_plus o e :
  flag_step (o, e) "+"
  = (setf ios.showpos o, Z.ldiff e Flag_SpacePadPositive).
Proof. reflexivity. Qed.

(** Tests of one bit after another bit was set. *)
Lemma has_flag_setf o m k :
  Z.land m k = 0%Z -> has_flag (setf m o) k = has_flag o k.
Proof.
  intros H. unfold has_flag, setf. cbn [flags set_flags].
  now rewrite land_setf_other.
Qed.

Lemma has_flag_setf_mask o fl m k :
  Z.land m k = 0%Z -> has_flag (setf_mask fl m o) k = has_flag o k.
Proof.
  intros H. unfold has_flag, setf_mask. cbn [flags set_flags].
  now rewrite land_setf_mask_other.
Qed.

Lemma has_flag_set_fill o c k : has_flag (set_fill c o) k = has_flag o k.
Proof. reflexivity. Qed.

Lemma has_flag_left_set o :
  has_flag (setf_mask ios.left ios.adjustfield o) ios.left = true.
Proof.
  unfold has_flag, setf_mask. cbn [flags set_flags].
  replace (Z.land (Z.lor (Z.ldiff (flags o) ios.adjustfield)
                         (Z.land ios.left ios.adjustfield)) ios.left)
    with ios.left; [reflexivity |].
  symmetry. generalize (flags o). intros f. bits.
Qed.

Lemma has_flag_left_internal o :
  has_flag (setf_mask ios.internal ios.adjustfield o) ios.left = false.
Proof.
  unfold has_flag, setf_mask. cbn [flags set_flags].
  replace (Z.land (Z.lor (Z.ldiff (flags o) ios.adjustfield)
                         (Z.land ios.internal ios.adjustfield)) ios.left)
    with 0%Z; [reflexivity |].
  symmetry. generalize (flags o). intros f. bits.
Qed.

Lemma has_flag_showpos_set o : has_flag (setf ios.showpos o) ios.showpos = true.
Proof.
  unfold has_flag, setf. cbn [flags set_flags].
  replace (Z.land (Z.lor (flags o) ios.showpos) ios.showpos)
    with ios.showpos; [reflexivity |].
  symmetry. generalize (flags o). intros f. bits.
Qed.

Ltac step_equations :=
  repeat first
    [ rewrite flag_step_hash | rewrite flag_step_zero
    | rewrite flag_step_minus | rewrite flag_step_space
    | rewrite flag_step_plus ].

Ltac flag_tests :=
  repeat first
    [ rewrite has_flag_left_set | rewrite has_flag_left_internal
    | rewrite has_flag_showpos_set | rewrite has_flag_set_fill
    | rewrite has_flag_setf by reflexivity
    | rewrite has_flag_setf_mask by reflexivity ].

Ltac mask_eq :=
  try reflexivity;
  repeat match goal with
  | |- context [flags ?o] => generalize (flags o); intro
  end;
  bits.

Ltac state_eq :=
  apply f_equal2;
  [ first [ reflexivity
          | unfold setf, setf_mask, set_flags, set_fill;
            cbn [flags fill width precision str];
            apply f_equal5; try reflexivity; mask_eq ]
  | mask_eq ].

Lemma flag_step_comm_cases (a b : ascii) s :
  is_flag a = true -> is_flag b = true ->
  flag_step (flag_step s a) b = flag_step (flag_step s b) a.
Proof.
  intros Ha Hb. destruct s as [o e].
  destruct (is_flag_cases a Ha) as [-> | [-> | [-> | [-> | ->]]]];
  destruct (is_flag_cases b Hb) as [-> | [-> | [-> | [-> | ->]]]];
  try reflexivity.
  all: step_equations.
  all: repeat match goal with
       | o : ostream |- context [has_flag ?o' ?k] =>
           constr_eq o o'; destruct (has_flag o k) eqn:?
       end; cbn [negb]; step_equations; flag_tests; cbn [negb].
  all: repeat match goal with
       | H : has_flag ?o ?k = _ |- context [has_flag ?o ?k] => rewrite H
       end; cbn [negb].
  all: try reflexivity.
  all: state_eq.
Qed.

Lemma flag_step_comm (a b : ascii) s :
  flag_step (flag_step s a) b = flag_step (flag_step s b) a.
Proof.
  destruct (is_flag a) eqn:Ha.
  - destruct (is_flag b) eqn:Hb.
    + now apply flag_step_comm_cases.
    + now rewrite !(@flag_step_none _ b Hb).
  - now rewrite !(@flag_step_none _ a Ha).
Qed.

Lemma flag_step_idem (a : ascii) s :
  flag_step (flag_step s a) a = flag_step s a.
Proof.
  destruct (is_flag a) eqn:Ha.
  2: { now rewrite !(@flag_step_none _ a Ha). }
  destruct s as [o e].
  destruct (is_flag_cases a Ha) as [-> | [-> | [-> | [-> | ->]]]].
  all: step_equations.
  all: repeat match goal with
       | o : ostream |- context [has_flag ?o' ?k] =>
           constr_eq o o'; destruct (has_flag o k) eqn:?
       end; cbn [negb]; step_equations; flag_tests; cbn [negb].
  all: repeat match goal with
       | H : has_flag ?o ?k = _ |- context [has_flag ?o ?k] => rewrite H
       end; cbn [negb].
  all: try reflexivity.
  all: state_eq.
Qed.

Lemma flag_run_app l1 l2 s : flag_run (l1 ++ l2) s = flag_run l2 (flag_run l1 s).
Proof. apply fold_left_app. Qed.

Lemma flag_run_permutation l1 l2 :
  Permutation l1 l2 -> forall s, flag_run l1 s = flag_run l2 s.
Proof.
  induction 1 as [| x l1 l2 _ IH | x y l | l1 l2 l3 _ IH1 _ IH2]; intros s.
  - reflexivity.
  - apply IH.
  - unfold flag_run. simpl. now rewrite flag_step_comm.
  - now rewrite IH1.
Qed.

(** A flag that comes again later in the run could as well be left out. *)
Lemma flag_run_absorb a l : forall s,
  In a l -> flag_run (a :: l) s = flag_run l s.
Proof.
  induction l as [| b l IH]; intros s I; [contradiction |].
  destruct (ascii_dec b a) as [-> | N].
  - unfold flag_run. simpl. now rewrite flag_step_idem.
  - destruct I as [I | I]; [contradiction |].
    unfold flag_run in *. simpl in *.
    rewrite flag_step_comm. now apply IH.
Qed.

Lemma flag_run_nodup l : forall s,
  flag_run l s = flag_run (nodup ascii_dec l) s.
Proof.
  induction l as [| a l IH]; intros s; [reflexivity |].
  simpl nodup. destruct (in_dec ascii_dec a l) as [I | N].
  - rewrite flag_run_absorb by assumption. apply IH.
  - unfold flag_run in *. simpl. apply IH.
Qed.

(** The state behind a run of flags depends on the set of its characters
    only. *)
Lemma flag_run_same_set l1 l2 s :
  (forall a, In a l1 <-> In a l2) -> flag_run l1 s = flag_run l2 s.
Proof.
  intros H. rewrite (flag_run_nodup l1), (flag_run_nodup l2).
  apply flag_run_permutation. apply NoDup_Permutation.
  - apply NoDup_nodup.
  - apply NoDup_nodup.
  - intros a. rewrite !nodup_In. apply H.
Qed.

(** A flag of the run could as well be given once more at its end. *)
Lemma flag_run_again a l s :
  In a l -> flag_run l s = flag_step (flag_run l s) a.
Proof.
  intros I. change (flag_step (flag_run l s) a) with (flag_run [a] (flag_run l s)).
  rewrite <- flag_run_app. apply flag_run_same_set.
  intros x. rewrite in_app_iff. simpl. intuition congruence.
Qed.

(** Without a minus sign in the run, left alignment is as before. *)
Lemma flag_run_left l : forall s,
  ~ In "-"%char l ->
  has_flag (fst (flag_run l s)) ios.left = has_flag (fst s) ios.left.
Proof.
  induction l as [| a l IH]; intros s N; [reflexivity |].
  unfold flag_run in *. simpl. rewrite IH by (intros I; apply N; now right).
  destruct (is_flag a) eqn:Ha; [| now rewrite flag_step_none].
  destruct s as [o e].
  destruct (is_flag_cases a Ha) as [-> | [-> | [-> | [-> | ->]]]];
    step_equations; cbn [fst]; flag_tests; try reflexivity.
  - destruct (has_flag o ios.left) eqn:E; cbn [negb]; flag_tests; auto.
  - contradiction N. now left.
Qed.

(** Without a plus sign in the run, the explicit sign is as before. *)
Lemma flag_run_showpos l : forall s,
  ~ In "+"%char l ->
  has_flag (fst (flag_run l s)) ios.showpos = has_flag (fst s) ios.showpos.
Proof.
  induction l as [| a l IH]; intros s N; [reflexivity |].
  unfold flag_run in *. simpl. rewrite IH by (intros I; apply N; now right).
  destruct (is_flag a) eqn:Ha; [| now rewrite flag_step_none].
  destruct s as [o e].
  destruct (is_flag_cases a Ha) as [-> | [-> | [-> | [-> | ->]]]];
    step_equations; cbn [fst]; flag_tests; try reflexivity.
  - destruct (has_flag o ios.left) eqn:E; cbn [negb]; flag_tests; auto.
  - contradiction N. now left.
Qed.

Lemma has_extra_set e :
  has_extra (Z.lor e Flag_SpacePadPositive) Flag_SpacePadPositive = true.
Proof.
  unfold has_extra.
  replace (Z.land (Z.lor e Flag_SpacePadPositive) Flag_SpacePadPositive)
    with Flag_SpacePadPositive; [reflexivity |].
  symmetry. bits.
Qed.

Lemma has_extra_cleared e :
  has_extra (Z.ldiff e Flag_SpacePadPositive) Flag_SpacePadPositive = false.
Proof.
  unfold has_extra.
  replace (Z.land (Z.ldiff e Flag_SpacePadPositive) Flag_SpacePadPositive)
    with 0%Z; [reflexivity |].
  symmetry. bits.
Qed.

(** A space among the flags and no plus sign: the extra flag is set. *)
Lemma flag_run_space l o e :
  In " "%char l -> ~ In "+"%char l -> has_flag o ios.showpos = false ->
  has_extra (snd (flag_run l (o, e))) Flag_SpacePadPositive = true.
Proof.
  intros I N P.
  rewrite (@flag_run_again " " l (o, e) I).
  pose proof (@flag_run_showpos l (o, e) N) as S. cbn [fst] in S.
  destruct (flag_run l (o, e)) as [o' e']. cbn [fst] in S.
  rewrite flag_step_space. cbn [snd]. rewrite S, P. cbn [negb].
  apply has_extra_set.
Qed.

Lemma adjustfield_left f :
  Z.land (Z.lor (Z.ldiff f ios.adjustfield) (Z.land ios.left ios.adjustfield))
         ios.adjustfield = ios.left.
Proof. bits. Qed.

Lemma adjustfield_internal f :
  Z.land (Z.lor (Z.ldiff f ios.adjustfield)
                (Z.land ios.internal ios.adjustfield))
         ios.adjustfield = ios.internal.
Proof. bits. Qed.

(** C8.  Parsing the flags is idempotent and independent of their order:
    two runs of flag characters with the same set of characters, in any
    order and with any repetitions, leave the same stream and the same
    extra flags, and the cursor behind the run.  A zero has no effect
    under left alignment; with a minus sign in the run the fill is a space
    and the alignment left, zero or no zero; with a plus sign the explicit
    sign is on and space padding off, space or no space; a space alone
    turns space padding on. *)
Theorem C8_flags_order_independent (fl1 fl2 rest cb : list ascii)
    (o : ostream) (e : Z) :
  forallb is_flag fl1 = true -> forallb is_flag fl2 = true ->
  (forall a, In a fl1 <-> In a fl2) ->
  no_flag_ahead rest = true ->
  fst (parse_flags o e cb (fl1 ++ rest))
  = fst (parse_flags o e cb (fl2 ++ rest)) /\
  after (snd (parse_flags o e cb (fl1 ++ rest))) = rest /\
  after (snd (parse_flags o e cb (fl2 ++ rest))) = rest /\
  (has_flag o ios.left = true -> flag_step (o, e) "0" = (o, e)) /\
  (In "-"%char fl1 ->
   fill (fst (fst (parse_flags o e cb (fl1 ++ rest)))) = " "%char /\
   Z.land (flags (fst (fst (parse_flags o e cb (fl1 ++ rest)))))
          ios.adjustfield = ios.left) /\
  (In "0"%char fl1 -> ~ In "-"%char fl1 -> has_flag o ios.left = false ->
   fill (fst (fst (parse_flags o e cb (fl1 ++ rest)))) = "0"%char /\
   Z.land (flags (fst (fst (parse_flags o e cb (fl1 ++ rest)))))
          ios.adjustfield = ios.internal) /\
  (In "+"%char fl1 ->
   has_flag (fst (fst (parse_flags o e cb (fl1 ++ rest)))) ios.showpos
   = true /\
   has_extra (snd (fst (parse_flags o e cb (fl1 ++ rest))))
             Flag_SpacePadPositive = false) /\
  (In " "%char fl1 -> ~ In "+"%char fl1 -> has_flag o ios.showpos = false ->
   has_extra (snd (fst (parse_flags o e cb (fl1 ++ rest))))
             Flag_SpacePadPositive = true).
Proof.
  intros F1 F2 Same R.
  rewrite (parse_flags_run fl1 o e cb rest F1 R).
  rewrite (parse_flags_run fl2 o e cb rest F2 R).
  cbn [fst snd after].
  split; [now rewrite (@flag_run_same_set fl1 fl2 (o, e) Same) |].
  split; [reflexivity |]. split; [reflexivity |].
  split; [intros L; rewrite flag_step_zero, L; reflexivity |].
  split; [| split; [| split]].
  - intros I. rewrite (@flag_run_again "-" fl1 (o, e) I).
    destruct (flag_run fl1 (o, e)) as [o' e'].
    rewrite flag_step_minus. cbn [fst]. split; [reflexivity |].
    apply adjustfield_left.
  - intros I N L. rewrite (@flag_run_again "0" fl1 (o, e) I).
    pose proof (@flag_run_left fl1 (o, e) N) as S. cbn [fst] in S.
    destruct (flag_run fl1 (o, e)) as [o' e']. cbn [fst] in S.
    rewrite flag_step_zero, S, L. cbn [fst negb]. split; [reflexivity |].
    apply adjustfield_internal.
  - intros I. rewrite (@flag_run_again "+" fl1 (o, e) I).
    destruct (flag_run fl1 (o, e)) as [o' e'].
    rewrite flag_step_plus. cbn [fst snd].
    split; [apply has_flag_showpos_set | apply has_extra_cleared].
  - intros I N P. now apply flag_run_space.
Qed.

Lemma C8_witness :
  fst (parse_flags ostringstream 0 ["%"%char] (chars "0-+ " ++ chars "8d"))
  = fst (parse_flags ostringstream 0 ["%"%char]
           (chars " +-0-0" ++ chars "8d")).
Proof.
  apply (@C8_flags_order_independent (chars "0-+ ") (chars " +-0-0")
           (chars "8d") ["%"%char] ostringstream 0);
    try reflexivity.
  intros a. simpl. tauto.
Defined.

(* ------------------------------------------------------------------ *)
(** ** Space padding of positive numbers *)


Lemma reset_no_left o : has_flag (reset o) ios.left = false.
Proof.
  unfold has_flag, reset, unsetf. cbn [flags set_flags].
  rewrite land_ldiff_inside; reflexivity.
Qed.

Lemma has_extra_nonzero e k : has_extra e k = true -> (e =? 0)%Z = false.
Proof.
  unfold has_extra. intros H. destruct (e =? 0)%Z eqn:E; [| reflexivity].
  apply Z.eqb_eq in E. subst e. discriminate H.
Qed.







(* ------------------------------------------------------------------ *)
(** ** Directives of the documented form *)

Lemma letter_facts a :
  is_letter a = true ->
  is_digit a = false /\ is_flag a = false /\ (a =? "*")%char = false /\
  (a =? "-")%char = false /\ (a =? ".")%char = false /\
  (a =? NUL)%char = false.
Proof.
  destruct a as [[] [] [] [] [] [] [] []]; vm_compute; intuition congruence.
Qed.

Lemma length_modifier_letter a :
  is_length_modifier a = true -> is_letter a = true.
Proof.
  destruct a as [[] [] [] [] [] [] [] []]; vm_compute; congruence.
Qed.

Lemma digit_facts a :
  is_digit a = true ->
  is_letter a = false /\ (a =? "*")%char = false /\
  (a =? ".")%char = false /\ (a =? NUL)%char = false.
Proof.
  destruct a as [[] [] [] [] [] [] [] []]; vm_compute; intuition congruence.
Qed.

Lemma flag_facts a :
  is_flag a = true -> is_letter a = false /\ (a =? NUL)%char = false.
Proof.
  destruct a as [[] [] [] [] [] [] [] []]; vm_compute; intuition congruence.
Qed.

Lemma letter_ahead_tail lm conv post :
  forallb is_length_modifier lm = true -> terminates conv = true ->
  letter_ahead (lm ++ conv :: post) = true.
Proof.
  intros L T. destruct lm as [| a lm]; simpl.
  - unfold terminates in T. now apply andb_prop in T.
  - simpl in L. apply andb_prop in L. now apply length_modifier_letter.
Qed.

Lemma parseInt_loop_digits ds : forall i cb rest,
  forallb is_digit ds = true -> letter_ahead rest = true \/
                                 rest = [] \/ (exists x r, rest = x :: r /\ is_digit x = false) ->
  parseInt_loop i cb (ds ++ rest)
  = (fold_left (fun i a => to_int (10 * i + (code a - code "0"))) ds i,
     mkPtr (rev ds ++ cb) rest).
Proof.
  induction ds as [| d ds IH]; intros i cb rest D R.
  - cbn [app fold_left rev]. destruct rest as [| x r]; [reflexivity |].
    cbn [parseInt_loop].
    assert (is_digit x = false) as ->; [| reflexivity].
    destruct R as [R | [R | (x' & r' & E & R)]].
    + simpl in R. now apply letter_facts in R.
    + discriminate R.
    + now injection E as -> ->.
  - simpl in D. apply andb_prop in D. destruct D as [Dd Dds].
    cbn [app parseInt_loop]. rewrite Dd. rewrite IH by assumption.
    cbn [fold_left rev]. now rewrite <- app_assoc.
Qed.

Lemma skip_length_loop_run lm : forall cb conv post,
  forallb is_length_modifier lm = true -> is_length_modifier conv = false ->
  skip_length_loop cb (lm ++ conv :: post)
  = mkPtr (rev lm ++ cb) (conv :: post).
Proof.
  induction lm as [| a lm IH]; intros cb conv post L C.
  - simpl. now rewrite C.
  - simpl in L. apply andb_prop in L. destruct L as [La Llm].
    cbn [app skip_length_loop]. rewrite La, IH by assumption.
    cbn [rev]. now rewrite <- app_assoc.
Qed.

Section Exact.

Variable cfg : config.

(** Width: digits in front of a dot or a letter. *)
Lemma parse_width_exact wd cb rest w :
  forallb is_digit wd = true ->
  (letter_ahead rest = true \/ exists r, rest = "."%char :: r) ->
  parse_width cfg (mkPtr cb (wd ++ rest)) w
  = (Done (negb (match wd with [] => true | _ => false end),
           mkPtr (rev wd ++ cb) rest),
     mkWorld (match wd with
              | [] => out w
              | _ :: _ => set_width (int_value wd) (out w)
              end) (reported w)).
Proof.
  intros D R.
  assert (Hrest : (deref (mkPtr (rev wd ++ cb) rest) =? "*")%char = false
                  /\ is_digit (deref (mkPtr (rev wd ++ cb) rest)) = false).
  { unfold deref. cbn [after]. destruct R as [R | (r & ->)].
    - destruct rest as [| x r]; [discriminate R |]. simpl in R.
      apply letter_facts in R. tauto.
    - split; reflexivity. }
  destruct Hrest as [Hstar Hdig].
  unfold parse_width. destruct wd as [| d wd].
  - cbn [app rev] in *. rewrite Hdig.
    unfold bind, ret. rewrite Hstar. destruct w; reflexivity.
  - simpl in D. apply andb_prop in D. destruct D as [Dd Dds].
    unfold deref at 1. cbn [after app]. rewrite Dd.
    unfold parseIntAndAdvance. cbn [before after].
    change (d :: wd ++ rest) with ((d :: wd) ++ rest).
    rewrite parseInt_loop_digits.
    + unfold bind, update, ret. cbn [out reported]. rewrite Hstar.
      reflexivity.
    + simpl. now rewrite Dd.
    + destruct R as [R | (r & ->)]; [now left |].
      right. right. exists "."%char, r. auto.
Qed.

(** Precision: a dot and digits in front of a letter. *)
Lemma parse_precision_exact ds cb rest w :
  forallb is_digit ds = true -> letter_ahead rest = true ->
  parse_precision cfg (mkPtr cb ("."%char :: ds ++ rest)) w
  = (Done (true, mkPtr (rev ds ++ "."%char :: cb) rest),
     mkWorld (set_precision (int_value ds) (out w)) (reported w)).
Proof.
  intros D R. unfold parse_precision.
  unfold deref at 1. cbn [after]. cbn [Ascii.eqb Bool.eqb andb].
  unfold next. cbn [after before].
  destruct ds as [| d ds].
  - cbn [app rev]. destruct rest as [| x r]; [discriminate R |].
    simpl in R. apply letter_facts in R.
    destruct R as (R1 & _ & R2 & R3 & _).
    unfold deref. cbn [after]. rewrite R1, R2, R3.
    unfold bind, update, ret. reflexivity.
  - simpl in D. apply andb_prop in D. destruct D as [Dd Dds].
    destruct (digit_facts d Dd) as (_ & S & _).
    unfold deref. cbn [after app]. rewrite S, Dd.
    unfold parseIntAndAdvance. cbn [before after].
    change (d :: ds ++ rest) with ((d :: ds) ++ rest).
    rewrite parseInt_loop_digits.
    + unfold bind, update, ret. reflexivity.
    + simpl. now rewrite Dd.
    + now left.
Qed.

(** No precision: a letter straight away. *)
Lemma parse_precision_none cb rest w :
  letter_ahead rest = true ->
  parse_precision cfg (mkPtr cb rest) w = (Done (false, mkPtr cb rest), w).
Proof.
  intros R. unfold parse_precision, deref. cbn [after].
  destruct rest as [| x r]; [discriminate R |]. simpl in R.
  apply letter_facts in R. destruct R as (_ & _ & _ & _ & R & _).
  now rewrite R.
Qed.

Lemma well_formed_parts fl wd prec lm conv :
  well_formed fl wd prec lm conv = true ->
  forallb is_flag fl = true /\ forallb is_digit wd = true /\
  no_flag_ahead wd = true /\
  match prec with Some ds => forallb is_digit ds = true | None => True end /\
  forallb is_length_modifier lm = true /\ terminates conv = true.
Proof.
  unfold well_formed. intros H.
  repeat (apply andb_prop in H; destruct H as [H ?]).
  repeat split; auto. destruct prec; auto.
Qed.

Lemma directive_text_advances fl wd prec lm conv :
  well_formed fl wd prec lm conv = true ->
  exists body, directive_text fl wd prec lm conv = body ++ [conv] /\
               forallb passes body = true.
Proof.
  intros H. apply well_formed_parts in H.
  destruct H as (F & W & _ & P & L & _).
  exists (fl ++ wd ++ match prec with Some ds => "."%char :: ds | None => [] end
             ++ lm).
  split; [unfold directive_text; now rewrite <- !app_assoc |].
  assert (A : forall l (p : ascii -> bool),
             (forall a, p a = true -> advances a = true) ->
             forallb p l = true -> forallb passes l = true).
  { intros l p Hp Hl. rewrite forallb_forall in *. intros a Ha.
    apply advances_passes. auto. }
  rewrite !forallb_app. repeat (apply andb_true_intro; split).
  - apply (A fl is_flag); auto using advances_flag.
  - apply (A wd is_digit); auto using advances_digit.
  - destruct prec as [ds |]; [| reflexivity].
    simpl. apply (A ds is_digit); auto using advances_digit.
  - apply (A lm is_length_modifier); auto using advances_length.
Qed.

Lemma spec_end_well_formed fl wd prec lm conv cb post :
  well_formed fl wd prec lm conv = true ->
  spec_end (mkPtr cb (directive_text fl wd prec lm conv ++ post))
  = mkPtr (rev (directive_text fl wd prec lm conv) ++ cb) post.
Proof.
  intros H. destruct (directive_text_advances fl wd prec lm conv H)
    as (body & -> & B).
  apply well_formed_parts in H. destruct H as (_ & _ & _ & _ & _ & T).
  unfold spec_end. cbn [before after]. rewrite <- app_assoc.
  rewrite spec_end_loop_passes by assumption.
  cbn [app]. rewrite spec_end_loop_terminates by assumption.
  rewrite rev_app_distr. reflexivity.
Qed.

Lemma streamStateFromFormat_well_formed fl wd prec lm conv cb post w :
  well_formed fl wd prec lm conv = true ->
  streamStateFromFormat cfg
    (mkPtr cb (directive_text fl wd prec lm conv ++ post))
    (mkPtr (rev (directive_text fl wd prec lm conv) ++ cb) post) w
  = (r <- set_conversion cfg conv
            (match prec with Some _ => true | None => false end)
            (snd (flag_run fl (reset (out w), 0%Z))) ;;
     integer_precision_fixup (fst r)
       (match prec with Some _ => true | None => false end)
       (negb (match wd with [] => true | _ => false end)) ;;
     ret (snd r))
    (mkWorld (parsed_stream fl wd prec (out w)) (reported w)).
Proof.
  intros H. apply well_formed_parts in H.
  destruct H as (F & W & NF & P & L & T).
  assert (LA : letter_ahead (lm ++ conv :: post) = true)
    by now apply letter_ahead_tail.
  assert (LA1 : letter_ahead (match prec with
                              | Some ds => "."%char :: ds
                              | None => []
                              end ++ lm ++ conv :: post) = true \/
                exists r, match prec with
                          | Some ds => "."%char :: ds
                          | None => []
                          end ++ lm ++ conv :: post = "."%char :: r).
  { destruct prec as [ds |]; [right; eexists; reflexivity | now left]. }
  assert (NF1 : no_flag_ahead
                  (wd ++ match prec with
                         | Some ds => "."%char :: ds
                         | None => []
                         end ++ lm ++ conv :: post) = true).
  { destruct wd as [| d wd]; [| exact NF]. cbn [app].
    destruct prec as [ds |]; [reflexivity |]. cbn [app].
    destruct (lm ++ conv :: post) as [| x r]; [reflexivity |].
    simpl in LA |- *. apply letter_facts in LA.
    destruct LA as (_ & -> & _). reflexivity. }
  assert (Hoff : offset (mkPtr (rev (directive_text fl wd prec lm conv) ++ cb)
                           post)
                 = (List.length (fl ++ wd ++ match prec with
                                              | Some ds => "."%char :: ds
                                              | None => []
                                              end ++ lm)
                    + 1 + List.length cb)%nat).
  { unfold offset, directive_text. cbn [before].
    rewrite !length_app, length_rev, !length_app. cbn [List.length]. lia. }
  remember (mkPtr (rev (directive_text fl wd prec lm conv) ++ cb) post)
    as fmtEnd eqn:EfmtEnd. clear EfmtEnd.
  unfold streamStateFromFormat, reset_stream_state.
  unfold bind at 1 2 3 4 5 6. unfold update at 1 2 3 4.
  unfold get_out, set_out. cbn [out reported before after].
  change (unsetf reset_mask
            (set_fill " " (set_precision 6 (set_width 0 (out w)))))
    with (reset (out w)).
  unfold directive_text, parsed_stream. rewrite <- !app_assoc.
  change ([conv] ++ post) with (conv :: post).
  rewrite parse_flags_run by assumption.
  destruct (flag_run fl (reset (out w), 0%Z)) as [o1 e1]. cbn [fst snd].
  (* width *)
  unfold bind at 1. rewrite parse_width_exact by assumption.
  cbn [out reported].
  (* precision *)
  unfold bind at 1.
  assert (Hprec :
    parse_precision cfg
      (mkPtr (rev wd ++ rev fl ++ cb)
         (match prec with Some ds => "."%char :: ds | None => [] end
          ++ lm ++ conv :: post))
      (mkWorld match wd with
               | [] => o1
               | _ :: _ => set_width (int_value wd) o1
               end (reported w))
    = (Done (match prec with Some _ => true | None => false end,
             mkPtr (rev (match prec with
                         | Some ds => "."%char :: ds
                         | None => []
                         end) ++ rev wd ++ rev fl ++ cb)
                   (lm ++ conv :: post)),
       mkWorld (match prec with
                | Some ds =>
                    set_precision (int_value ds)
                      match wd with
                      | [] => o1
                      | _ :: _ => set_width (int_value wd) o1
                      end
                | None => match wd with
                          | [] => o1
                          | _ :: _ => set_width (int_value wd) o1
                          end
                end) (reported w))).
  { destruct prec as [ds |].
    - cbn [app]. rewrite parse_precision_exact by assumption.
      cbn [out reported rev]. now rewrite <- app_assoc.
    - cbn [app]. now rewrite parse_precision_none. }
  rewrite Hprec. clear Hprec. cbn [out reported].
  (* length modifiers and conversion character *)
  assert (Tc : is_length_modifier conv = false).
  { unfold terminates in T. apply andb_prop in T. destruct T as [_ T].
    now apply negb_true_iff in T. }
  unfold skip_length_modifiers. cbn [before after].
  rewrite skip_length_loop_run by assumption.
  assert (Hlt : ptr_lt
                  (mkPtr (rev lm ++ rev (match prec with
                                         | Some ds => "."%char :: ds
                                         | None => []
                                         end) ++ rev wd ++ rev fl ++ cb)
                         (conv :: post)) fmtEnd = true).
  { unfold ptr_lt. apply Nat.ltb_lt. rewrite Hoff. unfold offset.
    cbn [before]. rewrite !length_app, !length_rev. lia. }
  assert (Hle : ptr_le
                  (mkPtr (rev lm ++ rev (match prec with
                                         | Some ds => "."%char :: ds
                                         | None => []
                                         end) ++ rev wd ++ rev fl ++ cb)
                         (conv :: post)) fmtEnd = true).
  { unfold ptr_le. apply Nat.leb_le. unfold ptr_lt in Hlt.
    apply Nat.ltb_lt in Hlt. lia. }
  rewrite Hlt, Hle. unfold deref. cbn [after].
  unfold bind.
  destruct (set_conversion cfg conv
              match prec with Some _ => true | None => false end e1 _)
    as [[[ic ef] | r |] w1]; reflexivity.
Qed.

End Exact.

(* ------------------------------------------------------------------ *)
(** ** Precision of integer conversions *)

Lemma is_int_conversion_cases t :
  is_int_conversion t = true ->
  t = "u"%char \/ t = "d"%char \/ t = "i"%char \/ t = "o"%char \/
  t = "X"%char \/ t = "x"%char \/ t = "p"%char.
Proof.
  unfold is_int_conversion. intros H.
  repeat (apply orb_prop in H; destruct H as [H | H]);
    apply Ascii.eqb_eq in H; auto 8.
Qed.

Lemma int_conversion_terminates t :
  is_int_conversion t = true -> terminates t = true.
Proof.
  intros H.
  destruct (is_int_conversion_cases t H)
    as [-> | [-> | [-> | [-> | [-> | [-> | ->]]]]]]; reflexivity.
Qed.

Lemma flag_step_frame a o e o1 e1 :
  flag_step (o, e) a = (o1, e1) ->
  str o1 = str o /\ width o1 = width o /\ precision o1 = precision o /\
  (good_fill o -> good_fill o1).
Proof.
  unfold flag_step. cbn [fst snd].
  destruct (parse_flag a o e) as [[o2 e2] |] eqn:E; intros H.
  - injection H as -> ->.
    destruct (parse_flag_frame a o e E) as (A1 & B1 & C1 & D1 & _). auto.
  - injection H as -> ->. auto.
Qed.

Lemma flag_run_frame fl : forall o e,
  str (fst (flag_run fl (o, e))) = str o /\
  width (fst (flag_run fl (o, e))) = width o /\
  precision (fst (flag_run fl (o, e))) = precision o /\
  (good_fill o -> good_fill (fst (flag_run fl (o, e)))).
Proof.
  induction fl as [| a fl IH]; intros o e; [simpl; tauto |].
  unfold flag_run in *. cbn [fold_left].
  destruct (flag_step (o, e) a) as [o1 e1] eqn:E.
  destruct (flag_step_frame a o e E) as (A1 & B1 & C1 & D1).
  destruct (IH o1 e1) as (A & B & C & D).
  rewrite A, B, C. repeat split; auto.
Qed.

(** C5.  When the conversion character is one of the integer conversions,
    the directive gives a precision and gives no width, the stream is
    left with its width equal to the precision, internal alignment and
    the fill character 0.  So 7 prints as 0007 under a precision of 4. *)
Theorem C5_integer_precision_as_width cfg (cb fl ds lm post : list ascii)
    (conv : ascii) (w : world) :
  forallb is_flag fl = true -> forallb is_digit ds = true ->
  forallb is_length_modifier lm = true -> is_int_conversion conv = true ->
  (exists extraFlags w',
     streamStateFromFormat cfg
       (mkPtr cb (directive_text fl [] (Some ds) lm conv ++ post))
       (spec_end (mkPtr cb (directive_text fl [] (Some ds) lm conv ++ post)))
       w
     = (Done extraFlags, w') /\
     precision (out w') = int_value ds /\
     width (out w') = precision (out w') /\
     Z.land (flags (out w')) ios.adjustfield = ios.internal /\
     fill (out w') = "0"%char /\
     reported w' = reported w) /\
  format_string cfg "%.4d" [int 7] = (Done "0007"%string, []) /\
  format_string cfg "%.3x|%.-3d" [int 10; int 7] = (Done "00a|7"%string, []).
Proof.
  intros F D L C. split; [| split; reflexivity].
  assert (WF : well_formed fl [] (Some ds) lm conv = true).
  { unfold well_formed. rewrite F, D, L, (int_conversion_terminates conv C).
    reflexivity. }
  rewrite (spec_end_well_formed fl [] (Some ds) lm conv cb post WF).
  rewrite (streamStateFromFormat_well_formed cfg fl [] (Some ds) lm conv cb
             post w WF).
  destruct (is_int_conversion_cases conv C)
    as [-> | [-> | [-> | [-> | [-> | [-> | ->]]]]]];
    (eexists; eexists; split; [reflexivity |]);
    cbn [out reported precision width fill flags parsed_stream
         set_fill set_flags set_width set_precision setf_mask setf];
    (repeat split; try reflexivity); apply adjustfield_internal.
Qed.

Lemma C5_witness :
  exists extraFlags w',
    streamStateFromFormat default_build
      (mkPtr ["%"%char]
         (directive_text (chars "+") [] (Some (chars "12")) (chars "ll")
            "x" ++ chars " units"))
      (spec_end
         (mkPtr ["%"%char]
            (directive_text (chars "+") [] (Some (chars "12")) (chars "ll")
               "x" ++ chars " units")))
      (mkWorld ostringstream [])
    = (Done extraFlags, w') /\
    precision (out w') = 12%Z /\ width (out w') = precision (out w').
Proof.
  destruct (@C5_integer_precision_as_width default_build ["%"%char]
              (chars "+") (chars "12") (chars "ll") (chars " units") "x"
              (mkWorld ostringstream []) eq_refl eq_refl eq_refl eq_refl)
    as [(extraFlags & w' & E & P & W & _) _].
  exists extraFlags, w'. auto.
Defined.

(* ------------------------------------------------------------------ *)
(** ** Truncation to the precision *)

Lemma to_int_range z : (- 2 ^ 31 <= to_int z < 2 ^ 31)%Z.
Proof.
  unfold to_int.
  pose proof (Z.mod_pos_bound (z + 2 ^ 31) (2 ^ 32) eq_refl). lia.
Qed.

Lemma to_int_id z : (- 2 ^ 31 <= z < 2 ^ 31)%Z -> to_int z = z.
Proof.
  intros H. unfold to_int. rewrite Z.mod_small; lia.
Qed.

Lemma int_value_range ds : (- 2 ^ 31 <= int_value ds < 2 ^ 31)%Z.
Proof.
  unfold int_value.
  assert (H : forall l i, (- 2 ^ 31 <= i < 2 ^ 31)%Z ->
            (- 2 ^ 31
             <= fold_left (fun i a => to_int (10 * i + (code a - code "0")))
                  l i
             < 2 ^ 31)%Z).
  { induction l as [| a l IH]; intros i Hi; [exact Hi |].
    cbn [fold_left]. apply IH. apply to_int_range. }
  apply H. lia.
Qed.

(** The characters [formatCStringTruncate] writes: the first [truncLen]
    characters of the C string, or all of it if it is shorter. *)
Lemma truncate_len_spec truncLen s : forall len,
  (len <= truncate_len len truncLen s)%Z /\
  firstn (Z.to_nat (truncate_len len truncLen s - len)) s
  = firstn (Z.to_nat (truncLen - len)) (until_nul s).
Proof.
  induction s as [| a s IH]; intros len.
  - simpl. split; [lia |]. now rewrite !firstn_nil.
  - cbn [truncate_len until_nul].
    destruct (len <? truncLen)%Z eqn:E; cbn [andb].
    + apply Z.ltb_lt in E. destruct (a =? NUL)%char; cbn [negb].
      * split; [lia |]. rewrite Z.sub_diag, firstn_nil. reflexivity.
      * destruct (IH (len + 1)%Z) as [H1 H2]. split; [lia |].
        replace (Z.to_nat (truncate_len (len + 1) truncLen s - len))
          with (S (Z.to_nat (truncate_len (len + 1) truncLen s - (len + 1))))
          by lia.
        replace (Z.to_nat (truncLen - len))
          with (S (Z.to_nat (truncLen - (len + 1)))) by lia.
        cbn [firstn]. now rewrite H2.
    + apply Z.ltb_ge in E. split; [lia |].
      rewrite Z.sub_diag. 
      replace (Z.to_nat (truncLen - len)) with 0%nat by lia.
      reflexivity.
Qed.

Lemma buffered_c_string cfg extraFlags o fmtBegin fmtEnd addr s :
  has_extra extraFlags Flag_TruncateToPrecision = true ->
  buffered cfg extraFlags o fmtBegin fmtEnd (c_string addr s)
  = firstn (Z.to_nat (precision o)) (until_nul s).
Proof.
  intros H. unfold buffered. rewrite H. cbn [formatCStringTruncate].
  destruct (truncate_len_spec (precision o) s 0) as [_ T].
  rewrite !Z.sub_0_r in T.
  destruct (has_extra extraFlags Flag_SpacePadPositive);
    unfold write, put, setf, set_flags, copyfmt, ostringstream;
    cbn [str app precision]; exact T.
Qed.

Lemma length_plus_to_space r :
  List.length (plus_to_space r) = List.length r.
Proof. apply length_map. Qed.

(** With truncation on, at most as many characters get to the real stream
    as the larger of precision and width. *)
Lemma munge_bound extraFlags r o :
  has_extra extraFlags Flag_TruncateToPrecision = true ->
  (- 2 ^ 31 <= precision o < 2 ^ 31)%Z ->
  (Z.of_nat (List.length r) < 2 ^ 31)%Z ->
  exists t, str (munge extraFlags r o) = str o ++ t /\
            (Z.of_nat (List.length t)
             <= Z.max 0 (Z.max (precision o) (width o)))%Z.
Proof.
  intros H P R. unfold munge. rewrite H. cbn [andb].
  set (r' := if has_extra extraFlags Flag_SpacePadPositive
             then plus_to_space r else r).
  assert (Lr : List.length r' = List.length r).
  { unfold r'. destruct (has_extra extraFlags Flag_SpacePadPositive);
      [apply length_plus_to_space | reflexivity]. }
  rewrite Lr, (to_int_id P), to_int_id by lia.
  destruct (Z.of_nat (List.length r) >? precision o)%Z eqn:E.
  - eexists. split; [reflexivity |].
    rewrite length_firstn. lia.
  - assert (Z.of_nat (List.length r) <= precision o)%Z
      by (destruct (Z.gtb_spec (Z.of_nat (List.length r)) (precision o));
          [discriminate | lia]).
    unfold insert_text, padding.
    destruct (Z.land (flags o) ios.adjustfield =? ios.left)%Z;
      (eexists; split; [reflexivity |]);
      rewrite length_app, repeat_length, Lr; lia.
Qed.

Lemma has_extra_truncate_set e :
  has_extra (Z.lor e Flag_TruncateToPrecision) Flag_TruncateToPrecision
  = true.
Proof.
  unfold has_extra.
  replace (Z.land (Z.lor e Flag_TruncateToPrecision) Flag_TruncateToPrecision)
    with Flag_TruncateToPrecision; [reflexivity |].
  symmetry. bits.
Qed.

(** C6, as far as it holds.  Under an s conversion with a precision the
    text written to the real stream has at most as many characters as the
    larger of the precision and the field width, hence at most as many as
    the precision when no width is given.  Of a C string at most
    precision-many characters are read, and written to the buffer
    directly; any other buffered text longer than the precision is cut to
    its first precision-many characters.  Under a precision of 3, hello
    prints as hel. *)
Theorem C6_truncation_to_precision cfg (cb fl wd ds lm post : list ascii)
    (v : value) (w : world) :
  forallb is_flag fl = true -> forallb is_digit wd = true ->
  no_flag_ahead wd = true -> forallb is_digit ds = true ->
  forallb is_length_modifier lm = true -> short_rendering cfg v ->
  (exists w' t,
     formatValueBasic cfg
       (mkPtr cb (directive_text fl wd (Some ds) lm "s" ++ post))
       (spec_end (mkPtr cb (directive_text fl wd (Some ds) lm "s" ++ post)))
       v w
     = (Done tt, w') /\
     reported w' = reported w /\
     str (out w') = str (out w) ++ t /\
     (Z.of_nat (List.length t)
      <= Z.max 0 (Z.max (int_value ds) (int_value wd)))%Z) /\
  (forall extraFlags o fmtBegin fmtEnd addr s,
     has_extra extraFlags Flag_TruncateToPrecision = true ->
     buffered cfg extraFlags o fmtBegin fmtEnd (c_string addr s)
     = firstn (Z.to_nat (precision o)) (until_nul s)) /\
  (forall extraFlags result o,
     has_extra extraFlags Flag_TruncateToPrecision = true ->
     has_extra extraFlags Flag_SpacePadPositive = false ->
     (to_int (Z.of_nat (List.length result)) > to_int (precision o))%Z ->
     munge extraFlags result o = write result (precision o) o) /\
  format_string cfg "%.3s" [c_string 4096 (chars "hello")]
  = (Done "hel"%string, []) /\
  format_string cfg "%.3s" [std_string "hello"] = (Done "hel"%string, []) /\
  format_string cfg "%5.3s" [c_string 4096 (chars "hello")]
  = (Done "  hel"%string, []).
Proof.
  intros F W NF D L SR.
  split; [| split; [| split; [| repeat split]]].
  - assert (WF : well_formed fl wd (Some ds) lm "s" = true).
    { unfold well_formed. rewrite F, W, NF, D, L. reflexivity. }
    rewrite (spec_end_well_formed fl wd (Some ds) lm "s" cb post WF).
    unfold formatValueBasic. unfold bind at 1. unfold get_out at 1.
    unfold bind at 1.
    rewrite (streamStateFromFormat_well_formed cfg fl wd (Some ds) lm "s" cb
               post w WF).
    set (e1 := snd (flag_run fl (reset (out w), 0%Z))).
    set (o3 := parsed_stream fl wd (Some ds) (out w)).
    assert (S3 : str o3 = str (out w) /\ precision o3 = int_value ds /\
                 width o3 = int_value wd).
    { unfold o3, parsed_stream.
      destruct (flag_run_frame fl (reset (out w)) 0%Z) as (A & B & _).
      destruct wd as [| d wd']; cbn [str precision width set_precision
                                      set_width];
        rewrite ?A, ?B; repeat split; reflexivity. }
    destruct S3 as (S3 & P3 & W3).
    change ((r <- set_conversion cfg "s" true e1 ;;
             integer_precision_fixup (fst r) true
               (negb match wd with [] => true | _ :: _ => false end) ;;
             ret (snd r)) (mkWorld o3 (reported w)))
      with (Done (Z.lor e1 Flag_TruncateToPrecision),
            mkWorld o3 (reported w)).
    cbn iota.
    pose proof (has_extra_truncate_set e1) as T.
    rewrite (has_extra_nonzero _ _ T).
    set (ef := Z.lor e1 Flag_TruncateToPrecision) in *.
    assert (Short : (Z.of_nat (List.length
               (buffered cfg ef o3
                  (mkPtr cb (directive_text fl wd (Some ds) lm "s" ++ post))
                  (mkPtr (rev (directive_text fl wd (Some ds) lm "s") ++ cb)
                     post) v)) < 2 ^ 31)%Z).
    { destruct v;
        try (apply SR; rewrite W3; apply int_value_range).
      rewrite buffered_c_string by assumption.
      rewrite length_firstn. pose proof (int_value_range ds). lia. }
    destruct (@munge_bound ef _ o3 T
                ltac:(rewrite P3; apply int_value_range) Short)
      as (t & Et & Bt).
    eexists. exists t. split; [reflexivity |].
    cbn [out reported str set_fill set_flags set_precision set_width].
    split; [reflexivity |]. split; [now rewrite Et, S3 |].
    now rewrite <- P3, <- W3.
  - intros. now apply buffered_c_string.
  - intros extraFlags result o T S G. unfold munge. rewrite T, S.
    cbn [andb]. apply Z.gt_lt in G. apply Z.gtb_lt in G. now rewrite G.
Qed.

Lemma short_rendering_hello : short_rendering default_build (std_string "hello").
Proof.
  intros extraFlags o fmtBegin fmtEnd Wo. unfold buffered.
  assert (H : forall tmp, width tmp = width o -> str tmp = [] ->
            (Z.of_nat (List.length
               (str (formatValue default_build tmp fmtBegin fmtEnd
                       (std_string "hello")))) < 2 ^ 31)%Z).
  { intros tmp Wt St. cbn [formatValue std_string formatValue_generic
      Insertable_string convert_char convert_voidptr insert].
    unfold insert_text, padding, set_width, put. cbn [str].
    rewrite St, Wt. cbn [app].
    destruct (Z.land (flags tmp) ios.adjustfield =? ios.left)%Z;
      rewrite length_app, repeat_length;
      change (List.length (chars "hello")) with 5%nat; lia. }
  destruct (has_extra extraFlags Flag_SpacePadPositive),
           (has_extra extraFlags Flag_TruncateToPrecision);
    cbn [formatCStringTruncate std_string]; apply H; reflexivity.
Qed.

Lemma C6_witness :
  exists w' t,
    formatValueBasic default_build
      (mkPtr ["%"%char]
         (directive_text (chars "-") (chars "4") (Some (chars "2")) [] "s"
            ++ chars "|"))
      (spec_end
         (mkPtr ["%"%char]
            (directive_text (chars "-") (chars "4") (Some (chars "2")) [] "s"
               ++ chars "|")))
      (std_string "hello") (mkWorld ostringstream [])
    = (Done tt, w') /\
    str (out w') = str ostringstream ++ t /\
    (Z.of_nat (List.length t) <= 4)%Z.
Proof.
  destruct (@C6_truncation_to_precision default_build ["%"%char] (chars "-")
              (chars "4") (chars "2") [] (chars "|") (std_string "hello")
              (mkWorld ostringstream []) eq_refl eq_refl eq_refl eq_refl
              eq_refl short_rendering_hello)
    as [(w' & t & E & _ & S & B) _].
  exists w', t. split; [exact E |]. split; [exact S |]. exact B.
Defined.

(** The claim C6 fails where the directive has a width above its
    precision: the truncated C string is put into the real stream with
    the field width, here five characters under a precision of three. *)
Lemma C6_counterexample_field_width :
  format_string default_build "%5.3s" [c_string 4096 (chars "hello")]
  = (Done "  hel"%string, []) /\
  (3 < String.length "  hel")%nat.
Proof. split; [reflexivity | vm_compute; lia]. Qed.

(* ------------------------------------------------------------------ *)
(** ** Letters that are no conversion of the mini-language *)

Lemma known_conversion_letter t :
  known_conversion t = true -> is_letter t = true.
Proof.
  destruct t as [[] [] [] [] [] [] [] []]; vm_compute; congruence.
Qed.

Lemma terminates_facts a :
  terminates a = true ->
  advances a = false /\ (a =? "*")%char = false /\ is_letter a = true.
Proof.
  destruct a as [[] [] [] [] [] [] [] []]; vm_compute; intuition congruence.
Qed.

Lemma passes_not_letter x :
  passes x = true -> is_length_modifier x = false -> is_letter x = false.
Proof.
  unfold passes. intros P L. apply andb_prop in P. destruct P as [_ P].
  rewrite L in P. simpl in P. now apply negb_true_iff.
Qed.

(** Outside the conversion letters the [switch] on the conversion
    character does nothing. *)
Lemma set_conversion_unknown cfg t precisionSet e :
  known_conversion t = false ->
  set_conversion cfg t precisionSet e = ret (false, e).
Proof.
  unfold known_conversion. cbn [existsb chars list_ascii_of_string].
  intros H. repeat (apply orb_false_elim in H; destruct H as [? H]).
  unfold set_conversion.
  repeat match goal with E : (t =? _)%char = false |- _ =>
    rewrite E; clear E end.
  reflexivity.
Qed.

Lemma skip_length_loop_stops ca : forall cb,
  is_length_modifier (deref (skip_length_loop cb ca)) = false.
Proof.
  induction ca as [| a ca IH]; intros cb; simpl; [reflexivity |].
  destruct (is_length_modifier a) eqn:E; [apply IH |].
  unfold deref. simpl. exact E.
Qed.

Lemma parse_flag_extra a o e o' e' :
  parse_flag a o e = Some (o', e') ->
  Z.land e' Flag_TruncateToPrecision = Z.land e Flag_TruncateToPrecision.
Proof.
  unfold parse_flag.
  repeat match goal with
  | |- context [if (a =? ?x)%char then _ else _] =>
      destruct (a =? x)%char
  end; intros H; try discriminate H; injection H as <- <-; try reflexivity.
  - destruct (negb (has_flag o ios.showpos)); [| reflexivity].
    apply land_setf_other. reflexivity.
  - apply land_ldiff_other. reflexivity.
Qed.

Lemma parse_flags_extra ca : forall o e cb,
  Z.land (snd (fst (parse_flags o e cb ca))) Flag_TruncateToPrecision
  = Z.land e Flag_TruncateToPrecision.
Proof.
  induction ca as [| a ca IH]; intros o e cb; simpl; [reflexivity |].
  destruct (parse_flag a o e) as [[o1 e1] |] eqn:E; [| reflexivity].
  rewrite IH. eapply parse_flag_extra; eauto.
Qed.

Lemma outcome_done {A} (m : M A) w (Q : A -> world -> Prop) :
  outcome m w Q (fun _ => False) ->
  exists a w', m w = (Done a, w') /\ Q a w'.
Proof.
  unfold outcome. destruct (m w) as [[a | r |] w']; try contradiction.
  intros H. exists a, w'. auto.
Qed.

Section Unknown.

Variables (cfg : config) (cb l post : list ascii) (a : ascii).
Hypothesis Hl : forallb passes l = true.
Hypothesis Hstar : forallb (fun x => negb (x =? "*")%char) l = true.
Hypothesis Ha : terminates a = true.
Hypothesis Hunknown : known_conversion a = false.

(** The stretch of advancing characters at the front of the directive,
    and what follows it. *)
Lemma unknown_split :
  exists l0 l', l = l0 ++ l' /\ forallb advances l0 = true /\
                stops (l' ++ a :: post) = true.
Proof.
  destruct (split_advancing (l ++ a :: post)) as (l0 & stop0 & E & F & S).
  assert (Sa : stops (a :: post) = true).
  { simpl. destruct (terminates_facts a Ha) as (-> & _). reflexivity. }
  symmetry in E.
  destruct (advancing_prefix l0 l stop0 (a :: post) E F Sa) as (l' & -> & ->).
  exists l0, l'. auto.
Qed.

Lemma deref_in_directive l0 l' c :
  l = l0 ++ l' -> within cb l0 (l' ++ a :: post) c ->
  In (deref c) l \/ deref c = a.
Proof.
  intros -> (l1 & l2 & -> & ->). unfold deref. cbn [after].
  destruct l2 as [| x l2]; cbn [app].
  - destruct l' as [| y l']; cbn [app]; [now right | left].
    rewrite !in_app_iff. right. now left.
  - left. rewrite !in_app_iff. left. right. now left.
Qed.

Lemma no_star_seen l0 l' :
  l = l0 ++ l' -> ~ star_seen cb l0 (l' ++ a :: post).
Proof.
  intros E (c & W & S).
  destruct (@deref_in_directive l0 l' c E W) as [I | I].
  - rewrite forallb_forall in Hstar. apply Hstar in I.
    rewrite S in I. discriminate I.
  - rewrite S in I. subst a. discriminate Ha.
Qed.

Lemma streamStateFromFormat_unknown w :
  exists extraFlags w',
    streamStateFromFormat cfg (mkPtr cb (l ++ a :: post))
      (mkPtr (a :: rev l ++ cb) post) w
    = (Done extraFlags, w') /\
    reported w' = reported w /\ str (out w') = str (out w) /\
    Z.land (flags (out w')) conversion_bits = 0%Z /\
    has_extra extraFlags Flag_TruncateToPrecision = false.
Proof.
  destruct unknown_split as (l0 & l' & El & F & S).
  pose proof (@no_star_seen l0 l' El) as NoStar.
  apply outcome_done.
  unfold streamStateFromFormat, reset_stream_state. msteps.
  change (unsetf reset_mask
            (set_fill " " (set_precision 6 (set_width 0 (out w)))))
    with (reset (out w)) in *.
  cbn [before after] in *.
  assert (Etext : l ++ a :: post = l0 ++ l' ++ a :: post)
    by (rewrite El; now rewrite <- app_assoc).
  rewrite Etext in Heqp.
  pose proof (parse_flags_frame (l0 ++ l' ++ a :: post) (reset (out w)) 0 cb)
    as Fr.
  pose proof (parse_flags_steps (l0 ++ l' ++ a :: post) (reset (out w)) 0 cb)
    as St.
  rewrite Heqp in Fr, St. cbn [fst snd] in Fr, St.
  destruct Fr as (Fs & _ & _ & _ & Fb).
  assert (W0 : within cb l0 (l' ++ a :: post) c)
    by (eapply within_steps; eauto; apply within_start).
  msteps.
  eapply outcome_mono; [eapply parse_width_spec; eauto | |].
  2: { intros w' (_ & SS & _). exact (NoStar SS). }
  intros [widthSet c1] w1 (W1 & P1). cbn [snd] in W1.
  mstep.
  eapply outcome_mono; [eapply parse_precision_spec; eauto | |].
  2: { intros w' (_ & SS & _). exact (NoStar SS). }
  intros [precisionSet c2] w2 (W2 & P2). cbn [snd] in W2.
  assert (W3 : within cb l0 (l' ++ a :: post) (skip_length_modifiers c2))
    by (eapply within_steps; eauto; apply skip_length_modifiers_steps).
  assert (Hlt : ptr_lt (skip_length_modifiers c2)
                  (mkPtr (a :: rev l ++ cb) post) = true).
  { unfold ptr_lt. apply Nat.ltb_lt. apply within_offset in W3.
    unfold offset at 2. cbn [before List.length].
    rewrite length_app, length_rev. rewrite El, length_app. lia. }
  assert (Hle : ptr_le (skip_length_modifiers c2)
                  (mkPtr (a :: rev l ++ cb) post) = true).
  { unfold ptr_le. apply Nat.leb_le. unfold ptr_lt in Hlt.
    apply Nat.ltb_lt in Hlt. lia. }
  rewrite Hlt, Hle.
  assert (Hu : known_conversion (deref (skip_length_modifiers c2)) = false).
  { destruct (@deref_in_directive l0 l' _ El W3) as [I | I].
    - destruct (known_conversion (deref (skip_length_modifiers c2))) eqn:K;
        [| reflexivity].
      apply known_conversion_letter in K.
      rewrite forallb_forall in Hl. apply Hl in I.
      rewrite (@passes_not_letter _ I) in K; [discriminate K |].
      destruct c2. apply skip_length_loop_stops.
    - now rewrite I. }
  rewrite (set_conversion_unknown cfg _ precisionSet z Hu).
  unfold integer_precision_fixup. msteps;
    try match goal with H : false && _ && _ = true |- _ =>
          discriminate H end.
  destruct P1 as (S1 & _ & G1 & m1 & R1 & _ & [-> | SS]);
    [| contradiction (NoStar SS)].
  destruct P2 as (S2 & _ & G2 & m2 & R2 & _ & [-> | SS]);
    [| contradiction (NoStar SS)].
  rewrite app_nil_r in R1, R2. cbn [out reported] in *.
  repeat split.
  - congruence.
  - rewrite S2, S1, Fs. reflexivity.
  - rewrite G2, G1, Fb. unfold reset, unsetf. cbn [flags set_flags].
    apply land_ldiff_inside. reflexivity.
  - pose proof (parse_flags_extra (l0 ++ l' ++ a :: post) (reset (out w)) 0
                  cb) as Ex.
    rewrite Heqp in Ex. cbn [fst snd] in Ex.
    unfold has_extra. now rewrite Ex.
Qed.

Lemma formatValue_unknown o fmtBegin :
  (forall (T : Type) (ins : Insertable T) (x : T),
     formatValue cfg o fmtBegin (mkPtr (a :: rev l ++ cb) post)
       (@generic T ins x)
     = insert o x) /\
  (forall addr s,
     formatValue cfg o fmtBegin (mkPtr (a :: rev l ++ cb) post)
       (c_string addr s)
     = insert_text o (until_nul s)) /\
  (forall c,
     formatValue cfg o fmtBegin (mkPtr (a :: rev l ++ cb) post) (char_ c)
     = insert_char o c /\
     formatValue cfg o fmtBegin (mkPtr (a :: rev l ++ cb) post)
       (signed_char c)
     = insert_char o c /\
     formatValue cfg o fmtBegin (mkPtr (a :: rev l ++ cb) post)
       (unsigned_char c)
     = insert_char o c).
Proof.
  pose proof Hunknown as H. unfold known_conversion in H.
  cbn [existsb chars list_ascii_of_string] in H.
  repeat (apply orb_false_elim in H; destruct H as [? H]).
  unfold formatValue, formatValue_generic, formatValue_char, deref_prev.
  cbn [before].
  repeat match goal with E : (a =? _)%char = false |- _ =>
    rewrite E; clear E end.
  repeat split; intros.
  destruct convert_char, convert_voidptr; reflexivity.
Qed.

Lemma formatValueBasic_unknown v w :
  exists w',
    formatValueBasic cfg (mkPtr cb (l ++ a :: post))
      (mkPtr (a :: rev l ++ cb) post) v w
    = (Done tt, w') /\
    reported w' = reported w.
Proof.
  destruct (streamStateFromFormat_unknown w)
    as (extraFlags & w1 & E & R & _).
  unfold formatValueBasic. unfold bind at 1. unfold get_out at 1.
  unfold bind at 1. rewrite E.
  destruct (extraFlags =? 0)%Z; eexists; (split; [reflexivity |]);
    cbn [out reported]; exact R.
Qed.

End Unknown.

(** C10.  A letter that is neither a length modifier nor one of the
    conversion letters of the mini-language ends a directive like any
    other: [findFormatSpecEnd] returns the position behind it, and in a
    directive without a star the interpreter raises no error, leaves the
    flags for numeric base, float style and case cleared and sets no
    truncation, and the argument is printed by its stream insertion
    operator.  So [%q] and [%v] print their arguments as they are. *)
Theorem C10_unknown_conversion_letter cfg (cb l post : list ascii)
    (a : ascii) (v : value) (w : world) :
  forallb passes l = true ->
  forallb (fun x => negb (x =? "*")%char) l = true ->
  terminates a = true -> known_conversion a = false ->
  findFormatSpecEnd cfg (mkPtr cb (l ++ a :: post)) w
  = (Done (mkPtr (a :: rev l ++ cb) post), w) /\
  (exists extraFlags w',
     streamStateFromFormat cfg (mkPtr cb (l ++ a :: post))
       (mkPtr (a :: rev l ++ cb) post) w
     = (Done extraFlags, w') /\
     reported w' = reported w /\ str (out w') = str (out w) /\
     Z.land (flags (out w')) conversion_bits = 0%Z /\
     has_extra extraFlags Flag_TruncateToPrecision = false) /\
  (exists w',
     formatValueBasic cfg (mkPtr cb (l ++ a :: post))
       (mkPtr (a :: rev l ++ cb) post) v w
     = (Done tt, w') /\
     reported w' = reported w) /\
  (forall o (T : Type) (ins : Insertable T) (x : T),
     formatValue cfg o (mkPtr cb (l ++ a :: post))
       (mkPtr (a :: rev l ++ cb) post) (@generic T ins x)
     = insert o x) /\
  (forall o addr s,
     formatValue cfg o (mkPtr cb (l ++ a :: post))
       (mkPtr (a :: rev l ++ cb) post) (c_string addr s)
     = insert_text o (until_nul s)) /\
  format_string cfg "%q and %-3v|" [int 5; std_string "x"]
  = (Done "5 and x  |"%string, []).
Proof.
  intros Hl Hstar Ha Hu.
  split; [| split; [| split; [| split; [| split]]]].
  - unfold findFormatSpecEnd.
    rewrite (deref_passes_or_terminates l a post cb Hl Ha).
    cbn [before after]. rewrite (spec_end_loop_passes l cb (a :: post) Hl).
    rewrite (spec_end_loop_terminates a (rev l ++ cb) post Ha).
    reflexivity.
  - now apply streamStateFromFormat_unknown.
  - now apply formatValueBasic_unknown.
  - intros o T ins x.
    now apply (@formatValue_unknown cfg cb l post a Hu o).
  - intros o addr s.
    now apply (@formatValue_unknown cfg cb l post a Hu o).
  - reflexivity.
Qed.

Lemma C10_witness :
  findFormatSpecEnd default_build (mkPtr ["%"%char] (chars "-08.3l" ++ "q"%char :: chars " end"))
    (mkWorld ostringstream [])
  = (Done (mkPtr ("q"%char :: rev (chars "-08.3l") ++ ["%"%char])
             (chars " end")),
     mkWorld ostringstream []) /\
  exists w',
    formatValueBasic default_build
      (mkPtr ["%"%char] (chars "-08.3l" ++ "q"%char :: chars " end"))
      (mkPtr ("q"%char :: rev (chars "-08.3l") ++ ["%"%char]) (chars " end"))
      (int 5) (mkWorld ostringstream [])
    = (Done tt, w') /\
    reported w' = [].
Proof.
  destruct (@C10_unknown_conversion_letter default_build ["%"%char]
              (chars "-08.3l") (chars " end") "q" (int 5)
              (mkWorld ostringstream []) eq_refl eq_refl eq_refl eq_refl)
    as (E & _ & F & _).
  split; [exact E | exact F].
Defined.

(* ------------------------------------------------------------------ *)
(** ** Reading numbers *)

Lemma digit_value a : is_digit a = true -> (0 <= code a - code "0" <= 9)%Z.
Proof.
  unfold is_digit, in_range. intros H. apply andb_prop in H.
  destruct H as [H1 H2]. apply Z.leb_le in H1, H2.
  change (code "0") with 48%Z in *. change (code "9") with 57%Z in *. lia.
Qed.

Lemma decimal_nonneg ds : forallb is_digit ds = true -> (0 <= decimal ds)%Z.
Proof.
  induction ds as [| a r IH]; intros H; [simpl; lia |].
  simpl in H. apply andb_prop in H. destruct H as [Ha Hr].
  cbn [decimal]. pose proof (digit_value a Ha). specialize (IH Hr).
  assert (0 < 10 ^ Z.of_nat (List.length r))%Z by (apply Z.pow_pos_nonneg; lia).
  nia.
Qed.

Lemma parseInt_loop_decimal ds : forall i cb rest,
  forallb is_digit ds = true -> no_digit_ahead rest = true ->
  (0 <= i)%Z ->
  (i * 10 ^ Z.of_nat (List.length ds) + decimal ds < 2 ^ 31)%Z ->
  parseInt_loop i cb (ds ++ rest)
  = ((i * 10 ^ Z.of_nat (List.length ds) + decimal ds)%Z,
     mkPtr (rev ds ++ cb) rest).
Proof.
  induction ds as [| a r IH]; intros i cb rest D N I B.
  - cbn [app List.length decimal rev]. rewrite Z.pow_0_r, Z.mul_1_r, Z.add_0_r.
    destruct rest as [| x rest]; [reflexivity |].
    cbn [no_digit_ahead] in N. apply negb_true_iff in N.
    cbn [parseInt_loop]. now rewrite N.
  - cbn [forallb] in D. apply andb_prop in D. destruct D as [Da Dr].
    pose proof (digit_value a Da) as Va.
    pose proof (decimal_nonneg r Dr) as Pr.
    cbn [List.length decimal] in B |- *.
    rewrite Nat2Z.inj_succ, Z.pow_succ_r in B |- * by lia.
    assert (P : (0 < 10 ^ Z.of_nat (List.length r))%Z)
      by (apply Z.pow_pos_nonneg; lia).
    cbn [app parseInt_loop]. rewrite Da.
    assert (S : (0 <= 10 * i + (code a - code "0") < 2 ^ 31)%Z) by nia.
    rewrite to_int_id by lia.
    rewrite (IH _ (a :: cb) rest Dr N) by nia.
    cbn [rev]. rewrite <- app_assoc. cbn [app]. f_equal. ring.
Qed.

(** X1.  [parseIntAndAdvance] reads the digits at the cursor as a decimal
    numeral: it returns the number they denote, as long as that fits an
    [int], and leaves the cursor behind the last digit.  Where no digit
    is at the cursor it returns 0 and the cursor stays. *)
Theorem X1_parseIntAndAdvance_decimal (cb ds rest : list ascii) :
  forallb is_digit ds = true -> no_digit_ahead rest = true ->
  (decimal ds < 2 ^ 31)%Z ->
  parseIntAndAdvance (mkPtr cb (ds ++ rest))
  = (decimal ds, mkPtr (rev ds ++ cb) rest) /\
  parseIntAndAdvance (mkPtr cb rest) = (0%Z, mkPtr cb rest).
Proof.
  intros D N B. unfold parseIntAndAdvance. cbn [before after]. split.
  - rewrite (@parseInt_loop_decimal ds 0 cb rest D N) by lia.
    now rewrite Z.mul_0_l, Z.add_0_l.
  - exact (@parseInt_loop_decimal [] 0 cb rest eq_refl N (Z.le_refl 0) eq_refl).
Qed.

Lemma X1_witness :
  parseIntAndAdvance (mkPtr ["%"%char] (chars "2147483647" ++ chars ".5d"))
  = (2147483647%Z, mkPtr (rev (chars "2147483647") ++ ["%"%char]) (chars ".5d")).
Proof.
  apply (@X1_parseIntAndAdvance_decimal ["%"%char] (chars "2147483647")
           (chars ".5d")); reflexivity.
Defined.

(* ------------------------------------------------------------------ *)
(** ** Length modifiers and the text around a directive *)

(** [formatValue] looks at the directive through [*(fmtEnd-1)] only. *)
Lemma formatValue_conversion cfg o b e b' e' v :
  deref_prev e = deref_prev e' ->
  formatValue cfg o b e v = formatValue cfg o b' e' v.
Proof.
  intros H. destruct v; cbn [formatValue];
    unfold formatValue_char, formatValue_generic; now rewrite H.
Qed.

Lemma buffered_conversion cfg extraFlags o b e b' e' v :
  deref_prev e = deref_prev e' ->
  buffered cfg extraFlags o b e v = buffered cfg extraFlags o b' e' v.
Proof.
  intros H.
  assert (F : forall o', formatValue cfg o' b e v = formatValue cfg o' b' e' v)
    by (intros; now apply formatValue_conversion).
  unfold buffered.
  destruct (has_extra extraFlags Flag_SpacePadPositive),
           (has_extra extraFlags Flag_TruncateToPrecision);
    try destruct (formatCStringTruncate _ v _) as [[] ?];
    rewrite ?F; reflexivity.
Qed.

(** Two directives that leave the same stream state, extra flags and
    reports, and end in the same conversion character, format alike. *)
Lemma formatValueBasic_same_state cfg b e b' e' v w :
  streamStateFromFormat cfg b e w = streamStateFromFormat cfg b' e' w ->
  deref_prev e = deref_prev e' ->
  formatValueBasic cfg b e v w = formatValueBasic cfg b' e' v w.
Proof.
  intros S C. unfold formatValueBasic, bind, get_out. rewrite S.
  destruct (streamStateFromFormat cfg b' e' w) as [[ef | r |] w1];
    [| reflexivity | reflexivity].
  destruct (ef =? 0)%Z; unfold update; cbn [out reported].
  - now rewrite (@formatValue_conversion cfg _ b e b' e' v C).
  - now rewrite (@buffered_conversion cfg ef _ b e b' e' v C).
Qed.

Lemma deref_prev_directive fl wd prec lm conv cb post :
  deref_prev (mkPtr (rev (directive_text fl wd prec lm conv) ++ cb) post)
  = conv.
Proof.
  unfold directive_text, deref_prev. cbn [before].
  rewrite !app_assoc, rev_app_distr. reflexivity.
Qed.

Lemma well_formed_without_length fl wd prec lm conv :
  well_formed fl wd prec lm conv = true ->
  well_formed fl wd prec [] conv = true.
Proof.
  intros H. apply well_formed_parts in H.
  destruct H as (F & W & NF & P & _ & T).
  unfold well_formed. rewrite F, W, NF, T.
  destruct prec; [rewrite P |]; reflexivity.
Qed.

(** X2.  The C99 length modifiers of a directive are parsed and ignored,
    and nothing around a directive matters to it: a directive
    flags-width-precision-length-conversion formats a value exactly as
    the directive without the length modifiers does, whatever text stands
    before and behind the two. *)
Theorem X2_length_modifiers_ignored cfg (fl wd : list ascii)
    (prec : option (list ascii)) (lm : list ascii) (conv : ascii)
    (cb post cb' post' : list ascii) (v : value) (w : world) :
  well_formed fl wd prec lm conv = true ->
  formatValueBasic cfg
    (mkPtr cb (directive_text fl wd prec lm conv ++ post))
    (spec_end (mkPtr cb (directive_text fl wd prec lm conv ++ post))) v w
  = formatValueBasic cfg
      (mkPtr cb' (directive_text fl wd prec [] conv ++ post'))
      (spec_end (mkPtr cb' (directive_text fl wd prec [] conv ++ post'))) v w.
Proof.
  intros H. pose proof (well_formed_without_length _ _ _ _ _ H) as H'.
  rewrite !spec_end_well_formed by assumption.
  apply formatValueBasic_same_state.
  - now rewrite !streamStateFromFormat_well_formed.
  - now rewrite !deref_prev_directive.
Qed.

Lemma X2_witness :
  formatValueBasic default_build
    (mkPtr ["%"%char] (directive_text (chars "-") (chars "8") None (chars "ll")
                         "d" ++ chars " items"))
    (spec_end
       (mkPtr ["%"%char] (directive_text (chars "-") (chars "8") None
                            (chars "ll") "d" ++ chars " items")))
    (int 42) (mkWorld ostringstream [])
  = formatValueBasic default_build
      (mkPtr ["%"%char] (directive_text (chars "-") (chars "8") None [] "d"
                           ++ []))
      (spec_end
         (mkPtr ["%"%char] (directive_text (chars "-") (chars "8") None []
                              "d" ++ [])))
      (int 42) (mkWorld ostringstream []).
Proof.
  apply (@X2_length_modifiers_ignored default_build (chars "-") (chars "8")
           None (chars "ll") "d" ["%"%char] (chars " items") ["%"%char] []
           (int 42) (mkWorld ostringstream [])).
  reflexivity.
Defined.

(* ------------------------------------------------------------------ *)
(** ** Negative precision *)

Section Parts.

Variable cfg : config.

(** Precision with a minus sign: the digits are skipped and the precision
    is zero. *)
Lemma parse_precision_negative ds cb rest w :
  forallb is_digit ds = true -> letter_ahead rest = true ->
  parse_precision cfg (mkPtr cb ("."%char :: "-"%char :: ds ++ rest)) w
  = (Done (true, mkPtr (rev ds ++ "-"%char :: "."%char :: cb) rest),
     mkWorld (set_precision 0 (out w)) (reported w)).
Proof.
  intros D R. unfold parse_precision.
  unfold deref at 1. cbn [after]. cbn [Ascii.eqb Bool.eqb andb].
  unfold next at 1 2 3 4. cbn [after before].
  unfold deref at 1 2 3. cbn [after].
  change (is_digit "-") with false. cbn [Ascii.eqb Bool.eqb andb].
  unfold next. cbn [after before].
  unfold parseIntAndAdvance. cbn [before after].
  rewrite parseInt_loop_digits by (try assumption; now left).
  unfold bind, update, ret. reflexivity.
Qed.

(** The interpreter on a directive given by its parts, the precision part
    being any text that [parse_precision] gets over in one go. *)
Lemma streamStateFromFormat_parts fl wd ptext (ps : bool)
    (f : ostream -> ostream) lm conv cb post fmtEnd w :
  forallb is_flag fl = true -> forallb is_digit wd = true ->
  no_flag_ahead wd = true -> forallb is_length_modifier lm = true ->
  terminates conv = true ->
  (ptext = [] \/ exists r, ptext = "."%char :: r) ->
  (forall cb' o r,
     parse_precision cfg (mkPtr cb' (ptext ++ lm ++ conv :: post))
       (mkWorld o r)
     = (Done (ps, mkPtr (rev ptext ++ cb') (lm ++ conv :: post)),
        mkWorld (f o) r)) ->
  offset fmtEnd
  = (List.length (fl ++ wd ++ ptext ++ lm) + 1 + List.length cb)%nat ->
  streamStateFromFormat cfg
    (mkPtr cb (fl ++ wd ++ ptext ++ lm ++ conv :: post)) fmtEnd w
  = (r <- set_conversion cfg conv ps (snd (flag_run fl (reset (out w), 0%Z))) ;;
     integer_precision_fixup (fst r) ps
       (negb (match wd with [] => true | _ => false end)) ;;
     ret (snd r))
    (mkWorld (f (width_stream fl wd (out w))) (reported w)).
Proof.
  intros F W NF L T Pt Hp Hoff.
  assert (LA : letter_ahead (lm ++ conv :: post) = true)
    by now apply letter_ahead_tail.
  assert (LA1 : letter_ahead (ptext ++ lm ++ conv :: post) = true \/
                exists r, ptext ++ lm ++ conv :: post = "."%char :: r).
  { destruct Pt as [-> | (r & ->)]; [now left |].
    right. eexists. reflexivity. }
  assert (NF1 : no_flag_ahead (wd ++ ptext ++ lm ++ conv :: post) = true).
  { destruct wd as [| d wd]; [| exact NF]. cbn [app].
    destruct Pt as [-> | (r & ->)]; [| reflexivity]. cbn [app].
    destruct (lm ++ conv :: post) as [| x r]; [reflexivity |].
    simpl in LA |- *. apply letter_facts in LA.
    destruct LA as (_ & -> & _). reflexivity. }
  unfold streamStateFromFormat, reset_stream_state.
  unfold bind at 1 2 3 4 5 6. unfold update at 1 2 3 4.
  unfold get_out, set_out. cbn [out reported before after].
  change (unsetf reset_mask
            (set_fill " " (set_precision 6 (set_width 0 (out w)))))
    with (reset (out w)).
  unfold width_stream.
  rewrite parse_flags_run by assumption.
  destruct (flag_run fl (reset (out w), 0%Z)) as [o1 e1]. cbn [fst snd].
  unfold bind at 1. rewrite parse_width_exact by assumption.
  cbn [out reported].
  unfold bind at 1. rewrite Hp. cbn [out reported].
  assert (Tc : is_length_modifier conv = false).
  { unfold terminates in T. apply andb_prop in T. destruct T as [_ T].
    now apply negb_true_iff in T. }
  unfold skip_length_modifiers. cbn [before after].
  rewrite skip_length_loop_run by assumption.
  assert (Hlt : ptr_lt
                  (mkPtr (rev lm ++ rev ptext ++ rev wd ++ rev fl ++ cb)
                         (conv :: post)) fmtEnd = true).
  { unfold ptr_lt. apply Nat.ltb_lt. rewrite Hoff. unfold offset.
    cbn [before]. rewrite !length_app, !length_rev. lia. }
  assert (Hle : ptr_le
                  (mkPtr (rev lm ++ rev ptext ++ rev wd ++ rev fl ++ cb)
                         (conv :: post)) fmtEnd = true).
  { unfold ptr_le. apply Nat.leb_le. unfold ptr_lt in Hlt.
    apply Nat.ltb_lt in Hlt. lia. }
  rewrite Hlt, Hle. unfold deref. cbn [after].
  unfold bind.
  destruct (set_conversion cfg conv ps e1 _) as [[[ic ef] | r |] w1];
    reflexivity.
Qed.

Lemma negative_precision_body fl wd ds lm conv :
  well_formed fl wd (Some ds) lm conv = true ->
  exists body, negative_precision_text fl wd ds lm conv = body ++ [conv] /\
               forallb passes body = true.
Proof.
  intros H. apply well_formed_parts in H.
  destruct H as (F & W & _ & P & L & _).
  exists (fl ++ wd ++ "."%char :: "-"%char :: ds ++ lm).
  split.
  { unfold negative_precision_text. rewrite <- !app_assoc. cbn [app].
    now rewrite <- !app_assoc. }
  assert (A : forall l (p : ascii -> bool),
             (forall a, p a = true -> advances a = true) ->
             forallb p l = true -> forallb passes l = true).
  { intros l p Hp Hl. rewrite forallb_forall in *. intros a Ha.
    apply advances_passes. auto. }
  rewrite !forallb_app. cbn [forallb]. rewrite !forallb_app.
  repeat (apply andb_true_intro; split); try reflexivity.
  - apply (A fl is_flag); auto using advances_flag.
  - apply (A wd is_digit); auto using advances_digit.
  - apply (A ds is_digit); auto using advances_digit.
  - apply (A lm is_length_modifier); auto using advances_length.
Qed.

Lemma spec_end_negative_precision fl wd ds lm conv cb post :
  well_formed fl wd (Some ds) lm conv = true ->
  spec_end (mkPtr cb (negative_precision_text fl wd ds lm conv ++ post))
  = mkPtr (rev (negative_precision_text fl wd ds lm conv) ++ cb) post.
Proof.
  intros H. destruct (negative_precision_body fl wd ds lm conv H)
    as (body & -> & B).
  apply well_formed_parts in H. destruct H as (_ & _ & _ & _ & _ & T).
  unfold spec_end. cbn [before after]. rewrite <- app_assoc.
  rewrite spec_end_loop_passes by assumption.
  cbn [app]. rewrite spec_end_loop_terminates by assumption.
  rewrite rev_app_distr. reflexivity.
Qed.

Lemma streamStateFromFormat_negative_precision fl wd ds lm conv cb post w :
  well_formed fl wd (Some ds) lm conv = true ->
  streamStateFromFormat cfg
    (mkPtr cb (negative_precision_text fl wd ds lm conv ++ post))
    (mkPtr (rev (negative_precision_text fl wd ds lm conv) ++ cb) post) w
  = (r <- set_conversion cfg conv true
            (snd (flag_run fl (reset (out w), 0%Z))) ;;
     integer_precision_fixup (fst r) true
       (negb (match wd with [] => true | _ => false end)) ;;
     ret (snd r))
    (mkWorld (parsed_stream fl wd (Some []) (out w)) (reported w)).
Proof.
  intros H. apply well_formed_parts in H.
  destruct H as (F & W & NF & P & L & T).
  pose proof (@streamStateFromFormat_parts fl wd
                ("."%char :: "-"%char :: ds) true (set_precision 0) lm conv
                cb post
                (mkPtr (rev (negative_precision_text fl wd ds lm conv) ++ cb)
                   post) w F W NF L T) as S.
  unfold negative_precision_text in *.
  replace ((fl ++ wd ++ "."%char :: "-"%char :: ds ++ lm ++ [conv]) ++ post)
    with (fl ++ wd ++ ("."%char :: "-"%char :: ds) ++ lm ++ conv :: post)
    by (rewrite <- !app_assoc; cbn [app]; now rewrite <- !app_assoc).
  rewrite S.
  - unfold parsed_stream, width_stream. destruct wd; reflexivity.
  - right. eexists. reflexivity.
  - intros cb' o r. cbn [app].
    rewrite parse_precision_negative
      by (try assumption; now apply letter_ahead_tail).
    cbn [out reported rev]. now rewrite <- !app_assoc.
  - unfold offset. cbn [before].
    rewrite !length_app, length_rev, !length_app. cbn [List.length].
    rewrite !length_app. cbn [List.length]. lia.
Qed.

End Parts.

Lemma deref_prev_negative_precision fl wd ds lm conv cb post :
  deref_prev (mkPtr (rev (negative_precision_text fl wd ds lm conv) ++ cb)
                post)
  = conv.
Proof.
  unfold negative_precision_text, deref_prev. cbn [before].
  change ("."%char :: "-"%char :: ds ++ lm ++ [conv])
    with (["."%char; "-"%char] ++ ds ++ lm ++ [conv]).
  rewrite !app_assoc, rev_app_distr. reflexivity.
Qed.

Lemma well_formed_empty_precision fl wd ds lm conv :
  well_formed fl wd (Some ds) lm conv = true ->
  well_formed fl wd (Some []) lm conv = true.
Proof.
  intros H. apply well_formed_parts in H.
  destruct H as (F & W & NF & P & L & T).
  unfold well_formed. rewrite F, W, NF, L, T. reflexivity.
Qed.

(** X3.  A negative precision is ignored and treated as zero: a directive
    whose precision is a minus sign and digits formats a value exactly as
    the same directive with the bare dot for a precision. *)
Theorem X3_negative_precision_is_zero cfg (fl wd ds lm : list ascii)
    (conv : ascii) (cb post cb' post' : list ascii) (v : value) (w : world) :
  well_formed fl wd (Some ds) lm conv = true ->
  formatValueBasic cfg
    (mkPtr cb (negative_precision_text fl wd ds lm conv ++ post))
    (spec_end (mkPtr cb (negative_precision_text fl wd ds lm conv ++ post)))
    v w
  = formatValueBasic cfg
      (mkPtr cb' (directive_text fl wd (Some []) lm conv ++ post'))
      (spec_end (mkPtr cb' (directive_text fl wd (Some []) lm conv ++ post')))
      v w.
Proof.
  intros H. pose proof (well_formed_empty_precision _ _ _ _ _ H) as H'.
  rewrite spec_end_negative_precision, spec_end_well_formed by assumption.
  apply formatValueBasic_same_state.
  - rewrite streamStateFromFormat_negative_precision by assumption.
    now rewrite streamStateFromFormat_well_formed.
  - now rewrite deref_prev_negative_precision, deref_prev_directive.
Qed.

Lemma X3_witness :
  formatValueBasic default_build
    (mkPtr ["%"%char]
       (negative_precision_text [] (chars "6") (chars "3") [] "d" ++ []))
    (spec_end
       (mkPtr ["%"%char]
          (negative_precision_text [] (chars "6") (chars "3") [] "d" ++ [])))
    (int 42) (mkWorld ostringstream [])
  = formatValueBasic default_build
      (mkPtr ["%"%char] (directive_text [] (chars "6") (Some []) [] "d" ++ []))
      (spec_end
         (mkPtr ["%"%char]
            (directive_text [] (chars "6") (Some []) [] "d" ++ [])))
      (int 42) (mkWorld ostringstream []).
Proof.
  apply (@X3_negative_precision_is_zero default_build [] (chars "6")
           (chars "3") [] "d" ["%"%char] [] ["%"%char] [] (int 42)
           (mkWorld ostringstream [])).
  reflexivity.
Defined.

(* ------------------------------------------------------------------ *)
(** ** What a call does not depend on *)

Lemma alike_refl w : alike w w.
Proof. repeat split. Qed.

Lemma respects_ret {A} (a : A) : respects (ret a).
Proof. intros w1 w2 H. split; [reflexivity | exact H]. Qed.

Lemma respects_bind {A B} (m : M A) (k : A -> M B) :
  respects m -> (forall a, respects (k a)) -> respects (bind m k).
Proof.
  intros Hm Hk w1 w2 H. destruct (Hm w1 w2 H) as [E R]. unfold bind.
  destruct (m w1) as [[a1 | r1 |] w1'], (m w2) as [[a2 | r2 |] w2'];
    cbn [fst snd] in *; try discriminate E.
  - injection E as <-. now apply Hk.
  - injection E as <-. auto.
  - auto.
Qed.

Lemma respects_error cfg r : respects (TINYFORMAT_ERROR cfg r).
Proof.
  intros w1 w2 (R & S & F). unfold TINYFORMAT_ERROR.
  destruct (TINYFORMAT_ERROR_as cfg); [destruct (NDEBUG cfg) | |];
    cbn [fst snd]; (split; [reflexivity |]);
    repeat split; cbn [out reported]; congruence.
Qed.

Lemma respects_findFormatSpecEnd cfg p : respects (findFormatSpecEnd cfg p).
Proof.
  unfold findFormatSpecEnd. apply respects_bind.
  - destruct (deref p =? NUL)%char;
      [apply respects_error | apply respects_ret].
  - intros _. destruct (spec_end_loop (before p) (after p)) as [[e |] c].
    + apply respects_ret.
    + apply respects_bind; [apply respects_error |].
      intros _. apply respects_ret.
Qed.

(** After the reset nothing is left of what two such worlds differ in. *)
Lemma alike_reset w1 w2 :
  alike w1 w2 ->
  mkWorld (reset (out w1)) (reported w1) = mkWorld (reset (out w2)) (reported w2).
Proof.
  intros (R & S & F). unfold reset, unsetf, set_flags, set_fill,
    set_precision, set_width. cbn [width precision flags fill str].
  now rewrite R, S, F.
Qed.

Lemma streamStateFromFormat_alike cfg b e w1 w2 :
  alike w1 w2 ->
  streamStateFromFormat cfg b e w1 = streamStateFromFormat cfg b e w2.
Proof.
  intros H. unfold streamStateFromFormat.
  assert (E : forall w, reset_stream_state w
                        = (Done tt, mkWorld (reset (out w)) (reported w)))
    by reflexivity.
  unfold bind at 1 9. rewrite !E. now rewrite (alike_reset H).
Qed.

Lemma respects_formatValueBasic cfg b e v :
  respects (formatValueBasic cfg b e v).
Proof.
  intros w1 w2 H. unfold formatValueBasic, bind, get_out.
  rewrite (streamStateFromFormat_alike cfg b e H).
  destruct H as (R & S & F).
  destruct (streamStateFromFormat cfg b e w2) as [[ef | r |] w'];
    cbn [fst snd]; [| split; [reflexivity | apply alike_refl]
                    | split; [reflexivity | apply alike_refl]].
  destruct (ef =? 0)%Z; unfold update; cbn [fst snd out reported];
    (split; [reflexivity |]); repeat split; cbn [out flags str set_fill
      set_flags set_precision set_width]; assumption.
Qed.

(** What the literal scanner writes and where it stops does not depend on
    the stream. *)
Lemma literal_loop_put n : forall ca fmt cb,
  (List.length ca <= n)%nat ->
  exists t c, forall o, literal_loop o fmt cb ca = (put t o, c).
Proof.
  induction n as [| n IH]; intros ca fmt cb Hn.
  - destruct ca; [| simpl in Hn; lia]. eexists _, _. intros o. reflexivity.
  - destruct ca as [| a ca']; [eexists _, _; intros o; reflexivity |].
    simpl in Hn. cbn [literal_loop].
    destruct (a =? NUL)%char; [eexists _, _; intros o; reflexivity |].
    destruct (a =? "%")%char.
    + destruct ca' as [| b ca'']; [eexists _, _; intros o; reflexivity |].
      destruct (negb (b =? "%")%char);
        [eexists _, _; intros o; reflexivity |].
      destruct (IH ca'' (mkPtr (a :: cb) (b :: ca'')) (b :: a :: cb))
        as (t & c & E); [simpl in Hn; lia |].
      eexists _, c. intros o. rewrite E. unfold write. rewrite put_put.
      reflexivity.
    + apply IH. lia.
Qed.

Lemma printFormatStringLiteral_put fmt :
  exists t c, forall o, printFormatStringLiteral o fmt = (put t o, c).
Proof.
  unfold printFormatStringLiteral. eapply literal_loop_put. apply le_n.
Qed.

Lemma alike_wrote t w1 w2 : alike w1 w2 -> alike (wrote t w1) (wrote t w2).
Proof.
  intros (R & S & F). repeat split; cbn [wrote out reported put str flags];
    congruence.
Qed.

(** [format] after its literal scanner has written [t] and stopped at
    [c]. *)
Lemma format_nil_scanned cfg fmt t c w :
  (forall o, printFormatStringLiteral o fmt = (put t o, c)) ->
  format cfg fmt [] w
  = (if negb (deref c =? NUL)%char
     then TINYFORMAT_ERROR cfg err_too_many else ret tt) (wrote t w).
Proof.
  intros E. cbn [format]. unfold bind at 1. unfold get_out. rewrite E.
  reflexivity.
Qed.

Lemma format_cons_scanned cfg fmt t c v args w :
  (forall o, printFormatStringLiteral o fmt = (put t o, c)) ->
  format cfg fmt (v :: args) w
  = (fmtEnd <- findFormatSpecEnd cfg c ;;
     formatValueBasic cfg c fmtEnd v ;;
     format cfg fmtEnd args) (wrote t w).
Proof.
  intros E. cbn [format]. unfold bind at 1. unfold get_out. rewrite E.
  reflexivity.
Qed.

Lemma respects_format cfg args : forall fmt, respects (format cfg fmt args).
Proof.
  induction args as [| v args IH]; intros fmt w1 w2 H;
    destruct (printFormatStringLiteral_put fmt) as (t & c & E).
  - rewrite !(@format_nil_scanned cfg fmt t c _ E).
    destruct (negb (deref c =? NUL)%char);
      [apply respects_error | apply respects_ret]; now apply alike_wrote.
  - rewrite !(@format_cons_scanned cfg fmt t c v args _ E).
    apply (@respects_bind _ _ (findFormatSpecEnd cfg c));
      [apply respects_findFormatSpecEnd | | now apply alike_wrote].
    intros fmtEnd. apply respects_bind;
      [apply respects_formatValueBasic | intros _; apply IH].
Qed.

(** X4.  What [format] writes and reports does not depend on the width,
    the precision, the fill character or the alignment, base, float,
    showbase, showpoint, showpos and uppercase flags the stream had before
    the call: from two streams that differ in these only, the call ends
    the same way and has written and reported the same. *)
Theorem X4_format_ignores_prior_formatting cfg (fmt : cptr)
    (args : list value) (w1 w2 : world) :
  alike w1 w2 ->
  fst (format cfg fmt args w1) = fst (format cfg fmt args w2) /\
  reported (snd (format cfg fmt args w1))
  = reported (snd (format cfg fmt args w2)) /\
  str (out (snd (format cfg fmt args w1)))
  = str (out (snd (format cfg fmt args w2))).
Proof.
  intros H. destruct (respects_format cfg args fmt H) as (E & R & S & _).
  auto.
Qed.

Lemma X4_witness :
  alike (mkWorld (mkStream 12 2 (Z.lor ios.hex ios.left) "*" []) [])
        (mkWorld (mkStream 0 6 ios.dec " " []) []) /\
  str (out (snd (format default_build (c_str "%d|%5s|") [int 10; std_string "ab"]
                   (mkWorld (mkStream 12 2 (Z.lor ios.hex ios.left) "*" [])
                      []))))
  = str (out (snd (format default_build (c_str "%d|%5s|")
                     [int 10; std_string "ab"]
                     (mkWorld (mkStream 0 6 ios.dec " " []) [])))).
Proof.
  assert (H : alike (mkWorld (mkStream 12 2 (Z.lor ios.hex ios.left) "*" []) [])
                    (mkWorld (mkStream 0 6 ios.dec " " []) []))
    by (repeat split).
  split; [exact H |].
  apply (@X4_format_ignores_prior_formatting default_build (c_str "%d|%5s|")
           [int 10; std_string "ab"] _ _ H).
Defined.

(* ------------------------------------------------------------------ *)
(** ** The state of the stream across a call of [format] *)

Lemma same_formatting_refl o : same_formatting o o.
Proof. repeat split. Qed.

Lemma same_formatting_trans o1 o2 o3 :
  same_formatting o1 o2 -> same_formatting o2 o3 -> same_formatting o1 o3.
Proof.
  unfold same_formatting. intros (A & B & C & D) (A' & B' & C' & D').
  repeat split; congruence.
Qed.

Lemma findFormatSpecEnd_out cfg p w :
  out (snd (findFormatSpecEnd cfg p w)) = out w.
Proof.
  unfold findFormatSpecEnd, bind, TINYFORMAT_ERROR, ret.
  destruct (deref p =? NUL)%char,
           (spec_end_loop (before p) (after p)) as [[e |] c],
           (TINYFORMAT_ERROR_as cfg), (NDEBUG cfg); reflexivity.
Qed.

Lemma formatValueBasic_restores cfg fmtBegin fmtEnd v w :
  outcome (formatValueBasic cfg fmtBegin fmtEnd v) w
    (fun _ w' => same_formatting (out w) (out w')) (fun _ => True).
Proof.
  unfold formatValueBasic. msteps. unfold outcome at 1.
  destruct (streamStateFromFormat cfg fmtBegin fmtEnd w)
    as [[extraFlags | r |] w1]; auto.
  msteps; repeat split.
Qed.

Lemma format_restores cfg args : forall fmt w,
  outcome (format cfg fmt args) w
    (fun _ w' => same_formatting (out w) (out w')) (fun _ => True).
Proof.
  induction args as [| v args IH]; intros fmt w;
    destruct (printFormatStringLiteral_put fmt) as (t & c & E).
  - unfold outcome. rewrite (@format_nil_scanned cfg fmt t c w E).
    destruct (negb (deref c =? NUL)%char); [| repeat split].
    unfold TINYFORMAT_ERROR.
    destruct (TINYFORMAT_ERROR_as cfg), (NDEBUG cfg); repeat split.
  - unfold outcome. rewrite (@format_cons_scanned cfg fmt t c v args w E).
    unfold bind at 1.
    pose proof (findFormatSpecEnd_out cfg c (wrote t w)) as O1.
    destruct (findFormatSpecEnd cfg c (wrote t w)) as [[e | r |] w1]; auto.
    cbn [snd] in O1. unfold bind at 1.
    pose proof (formatValueBasic_restores cfg c e v w1) as O2.
    unfold outcome in O2.
    destruct (formatValueBasic cfg c e v w1) as [[[] | r |] w2]; auto.
    specialize (IH e w2). unfold outcome in IH.
    destruct (format cfg e args w2) as [[[] | r |] w3]; auto.
    eapply same_formatting_trans; [| exact IH].
    eapply same_formatting_trans; [| exact O2].
    rewrite O1. repeat split.
Qed.

(** X5.  Whenever [format] returns, with any number of arguments and
    whatever errors it reported, the width, precision, flags and fill of
    the stream are the ones from before the call; and in a build whose
    error handler returns, it always returns. *)
Theorem X5_format_restores_formatting cfg (fmt : cptr) (args : list value)
    (w : world) :
  outcome (format cfg fmt args) w
    (fun _ w' => same_formatting (out w) (out w')) (fun _ => True) /\
  (error_returns cfg = true ->
   exists w', format cfg fmt args w = (Done tt, w') /\
              same_formatting (out w) (out w')).
Proof.
  split; [apply format_restores |].
  intros Hret. pose proof (format_restores cfg args fmt w) as R.
  pose proof (format_counts cfg args fmt w) as C.
  unfold outcome in R, C.
  destruct (format cfg fmt args w) as [[[] | r |] w'].
  - exists w'. auto.
  - destruct C as [C _]. congruence.
  - destruct C as [C _]. congruence.
Qed.

Lemma X5_witness :
  exists w',
    format returning_build (c_str "%08.3f|%-5d|%*d") [int 1; int 2]
      (mkWorld (mkStream 9 4 ios.oct "#" []) [])
    = (Done tt, w') /\
    same_formatting (mkStream 9 4 ios.oct "#" []) (out w').
Proof.
  apply (@X5_format_restores_formatting returning_build
           (c_str "%08.3f|%-5d|%*d") [int 1; int 2]
           (mkWorld (mkStream 9 4 ios.oct "#" []) [])).
  reflexivity.
Defined.

(* ------------------------------------------------------------------ *)
(** ** One directive at a time *)

(** On escaped text followed by a single percent sign the scanner writes
    the text and returns the position behind that percent sign. *)
Lemma literal_loop_to_directive s : forall o fb l tail,
  nul_free s = true -> no_percent_ahead tail = true ->
  literal_loop o (mkPtr fb (l ++ escape s ++ "%"%char :: tail))
    (rev l ++ fb) (escape s ++ "%"%char :: tail)
  = (put (l ++ s) o,
     mkPtr ("%"%char :: rev (escape s) ++ rev l ++ fb) tail).
Proof.
  induction s as [| a s IH]; intros o fb l tail Hs Ht.
  - cbn [escape app rev]. cbn [literal_loop after].
    cbn [Ascii.eqb Bool.eqb andb].
    pose proof (write_pending l fb ("%"%char :: tail) ("%"%char :: tail) o)
      as Wp.
    rewrite Wp. rewrite app_nil_r.
    destruct tail as [| b tail']; [reflexivity |].
    cbn [no_percent_ahead] in Ht. rewrite Ht. reflexivity.
  - simpl in Hs. apply andb_prop in Hs. destruct Hs as [Ha Hs].
    apply negb_true_iff in Ha.
    cbn [escape]. destruct (a =? "%")%char eqn:Hp.
    + apply Ascii.eqb_eq in Hp. subst a.
      cbn [app]. cbn [literal_loop after]. cbn [Ascii.eqb Bool.eqb andb negb].
      pose proof (write_pending l fb
                    ("%"%char :: "%"%char :: escape s ++ "%"%char :: tail)
                    ("%"%char :: "%"%char :: escape s ++ "%"%char :: tail) o)
        as Wp.
      rewrite Wp.
      specialize (IH (put l o) ("%"%char :: rev l ++ fb) ["%"%char] tail Hs Ht).
      cbn [rev app] in IH. rewrite IH. rewrite put_put. f_equal.
      cbn [rev]. rewrite <- !app_assoc. reflexivity.
    + cbn [app]. cbn [literal_loop]. rewrite Ha, Hp.
      specialize (IH o fb (l ++ [a]) tail Hs Ht).
      rewrite rev_app_distr in IH. cbn [rev app] in IH.
      rewrite <- app_assoc in IH. cbn [app] in IH. rewrite IH.
      f_equal; [now rewrite <- app_assoc |].
      cbn [rev]. now rewrite <- !app_assoc.
Qed.

Lemma printFormatStringLiteral_to_directive s cb tail :
  nul_free s = true -> no_percent_ahead tail = true ->
  forall o,
    printFormatStringLiteral o (mkPtr cb (escape s ++ "%"%char :: tail))
    = (put s o, mkPtr ("%"%char :: rev (escape s) ++ cb) tail).
Proof.
  intros Hs Ht o. unfold printFormatStringLiteral. cbn [before after].
  exact (literal_loop_to_directive s o cb [] tail Hs Ht).
Qed.

Lemma no_percent_ahead_directive l a rest :
  no_percent_ahead l = true -> terminates a = true ->
  no_percent_ahead (l ++ a :: rest) = true.
Proof.
  intros Hl Ha. destruct l as [| x l]; [| exact Hl].
  cbn [app no_percent_ahead].
  destruct (terminates_facts a Ha) as (_ & _ & L).
  destruct (a =? "%")%char eqn:E; [| reflexivity].
  apply Ascii.eqb_eq in E. subst a. discriminate L.
Qed.

Lemma format_first_directive cfg (s l : list ascii) (a : ascii)
    (rest cb : list ascii) (v : value) (args : list value) (w : world) :
  nul_free s = true -> forallb passes l = true ->
  no_percent_ahead l = true -> terminates a = true ->
  format cfg (mkPtr cb (escape s ++ "%"%char :: l ++ a :: rest)) (v :: args) w
  = (formatValueBasic cfg
       (mkPtr ("%"%char :: rev (escape s) ++ cb) (l ++ a :: rest))
       (mkPtr (a :: rev l ++ "%"%char :: rev (escape s) ++ cb) rest) v ;;
     format cfg (mkPtr (a :: rev l ++ "%"%char :: rev (escape s) ++ cb) rest)
       args) (wrote s w).
Proof.
  intros Hs Hl Hp Ha.
  rewrite (@format_cons_scanned cfg _ s
             (mkPtr ("%"%char :: rev (escape s) ++ cb) (l ++ a :: rest))
             v args w
             (printFormatStringLiteral_to_directive s cb (l ++ a :: rest) Hs
                (no_percent_ahead_directive l a rest Hp Ha))).
  unfold bind at 1. unfold findFormatSpecEnd.
  rewrite (deref_passes_or_terminates l a rest _ Hl Ha).
  cbn [before after]. rewrite (spec_end_loop_passes l _ (a :: rest) Hl).
  rewrite (spec_end_loop_terminates a _ rest Ha).
  reflexivity.
Qed.

(** X6.  [format] takes a template apart from the left: the literal text
    in front of the first directive is written, with every doubled percent
    sign as one, the directive, which runs up to the first letter that is
    no length modifier, formats the first argument, and the rest of the
    template goes on with the remaining arguments. *)
Theorem X6_format_first_directive cfg (s l : list ascii) (a : ascii)
    (rest cb : list ascii) (v : value) (args : list value) (w : world) :
  nul_free s = true -> forallb passes l = true ->
  no_percent_ahead l = true -> terminates a = true ->
  format cfg (mkPtr cb (escape s ++ "%"%char :: l ++ a :: rest)) (v :: args) w
  = (formatValueBasic cfg
       (mkPtr ("%"%char :: rev (escape s) ++ cb) (l ++ a :: rest))
       (mkPtr (a :: rev l ++ "%"%char :: rev (escape s) ++ cb) rest) v ;;
     format cfg (mkPtr (a :: rev l ++ "%"%char :: rev (escape s) ++ cb) rest)
       args) (wrote s w).
Proof. apply format_first_directive. Qed.

Lemma X6_witness :
  format default_build
    (mkPtr [] (escape (chars "50% of ") ++ "%"%char :: chars "-08.3l" ++
               "d"%char :: chars " and %s"))
    [int 7; std_string "x"] (mkWorld ostringstream [])
  = (formatValueBasic default_build
       (mkPtr ("%"%char :: rev (escape (chars "50% of ")) ++ [])
          (chars "-08.3l" ++ "d"%char :: chars " and %s"))
       (mkPtr ("d"%char :: rev (chars "-08.3l") ++ "%"%char ::
               rev (escape (chars "50% of ")) ++ []) (chars " and %s"))
       (int 7) ;;
     format default_build
       (mkPtr ("d"%char :: rev (chars "-08.3l") ++ "%"%char ::
               rev (escape (chars "50% of ")) ++ []) (chars " and %s"))
       [std_string "x"])
    (wrote (chars "50% of ") (mkWorld ostringstream [])).
Proof.
  apply (@X6_format_first_directive default_build (chars "50% of ")
           (chars "-08.3l") "d" (chars " and %s") [] (int 7)
           [std_string "x"] (mkWorld ostringstream []));
    reflexivity.
Defined.

(** X11.  With no argument left, [format] writes the literal text in
    front of the first directive, hands the reason about too many
    conversion specifiers to the error handler and writes nothing of what
    follows; a single percent sign at the very end of the template is
    dropped without any error. *)
Theorem X11_format_without_arguments cfg (s cb : list ascii) (w : world) :
  nul_free s = true ->
  (forall x tail,
     (x =? "%")%char = false -> (x =? NUL)%char = false ->
     format cfg (mkPtr cb (escape s ++ "%"%char :: x :: tail)) [] w
     = TINYFORMAT_ERROR cfg err_too_many (wrote s w)) /\
  format cfg (mkPtr cb (escape s ++ ["%"%char])) [] w = (Done tt, wrote s w).
Proof.
  intros Hs. split.
  - intros x tail Hx Hn.
    rewrite (@format_nil_scanned cfg _ s
               (mkPtr ("%"%char :: rev (escape s) ++ cb) (x :: tail)) w).
    + unfold deref. cbn [after]. rewrite Hn. reflexivity.
    + apply printFormatStringLiteral_to_directive; [assumption |].
      cbn [no_percent_ahead]. now rewrite Hx.
  - rewrite (@format_nil_scanned cfg _ s
               (mkPtr ("%"%char :: rev (escape s) ++ cb) []) w).
    + reflexivity.
    + now apply printFormatStringLiteral_to_directive.
Qed.

Lemma X11_witness :
  format returning_build (mkPtr [] (escape (chars "a%b") ++ ["%"%char])) []
    (mkWorld ostringstream [])
  = (Done tt, wrote (chars "a%b") (mkWorld ostringstream [])).
Proof.
  apply (@X11_format_without_arguments returning_build (chars "a%b") []
           (mkWorld ostringstream [])).
  reflexivity.
Defined.

(* ------------------------------------------------------------------ *)
(** ** Templates of the documented form *)

Lemma advances_not_percent a : advances a = true -> (a =? "%")%char = false.
Proof.
  destruct a as [[] [] [] [] [] [] [] []]; vm_compute; congruence.
Qed.

Lemma directive_text_body fl wd prec lm conv :
  well_formed fl wd prec lm conv = true ->
  exists body, directive_text fl wd prec lm conv = body ++ [conv] /\
               forallb advances body = true.
Proof.
  intros H. apply well_formed_parts in H.
  destruct H as (F & W & _ & P & L & _).
  exists (fl ++ wd ++ match prec with Some ds => "."%char :: ds | None => [] end
             ++ lm).
  split; [unfold directive_text; now rewrite <- !app_assoc |].
  assert (A : forall l (p : ascii -> bool),
             (forall a, p a = true -> advances a = true) ->
             forallb p l = true -> forallb advances l = true).
  { intros l p Hp Hl. rewrite forallb_forall in *. auto. }
  rewrite !forallb_app. repeat (apply andb_true_intro; split).
  - apply (A fl is_flag); auto using advances_flag.
  - apply (A wd is_digit); auto using advances_digit.
  - destruct prec as [ds |]; [| reflexivity].
    simpl. apply (A ds is_digit); auto using advances_digit.
  - apply (A lm is_length_modifier); auto using advances_length.
Qed.

Lemma advancing_passes l : forallb advances l = true -> forallb passes l = true.
Proof.
  rewrite !forallb_forall. intros H x Hx. apply advances_passes. auto.
Qed.

Lemma advancing_no_percent l :
  forallb advances l = true -> no_percent_ahead l = true.
Proof.
  destruct l as [| x l]; [reflexivity |]. cbn [forallb no_percent_ahead].
  intros H. apply andb_prop in H. destruct H as [H _].
  now rewrite (advances_not_percent _ H).
Qed.

(** Every conversion but [n] is set up without an error. *)
Lemma set_conversion_supported cfg conv ps e w :
  (conv =? "n")%char = false ->
  exists r o', set_conversion cfg conv ps e w = (Done r, mkWorld o' (reported w)).
Proof.
  intros N. destruct w as [o rep]. unfold set_conversion.
  repeat match goal with
  | |- context [(conv =? ?x)%char] =>
      destruct (conv =? x)%char eqn:?; cbn [orb]; cbv beta iota
  end; try discriminate N;
    unfold bind, update, ret; cbn [out reported];
    eexists _, _; reflexivity.
Qed.

Lemma formatValueBasic_supported cfg fl wd prec lm conv cb post v w :
  well_formed fl wd prec lm conv = true -> (conv =? "n")%char = false ->
  exists w',
    formatValueBasic cfg
      (mkPtr cb (directive_text fl wd prec lm conv ++ post))
      (mkPtr (rev (directive_text fl wd prec lm conv) ++ cb) post) v w
    = (Done tt, w') /\
    reported w' = reported w /\ same_formatting (out w) (out w').
Proof.
  intros H N. unfold formatValueBasic, bind at 1, get_out. unfold bind at 1.
  rewrite (streamStateFromFormat_well_formed cfg fl wd prec lm conv cb post w H).
  unfold bind.
  destruct (set_conversion_supported cfg conv
              (match prec with Some _ => true | None => false end)
              (snd (flag_run fl (reset (out w), 0%Z)))
              (mkWorld (parsed_stream fl wd prec (out w)) (reported w)) N)
    as ([ic ef] & o' & E).
  rewrite E. cbn [fst snd reported].
  unfold integer_precision_fixup.
  destruct (ic && match prec with Some _ => true | None => false end &&
            negb (negb match wd with [] => true | _ :: _ => false end));
    unfold bind, update, ret; cbn [out reported];
    destruct (ef =? 0)%Z; cbn [out reported];
    eexists; (split; [reflexivity |]); repeat split.
Qed.

(** X7.  A template made of literal text and of directives of the form
    flags, width, precision, length modifiers, conversion letter, with any
    letter but [n] for the conversion, given exactly as many arguments as
    it has directives, is formatted without any error in every build:
    [format] returns, nothing is handed to the error handler and the
    formatting state of the stream is as before. *)
Theorem X7_well_formed_template_is_safe cfg
    (parts : list (list ascii * directive)) (last : list ascii)
    (args : list value) (cb : list ascii) (w : world) :
  forallb (fun p => nul_free (fst p) && supported (snd p)) parts = true ->
  nul_free last = true -> List.length args = List.length parts ->
  exists w',
    format cfg (mkPtr cb (template parts last)) args w = (Done tt, w') /\
    reported w' = reported w /\ same_formatting (out w) (out w').
Proof.
  revert last args cb w.
  induction parts as [| [s d] parts IH]; intros last args cb w Hp Hl Hn.
  - destruct args; [| discriminate Hn]. cbn [template].
    rewrite format_escape by assumption.
    eexists. split; [reflexivity |]. repeat split.
  - destruct args as [| v args]; [discriminate Hn |].
    cbn [forallb fst snd] in Hp. apply andb_prop in Hp.
    destruct Hp as [Hsd Hp]. apply andb_prop in Hsd. destruct Hsd as [Hs Hd].
    unfold supported in Hd. apply andb_prop in Hd. destruct Hd as [Hw Hc].
    apply negb_true_iff in Hc.
    destruct (directive_text_body _ _ _ _ _ Hw) as (body & Eb & Ab).
    pose proof (well_formed_parts _ _ _ _ _ Hw) as (_ & _ & _ & _ & _ & T).
    cbn [template]. unfold directive_chars.
    assert (Et : directive_text (dflags d) (dwidth d) (dprecision d)
                   (dlength d) (dconv d) ++ template parts last
                 = body ++ dconv d :: template parts last)
      by (rewrite Eb, <- app_assoc; reflexivity).
    rewrite Et.
    rewrite (@format_first_directive cfg s body (dconv d)
               (template parts last) cb v args w Hs (advancing_passes _ Ab)
               (advancing_no_percent _ Ab) T).
    unfold bind at 1.
    destruct (@formatValueBasic_supported cfg (dflags d) (dwidth d)
                (dprecision d) (dlength d) (dconv d)
                ("%"%char :: rev (escape s) ++ cb) (template parts last) v
                (wrote s w) Hw Hc) as (w1 & E1 & R1 & S1).
    rewrite Et in E1. rewrite Eb, rev_app_distr in E1. cbn [rev app] in E1.
    rewrite E1.
    injection Hn as Hn.
    destruct (IH last args (dconv d :: rev body ++ "%"%char :: rev (escape s)
                              ++ cb) w1 Hp Hl Hn) as (w2 & E2 & R2 & S2).
    cbn [wrote reported] in R1.
    exists w2. split; [exact E2 |]. split; [congruence |].
    eapply same_formatting_trans; [| exact S2].
    eapply same_formatting_trans; [| exact S1].
    repeat split.
Qed.

Lemma X7_witness :
  template [(chars "100% of ", mkDirective (chars "-0") (chars "8")
                                 (Some (chars "3")) (chars "l") "d");
            (chars " in ", mkDirective [] [] None [] "q")] (chars "!")
  = chars "100%% of %-08.3ld in %q!" /\
  exists w',
    format default_build
      (mkPtr [] (template
                   [(chars "100% of ", mkDirective (chars "-0") (chars "8")
                                         (Some (chars "3")) (chars "l") "d");
                    (chars " in ", mkDirective [] [] None [] "q")]
                   (chars "!")))
      [int 7; std_string "x"] (mkWorld ostringstream [])
    = (Done tt, w') /\
    reported w' = [] /\ same_formatting ostringstream (out w').
Proof.
  split; [reflexivity |].
  apply (@X7_well_formed_template_is_safe default_build
           [(chars "100% of ", mkDirective (chars "-0") (chars "8")
                                 (Some (chars "3")) (chars "l") "d");
            (chars " in ", mkDirective [] [] None [] "q")] (chars "!")
           [int 7; std_string "x"] [] (mkWorld ostringstream []));
    reflexivity.
Defined.

(* ------------------------------------------------------------------ *)
(** ** How a call can end *)

Section Hook.

Variable cfg : config.

Lemma hook_ret {A} (a : A) w : ends_by_hook cfg (ret a) w.
Proof. exists []. now rewrite app_nil_r. Qed.

Lemma hook_update f w : ends_by_hook cfg (update f) w.
Proof. exists []. cbn [reported]. now rewrite app_nil_r. Qed.

Lemma hook_get_out w : ends_by_hook cfg get_out w.
Proof. exists []. now rewrite app_nil_r. Qed.

Lemma hook_set_out o w : ends_by_hook cfg (set_out o) w.
Proof. exists []. cbn [reported]. now rewrite app_nil_r. Qed.

Lemma hook_assert_true w : ends_by_hook cfg (assert cfg true) w.
Proof. exists []. now rewrite app_nil_r. Qed.

Lemma hook_error r w : ends_by_hook cfg (TINYFORMAT_ERROR cfg r) w.
Proof.
  unfold ends_by_hook, TINYFORMAT_ERROR.
  destruct (TINYFORMAT_ERROR_as cfg) eqn:H;
    [destruct (NDEBUG cfg) eqn:N | |]; cbn [reported].
  - now exists [r].
  - repeat split. now exists [], r.
  - split; [reflexivity |]. now exists [].
  - now exists [r].
Qed.

Lemma hook_bind_with {A B} (m : M A) (k : A -> M B) w
    (Q : A -> world -> Prop) (X : world -> Prop) :
  outcome m w Q X -> ends_by_hook cfg m w ->
  (forall a w', Q a w' -> ends_by_hook cfg (k a) w') ->
  ends_by_hook cfg (bind m k) w.
Proof.
  unfold outcome, ends_by_hook, bind. intros HQ Hm Hk.
  destruct (m w) as [[a | r |] w1]; [| exact Hm | exact Hm].
  specialize (Hk a w1 HQ). destruct Hm as (m1 & E1).
  destruct (k a w1) as [[b | r |] w2].
  - destruct Hk as (m2 & E2). exists (m1 ++ m2).
    now rewrite E2, E1, app_assoc.
  - destruct Hk as (T & m2 & E2). split; [exact T |]. exists (m1 ++ m2).
    now rewrite E2, E1, <- !app_assoc.
  - destruct Hk as (T & N & m2 & r & E2). repeat split; auto.
    exists (m1 ++ m2), r. now rewrite E2, E1, <- !app_assoc.
Qed.

Lemma hook_bind {A B} (m : M A) (k : A -> M B) w :
  ends_by_hook cfg m w -> (forall a w', ends_by_hook cfg (k a) w') ->
  ends_by_hook cfg (bind m k) w.
Proof.
  intros Hm Hk.
  apply (@hook_bind_with _ _ m k w (fun _ _ => True) (fun _ => True));
    auto.
  unfold outcome. destruct (m w) as [[] ?]; exact I.
Qed.

End Hook.

(** Computations put together from the primitives, without [assert]. *)
Ltac hook :=
  repeat match goal with
  | |- ends_by_hook ?cfg (ret _) _ => apply (@hook_ret cfg)
  | |- ends_by_hook ?cfg (update _) _ => apply (@hook_update cfg)
  | |- ends_by_hook ?cfg (TINYFORMAT_ERROR _ _) _ => apply (@hook_error cfg)
  | |- ends_by_hook ?cfg get_out _ => apply (@hook_get_out cfg)
  | |- ends_by_hook ?cfg (set_out _) _ => apply (@hook_set_out cfg)
  | |- ends_by_hook ?cfg (assert _ true) _ => apply (@hook_assert_true cfg)
  | |- ends_by_hook ?cfg (bind _ _) _ =>
      apply (@hook_bind cfg); [| intros ? ?]
  | |- ends_by_hook _ (if ?b then _ else _) _ => destruct b
  | |- ends_by_hook _ (match ?p with (_, _) => _ end) _ => destruct p
  | |- ends_by_hook _ (let '(_, _) := ?p in _) _ => destruct p
  | |- ends_by_hook _ (match ?p with Some _ => _ | None => _ end) _ =>
      destruct p
  end.

Section HookInterpreter.

Variables (cfg : config) (cb l stop : list ascii) (fmtEnd : cptr).
Hypothesis Hstop : stops stop = true.
Hypothesis Hend : (List.length l + List.length cb <= offset fmtEnd)%nat.

Lemma streamStateFromFormat_hook w :
  ends_by_hook cfg (streamStateFromFormat cfg (mkPtr cb (l ++ stop)) fmtEnd) w.
Proof.
  unfold streamStateFromFormat.
  apply hook_bind; [unfold reset_stream_state; hook |]. intros [] w0.
  apply hook_bind; [hook |]. intros o w1. cbn [before after].
  pose proof (parse_flags_steps (l ++ stop) o 0 cb) as S.
  destruct (parse_flags o 0 cb (l ++ stop)) as [[o' ef] c]. cbn [snd] in S.
  cbv beta iota.
  assert (W : within cb l stop c)
    by (eapply within_steps; eauto; apply within_start).
  apply hook_bind; [hook |]. intros [] w2.
  eapply hook_bind_with;
    [apply parse_width_spec; eauto | unfold parse_width; hook |].
  intros [widthSet c1] w3 (W1 & _). cbn [snd] in W1. cbv beta iota.
  eapply hook_bind_with;
    [apply parse_precision_spec; eauto | unfold parse_precision; hook |].
  intros [precisionSet c2] w4 (W2 & _). cbn [snd] in W2.
  cbv beta iota zeta.
  apply hook_bind; [unfold set_conversion; hook |]. intros [ic ef'] w5.
  cbv beta iota.
  apply hook_bind; [unfold integer_precision_fixup; hook |]. intros [] w6.
  assert (Hle : ptr_le (skip_length_modifiers c2) fmtEnd = true).
  { unfold ptr_le. apply Nat.leb_le.
    assert (W3 : within cb l stop (skip_length_modifiers c2))
      by (eapply within_steps; eauto; apply skip_length_modifiers_steps).
    apply within_offset in W3. lia. }
  rewrite Hle. hook.
Qed.

End HookInterpreter.

Section HookFormat.

Variable cfg : config.

Lemma formatValueBasic_hook fmtBegin v w :
  ends_by_hook cfg (formatValueBasic cfg fmtBegin (spec_end fmtBegin) v) w.
Proof.
  unfold formatValueBasic.
  apply hook_bind; [hook |]. intros o w1.
  apply hook_bind; [| intros ef w2; hook].
  destruct fmtBegin as [cb pa].
  destruct (split_advancing pa) as (l & stop & -> & F & S).
  apply streamStateFromFormat_hook; [assumption |].
  now apply spec_end_bound.
Qed.

Lemma findFormatSpecEnd_hook p w :
  ends_by_hook cfg (findFormatSpecEnd cfg p) w.
Proof. unfold findFormatSpecEnd. hook. Qed.

Lemma hook_wrote {A} (m m' : M A) t w :
  m' w = m (wrote t w) -> ends_by_hook cfg m (wrote t w) ->
  ends_by_hook cfg m' w.
Proof. unfold ends_by_hook. intros ->. exact (fun H => H). Qed.

End HookFormat.

(** X8.  A call of [format] that does not return was ended by the error
    handler and by nothing else: the assertion inside the directive
    interpreter never fails.  If the call throws, the build is one whose
    handler throws and the exception is the reason reported last; if it
    aborts, the handler is the default [assert], assertions are on, and a
    reason was reported.  Reports are only ever added. *)
Theorem X8_format_fails_only_by_the_error_hook cfg (fmt : cptr)
    (args : list value) (w : world) :
  match format cfg fmt args w with
  | (Done _, w') => exists msgs, reported w' = reported w ++ msgs
  | (Thrown r, w') =>
      TINYFORMAT_ERROR_as cfg = hook_throw /\
      exists msgs, reported w' = reported w ++ msgs ++ [r]
  | (Aborted, w') =>
      TINYFORMAT_ERROR_as cfg = hook_assert /\ NDEBUG cfg = false /\
      exists msgs r, reported w' = reported w ++ msgs ++ [r]
  end.
Proof.
  change (ends_by_hook cfg (format cfg fmt args) w).
  revert fmt w.
  induction args as [| v args IH]; intros fmt w;
    destruct (printFormatStringLiteral_put fmt) as (t & c & E).
  - eapply hook_wrote; [apply (@format_nil_scanned cfg fmt t c w E) |].
    hook.
  - eapply hook_wrote; [apply (@format_cons_scanned cfg fmt t c v args w E) |].
    eapply hook_bind_with;
      [apply findFormatSpecEnd_spec | apply findFormatSpecEnd_hook |].
    intros e w1 (-> & _).
    apply hook_bind; [apply formatValueBasic_hook |]. intros [] w2.
    apply IH.
Qed.

(* ------------------------------------------------------------------ *)
(** ** What the interpreter does not support *)

Lemma set_conversion_n cfg ps e :
  set_conversion cfg "n" ps e
  = (TINYFORMAT_ERROR cfg err_percent_n ;; ret (false, e)).
Proof. reflexivity. Qed.

(** How a call ends and what it has reported, the error handler having
    been given [reason] once and nothing else having been reported. *)
Lemma formatValueBasic_one_error cfg b e v w reason (o1 : ostream) ef
    (k : M unit) :
  streamStateFromFormat cfg b e w
  = (TINYFORMAT_ERROR cfg reason ;; k ;; ret ef) (mkWorld o1 (reported w)) ->
  (forall w1, exists o2, k w1 = (Done tt, mkWorld o2 (reported w1))) ->
  fst (formatValueBasic cfg b e v w) = fst (TINYFORMAT_ERROR cfg reason w) /\
  reported (snd (formatValueBasic cfg b e v w)) = reported w ++ [reason].
Proof.
  intros S K.
  destruct (K (mkWorld o1 (reported w ++ [reason]))) as (o2 & E).
  cbn [reported] in E.
  assert (S' : streamStateFromFormat cfg b e w
               = match TINYFORMAT_ERROR_as cfg with
                 | hook_return =>
                     (Done ef, mkWorld o2 (reported w ++ [reason]))
                 | hook_throw =>
                     (Thrown reason, mkWorld o1 (reported w ++ [reason]))
                 | hook_assert =>
                     if NDEBUG cfg
                     then (Done ef, mkWorld o2 (reported w ++ [reason]))
                     else (Aborted, mkWorld o1 (reported w ++ [reason]))
                 end).
  { rewrite S. unfold bind, TINYFORMAT_ERROR.
    destruct (TINYFORMAT_ERROR_as cfg); [destruct (NDEBUG cfg) | |];
      cbn [out reported]; rewrite ?E; reflexivity. }
  clear S. unfold formatValueBasic, bind, get_out. rewrite S'.
  unfold TINYFORMAT_ERROR.
  destruct (TINYFORMAT_ERROR_as cfg); [destruct (NDEBUG cfg) | |];
    try (split; reflexivity);
    unfold update; destruct (ef =? 0)%Z; split; reflexivity.
Qed.

(** X9.  The conversion [n] is not supported: a directive that ends in it
    hands the reason about the n conversion to the error handler, once,
    and nothing else; the call ends as the handler does. *)
Theorem X9_percent_n_is_reported cfg (fl wd : list ascii)
    (prec : option (list ascii)) (lm cb post : list ascii) (v : value)
    (w : world) :
  well_formed fl wd prec lm "n" = true ->
  fst (formatValueBasic cfg
         (mkPtr cb (directive_text fl wd prec lm "n" ++ post))
         (spec_end (mkPtr cb (directive_text fl wd prec lm "n" ++ post))) v w)
  = fst (TINYFORMAT_ERROR cfg err_percent_n w) /\
  reported (snd (formatValueBasic cfg
                   (mkPtr cb (directive_text fl wd prec lm "n" ++ post))
                   (spec_end
                      (mkPtr cb (directive_text fl wd prec lm "n" ++ post)))
                   v w))
  = reported w ++ [err_percent_n].
Proof.
  intros H. rewrite spec_end_well_formed by assumption.
  apply (@formatValueBasic_one_error cfg _ _ v w err_percent_n
           (parsed_stream fl wd prec (out w))
           (snd (flag_run fl (reset (out w), 0%Z))) (ret tt)).
  - rewrite streamStateFromFormat_well_formed by assumption.
    rewrite set_conversion_n. unfold bind, TINYFORMAT_ERROR, ret.
    destruct (TINYFORMAT_ERROR_as cfg); [destruct (NDEBUG cfg) | |];
      reflexivity.
  - intros [o1 r1]. exists o1. reflexivity.
Qed.

Lemma X9_witness :
  fst (formatValueBasic throwing_build
         (mkPtr ["%"%char] (directive_text [] (chars "5") None (chars "l") "n"
                              ++ chars "!"))
         (spec_end
            (mkPtr ["%"%char] (directive_text [] (chars "5") None (chars "l")
                                 "n" ++ chars "!")))
         (int 1) (mkWorld ostringstream []))
  = Thrown err_percent_n.
Proof.
  apply (@X9_percent_n_is_reported throwing_build [] (chars "5") None
           (chars "l") ["%"%char] (chars "!") (int 1)
           (mkWorld ostringstream [])).
  reflexivity.
Defined.

Lemma spec_end_bound_passes cb l stop :
  forallb passes l = true ->
  (List.length l + List.length cb
   <= offset (spec_end (mkPtr cb (l ++ stop))))%nat.
Proof.
  intros F. unfold spec_end. cbn [before after].
  rewrite spec_end_loop_passes by assumption.
  destruct (spec_end_loop_offset stop (rev l ++ cb)) as [H1 H2].
  rewrite length_app, length_rev in H1, H2.
  destruct (spec_end_loop (rev l ++ cb) stop) as [[e |] c]; simpl in *; lia.
Qed.

Section Star.

Variable cfg : config.

(** Width: digits, if any, and then a star. *)
Lemma parse_width_star wd cb tail w :
  forallb is_digit wd = true ->
  parse_width cfg (mkPtr cb (wd ++ "*"%char :: tail)) w
  = (TINYFORMAT_ERROR cfg err_variable_width ;;
     ret (negb (match wd with [] => true | _ => false end),
          mkPtr (rev wd ++ cb) ("*"%char :: tail)))
    (mkWorld (match wd with
              | [] => out w
              | _ :: _ => set_width (int_value wd) (out w)
              end) (reported w)).
Proof.
  intros D. unfold parse_width. destruct wd as [| d wd].
  - cbn [app rev]. unfold deref at 1. cbn [after].
    change (is_digit "*") with false. cbv iota.
    unfold bind at 1. unfold ret at 1. cbv iota beta.
    unfold deref. cbn [after]. cbn [Ascii.eqb Bool.eqb andb].
    destruct w; reflexivity.
  - simpl in D. apply andb_prop in D. destruct D as [Dd Dds].
    unfold deref at 1. cbn [after app]. rewrite Dd.
    unfold parseIntAndAdvance. cbn [before after].
    change (d :: wd ++ "*"%char :: tail) with ((d :: wd) ++ "*"%char :: tail).
    rewrite parseInt_loop_digits.
    + unfold bind at 1. unfold bind at 1. unfold update at 1.
      unfold ret at 1. cbv iota beta. cbn [out reported].
      unfold deref. cbn [after]. cbn [Ascii.eqb Bool.eqb andb].
      reflexivity.
    + simpl. now rewrite Dd.
    + right. right. exists "*"%char, tail. auto.
Qed.

Lemma parse_precision_at_star cb tail w :
  parse_precision cfg (mkPtr cb ("*"%char :: tail)) w
  = (Done (false, mkPtr cb ("*"%char :: tail)), w).
Proof. reflexivity. Qed.

Lemma set_conversion_star ps e :
  set_conversion cfg "*" ps e = ret (false, e).
Proof. reflexivity. Qed.

Lemma streamStateFromFormat_width_star fl wd tail cb fmtEnd w :
  forallb is_flag fl = true -> forallb is_digit wd = true ->
  no_flag_ahead wd = true ->
  (List.length (fl ++ wd) + List.length cb < offset fmtEnd)%nat ->
  streamStateFromFormat cfg (mkPtr cb (fl ++ wd ++ "*"%char :: tail)) fmtEnd w
  = (TINYFORMAT_ERROR cfg err_variable_width ;; ret tt ;;
     ret (snd (flag_run fl (reset (out w), 0%Z))))
    (mkWorld (width_stream fl wd (out w)) (reported w)).
Proof.
  intros F W NF Hoff.
  assert (NF1 : no_flag_ahead (wd ++ "*"%char :: tail) = true)
    by (destruct wd; [reflexivity | exact NF]).
  unfold streamStateFromFormat, reset_stream_state.
  unfold bind at 1 2 3 4 5 6. unfold update at 1 2 3 4.
  unfold get_out, set_out. cbn [out reported before after].
  change (unsetf reset_mask
            (set_fill " " (set_precision 6 (set_width 0 (out w)))))
    with (reset (out w)).
  unfold width_stream.
  rewrite parse_flags_run by assumption.
  destruct (flag_run fl (reset (out w), 0%Z)) as [o1 e1]. cbn [fst snd].
  unfold bind at 1. rewrite parse_width_star by assumption.
  cbn [out reported].
  assert (Hlt : ptr_lt (mkPtr (rev wd ++ rev fl ++ cb) ("*"%char :: tail))
                  fmtEnd = true).
  { unfold ptr_lt. apply Nat.ltb_lt. unfold offset at 1. cbn [before].
    rewrite !length_app, !length_rev. rewrite length_app in Hoff. lia. }
  assert (Hle : ptr_le (mkPtr (rev wd ++ rev fl ++ cb) ("*"%char :: tail))
                  fmtEnd = true).
  { unfold ptr_le. apply Nat.leb_le. unfold ptr_lt in Hlt.
    apply Nat.ltb_lt in Hlt. lia. }
  unfold bind at 1 6. unfold TINYFORMAT_ERROR.
  destruct (TINYFORMAT_ERROR_as cfg); [destruct (NDEBUG cfg) | |];
    try reflexivity;
    unfold ret at 1; cbv iota beta; unfold bind at 1;
    rewrite parse_precision_at_star; cbv iota beta;
    unfold skip_length_modifiers; cbn [before after skip_length_loop];
    change (is_length_modifier "*") with false; cbv iota;
    rewrite Hlt, Hle; unfold deref; cbn [after];
    rewrite set_conversion_star; reflexivity.
Qed.

(** Precision: a dot and then a star. *)
Lemma parse_precision_star cb tail w :
  parse_precision cfg (mkPtr cb ("."%char :: "*"%char :: tail)) w
  = (TINYFORMAT_ERROR cfg err_variable_precision ;;
     update (set_precision 0) ;;
     ret (true, mkPtr ("."%char :: cb) ("*"%char :: tail))) w.
Proof. reflexivity. Qed.

Lemma streamStateFromFormat_precision_star fl wd tail cb fmtEnd w :
  forallb is_flag fl = true -> forallb is_digit wd = true ->
  no_flag_ahead wd = true ->
  (List.length (fl ++ wd) + 1 + List.length cb < offset fmtEnd)%nat ->
  streamStateFromFormat cfg
    (mkPtr cb (fl ++ wd ++ "."%char :: "*"%char :: tail)) fmtEnd w
  = (TINYFORMAT_ERROR cfg err_variable_precision ;;
     update (set_precision 0) ;;
     ret (snd (flag_run fl (reset (out w), 0%Z))))
    (mkWorld (width_stream fl wd (out w)) (reported w)).
Proof.
  intros F W NF Hoff.
  assert (NF1 : no_flag_ahead (wd ++ "."%char :: "*"%char :: tail) = true)
    by (destruct wd; [reflexivity | exact NF]).
  unfold streamStateFromFormat, reset_stream_state.
  unfold bind at 1 2 3 4 5 6. unfold update at 1 2 3 4.
  unfold get_out, set_out. cbn [out reported before after].
  change (unsetf reset_mask
            (set_fill " " (set_precision 6 (set_width 0 (out w)))))
    with (reset (out w)).
  unfold width_stream.
  rewrite parse_flags_run by assumption.
  destruct (flag_run fl (reset (out w), 0%Z)) as [o1 e1]. cbn [fst snd].
  unfold bind at 1.
  rewrite parse_width_exact
    by (try assumption; right; eexists; reflexivity).
  cbn [out reported].
  assert (Hlt : ptr_lt (mkPtr ("."%char :: rev wd ++ rev fl ++ cb)
                          ("*"%char :: tail)) fmtEnd = true).
  { unfold ptr_lt. apply Nat.ltb_lt. unfold offset at 1. cbn [before].
    cbn [List.length]. rewrite !length_app, !length_rev.
    rewrite length_app in Hoff. lia. }
  assert (Hle : ptr_le (mkPtr ("."%char :: rev wd ++ rev fl ++ cb)
                          ("*"%char :: tail)) fmtEnd = true).
  { unfold ptr_le. apply Nat.leb_le. unfold ptr_lt in Hlt.
    apply Nat.ltb_lt in Hlt. lia. }
  unfold bind at 1. rewrite parse_precision_star.
  unfold bind at 1 6. unfold TINYFORMAT_ERROR.
  destruct (TINYFORMAT_ERROR_as cfg); [destruct (NDEBUG cfg) | |];
    try reflexivity;
    unfold bind at 1; unfold update at 1; unfold ret at 1;
    cbv iota beta; cbn [out reported];
    unfold skip_length_modifiers; cbn [before after skip_length_loop];
    change (is_length_modifier "*") with false; cbv iota;
    rewrite Hlt, Hle; unfold deref; cbn [after];
    rewrite set_conversion_star; reflexivity.
Qed.

End Star.

Lemma flags_digits_pass fl wd :
  forallb is_flag fl = true -> forallb is_digit wd = true ->
  forallb passes (fl ++ wd) = true.
Proof.
  intros F W. rewrite forallb_app. apply andb_true_intro. split.
  - rewrite forallb_forall in *. intros x Hx.
    apply advances_passes, advances_flag. auto.
  - rewrite forallb_forall in *. intros x Hx.
    apply advances_passes, advances_digit. auto.
Qed.

(** X10.  A star for the width or for the precision is not supported: a
    directive with a star where the width ends, or right behind the dot,
    hands the reason about variable widths, or about variable precision,
    to the error handler, once, and nothing else; the call ends as the
    handler does. *)
Theorem X10_star_is_reported cfg (fl wd tail cb : list ascii) (v : value)
    (w : world) :
  forallb is_flag fl = true -> forallb is_digit wd = true ->
  no_flag_ahead wd = true ->
  (fst (formatValueBasic cfg (mkPtr cb (fl ++ wd ++ "*"%char :: tail))
          (spec_end (mkPtr cb (fl ++ wd ++ "*"%char :: tail))) v w)
   = fst (TINYFORMAT_ERROR cfg err_variable_width w) /\
   reported (snd (formatValueBasic cfg
                    (mkPtr cb (fl ++ wd ++ "*"%char :: tail))
                    (spec_end (mkPtr cb (fl ++ wd ++ "*"%char :: tail))) v w))
   = reported w ++ [err_variable_width]) /\
  (fst (formatValueBasic cfg
          (mkPtr cb (fl ++ wd ++ "."%char :: "*"%char :: tail))
          (spec_end (mkPtr cb (fl ++ wd ++ "."%char :: "*"%char :: tail)))
          v w)
   = fst (TINYFORMAT_ERROR cfg err_variable_precision w) /\
   reported (snd (formatValueBasic cfg
                    (mkPtr cb (fl ++ wd ++ "."%char :: "*"%char :: tail))
                    (spec_end
                       (mkPtr cb (fl ++ wd ++ "."%char :: "*"%char :: tail)))
                    v w))
   = reported w ++ [err_variable_precision]).
Proof.
  intros F W NF. pose proof (flags_digits_pass fl wd F W) as P. split.
  - apply (@formatValueBasic_one_error cfg _ _ v w err_variable_width
             (width_stream fl wd (out w))
             (snd (flag_run fl (reset (out w), 0%Z))) (ret tt)).
    + apply streamStateFromFormat_width_star; try assumption.
      assert (P1 : forallb passes ((fl ++ wd) ++ ["*"%char]) = true)
        by (rewrite forallb_app, P; reflexivity).
      pose proof (spec_end_bound_passes cb ((fl ++ wd) ++ ["*"%char]) tail P1)
        as B.
      rewrite <- !app_assoc in B. cbn [app] in B.
      rewrite !length_app in B. cbn [List.length] in B.
      rewrite length_app. lia.
    + intros [o1 r1]. exists o1. reflexivity.
  - apply (@formatValueBasic_one_error cfg _ _ v w err_variable_precision
             (width_stream fl wd (out w))
             (snd (flag_run fl (reset (out w), 0%Z)))
             (update (set_precision 0))).
    + apply streamStateFromFormat_precision_star; try assumption.
      assert (P1 : forallb passes ((fl ++ wd) ++ ["."%char; "*"%char]) = true)
        by (rewrite forallb_app, P; reflexivity).
      pose proof (spec_end_bound_passes cb
                    ((fl ++ wd) ++ ["."%char; "*"%char]) tail P1) as B.
      rewrite <- !app_assoc in B. cbn [app] in B.
      rewrite !length_app in B. cbn [List.length] in B.
      rewrite length_app. lia.
    + intros [o1 r1]. eexists. reflexivity.
Qed.

Lemma X10_witness :
  fst (formatValueBasic throwing_build
         (mkPtr ["%"%char] (chars "-" ++ chars "" ++ "*"%char :: chars "d|"))
         (spec_end
            (mkPtr ["%"%char] (chars "-" ++ chars "" ++ "*"%char :: chars "d|")))
         (int 1) (mkWorld ostringstream []))
  = Thrown err_variable_width.
Proof.
  apply (@X10_star_is_reported throwing_build (chars "-") (chars "")
           (chars "d|") ["%"%char] (int 1) (mkWorld ostringstream []));
    reflexivity.
Defined.

(* ------------------------------------------------------------------ *)
(** ** More arguments than directives *)

Lemma printFormatStringLiteral_escape s cb :
  nul_free s = true ->
  forall o, printFormatStringLiteral o (mkPtr cb (escape s))
            = (put s o, mkPtr (rev (escape s) ++ cb) []).
Proof.
  intros Hs o. unfold printFormatStringLiteral. cbn [before after].
  exact (literal_loop_escape s o cb [] Hs).
Qed.

(** At the end of the string the interpreter finds the empty directive:
    the stream is reset and nothing else. *)
Lemma streamStateFromFormat_at_end cfg x w :
  streamStateFromFormat cfg (mkPtr x []) (mkPtr x []) w
  = (Done 0%Z, mkWorld (reset (out w)) (reported w)).
Proof.
  unfold streamStateFromFormat, reset_stream_state, parse_width,
    parse_precision, skip_length_modifiers.
  unfold bind, update, get_out, set_out, ret.
  cbn [out reported before after parse_flags deref skip_length_loop].
  change (is_digit NUL) with false.
  cbn [NUL out reported before after parse_flags deref skip_length_loop
       Ascii.eqb Bool.eqb andb].
  unfold ptr_lt, ptr_le. rewrite Nat.ltb_irrefl, Nat.leb_refl.
  reflexivity.
Qed.

Lemma formatValueBasic_at_end cfg x v w :
  formatValueBasic cfg (mkPtr x []) (mkPtr x []) v w
  = (Done tt,
     mkWorld (copyfmt (formatValue cfg (reset (out w)) (mkPtr x [])
                         (mkPtr x []) v) (out w))
       (reported w)).
Proof.
  unfold formatValueBasic, bind at 1, get_out. unfold bind at 1.
  rewrite streamStateFromFormat_at_end. reflexivity.
Qed.

(** X12.  With an argument left and no directive in the rest of the
    template, [format] writes the rest and gives the reason about not
    enough conversion specifiers to the error handler.  In a build whose
    handler returns it then reports the unterminated conversion as well,
    prints the argument by its own rules on the reset stream, and goes on
    with the remaining arguments at the end of the string. *)
Theorem X12_format_with_surplus_argument cfg (s cb : list ascii) (v : value)
    (args : list value) (w : world) :
  nul_free s = true ->
  (error_returns cfg = false ->
   format cfg (mkPtr cb (escape s)) (v :: args) w
   = (fst (TINYFORMAT_ERROR cfg err_not_enough w),
      mkWorld (put s (out w)) (reported w ++ [err_not_enough]))) /\
  (error_returns cfg = true ->
   format cfg (mkPtr cb (escape s)) (v :: args) w
   = format cfg (mkPtr (rev (escape s) ++ cb) []) args
       (mkWorld
          (copyfmt (formatValue cfg (reset (put s (out w)))
                      (mkPtr (rev (escape s) ++ cb) [])
                      (mkPtr (rev (escape s) ++ cb) []) v)
             (out w))
          (reported w ++ [err_not_enough; err_unterminated]))).
Proof.
  intros Hs.
  rewrite (@format_cons_scanned cfg _ s (mkPtr (rev (escape s) ++ cb) []) v
             args w (printFormatStringLiteral_escape s cb Hs)).
  unfold error_returns.
  change (findFormatSpecEnd cfg (mkPtr (rev (escape s) ++ cb) []))
    with (TINYFORMAT_ERROR cfg err_not_enough ;;
          TINYFORMAT_ERROR cfg err_unterminated ;;
          ret (mkPtr (rev (escape s) ++ cb) [])).
  split; intros Hr.
  - unfold bind, TINYFORMAT_ERROR.
    destruct (TINYFORMAT_ERROR_as cfg); [destruct (NDEBUG cfg) | |];
      try discriminate Hr; reflexivity.
  - assert (E : (TINYFORMAT_ERROR cfg err_not_enough ;;
                 TINYFORMAT_ERROR cfg err_unterminated ;;
                 ret (mkPtr (rev (escape s) ++ cb) [])) (wrote s w)
                = (Done (mkPtr (rev (escape s) ++ cb) []),
                   mkWorld (put s (out w))
                     (reported w ++ [err_not_enough; err_unterminated]))).
    { unfold bind, TINYFORMAT_ERROR, ret.
      destruct (TINYFORMAT_ERROR_as cfg); [destruct (NDEBUG cfg) | |];
        try discriminate Hr; cbn [out reported wrote];
        rewrite <- app_assoc; reflexivity. }
    unfold bind at 1. rewrite E. unfold bind at 1.
    rewrite formatValueBasic_at_end. reflexivity.
Qed.

Lemma X12_witness :
  format throwing_build (mkPtr [] (escape (chars "total: "))) [int 5]
    (mkWorld ostringstream [])
  = (Thrown err_not_enough,
     mkWorld (put (chars "total: ") ostringstream) [err_not_enough]).
Proof.
  apply (@X12_format_with_surplus_argument throwing_build (chars "total: ") []
           (int 5) [] (mkWorld ostringstream []));
    reflexivity.
Defined.

(* ------------------------------------------------------------------ *)
(** ** C strings *)

Lemma formatValue_c_string_pointer cfg o b e addr s :
  deref_prev e = "p"%char ->
  formatValue cfg o b e (c_string addr s) = insert_voidptr o addr.
Proof.
  intros H. cbn [formatValue]. unfold formatValue_generic.
  cbn [Insertable_c_string convert_char convert_voidptr]. now rewrite H.
Qed.

Lemma flag_run_extra fl o e :
  forallb is_flag fl = true ->
  Z.land (snd (flag_run fl (o, e))) Flag_TruncateToPrecision
  = Z.land e Flag_TruncateToPrecision.
Proof.
  intros F.
  pose proof (parse_flags_extra (fl ++ []) o e []) as X.
  rewrite (parse_flags_run fl o e [] [] F eq_refl) in X. exact X.
Qed.

(** X13.  Under the conversion [p] a C string is printed as an address
    and its characters are never read: two strings at one address format
    alike, whatever they hold. *)
Theorem X13_pointer_conversion_does_not_read cfg (fl wd : list ascii)
    (prec : option (list ascii)) (lm cb post : list ascii) (addr : Z)
    (s1 s2 : list ascii) (w : world) :
  well_formed fl wd prec lm "p" = true ->
  formatValueBasic cfg
    (mkPtr cb (directive_text fl wd prec lm "p" ++ post))
    (spec_end (mkPtr cb (directive_text fl wd prec lm "p" ++ post)))
    (c_string addr s1) w
  = formatValueBasic cfg
      (mkPtr cb (directive_text fl wd prec lm "p" ++ post))
      (spec_end (mkPtr cb (directive_text fl wd prec lm "p" ++ post)))
      (c_string addr s2) w.
Proof.
  intros H. rewrite spec_end_well_formed by assumption.
  pose proof (well_formed_parts _ _ _ _ _ H) as (F & _).
  set (e1 := snd (flag_run fl (reset (out w), 0%Z))).
  assert (S : exists w1,
            streamStateFromFormat cfg
              (mkPtr cb (directive_text fl wd prec lm "p" ++ post))
              (mkPtr (rev (directive_text fl wd prec lm "p") ++ cb) post) w
            = (Done e1, w1)).
  { rewrite (streamStateFromFormat_well_formed cfg fl wd prec lm "p" cb post
               w H).
    change (set_conversion cfg "p"
              match prec with Some _ => true | None => false end
              (snd (flag_run fl (reset (out w), 0%Z))))
      with (update (setf_mask ios.hex ios.basefield) ;; ret (true, e1)).
    unfold integer_precision_fixup, bind, update, ret. cbn [fst snd].
    destruct (true && match prec with Some _ => true | None => false end &&
              negb (negb match wd with [] => true | _ :: _ => false end));
      eexists; reflexivity. }
  destruct S as (w1 & S).
  assert (T : has_extra e1 Flag_TruncateToPrecision = false).
  { unfold has_extra, e1. now rewrite flag_run_extra. }
  assert (D : deref_prev (mkPtr (rev (directive_text fl wd prec lm "p") ++ cb)
                            post) = "p"%char)
    by apply deref_prev_directive.
  unfold formatValueBasic, bind, get_out. rewrite S.
  destruct (e1 =? 0)%Z; unfold update, buffered; rewrite ?T;
    rewrite ?(formatValue_c_string_pointer cfg _ _ _ addr s1 D),
            ?(formatValue_c_string_pointer cfg _ _ _ addr s2 D);
    reflexivity.
Qed.

Lemma X13_witness :
  formatValueBasic default_build
    (mkPtr ["%"%char] (directive_text (chars "-") (chars "12") None [] "p"
                         ++ []))
    (spec_end (mkPtr ["%"%char]
                 (directive_text (chars "-") (chars "12") None [] "p" ++ [])))
    (c_string 4096 (chars "one")) (mkWorld ostringstream [])
  = formatValueBasic default_build
      (mkPtr ["%"%char] (directive_text (chars "-") (chars "12") None [] "p"
                           ++ []))
      (spec_end (mkPtr ["%"%char]
                   (directive_text (chars "-") (chars "12") None [] "p"
                      ++ [])))
      (c_string 4096 (chars "another")) (mkWorld ostringstream []).
Proof.
  apply (@X13_pointer_conversion_does_not_read default_build (chars "-")
           (chars "12") None [] ["%"%char] [] 4096 (chars "one")
           (chars "another") (mkWorld ostringstream [])).
  reflexivity.
Defined.

Lemma firstn_until_nul n : forall s1 s2,
  firstn n s1 = firstn n s2 ->
  firstn n (until_nul s1) = firstn n (until_nul s2).
Proof.
  induction n as [| n IH]; intros s1 s2 H; [reflexivity |].
  destruct s1 as [| a1 s1], s2 as [| a2 s2]; cbn [firstn] in H;
    try discriminate H; [reflexivity |].
  injection H as <- H. cbn [until_nul].
  destruct (a1 =? NUL)%char; [reflexivity |].
  cbn [firstn]. f_equal. now apply IH.
Qed.

(** X14.  Under an s conversion with a precision, only as many characters
    of a C string as the precision says are read: two strings that agree
    on that many characters format alike, whatever follows them, a
    terminator or not. *)
Theorem X14_truncation_reads_precision_many cfg (fl wd ds lm cb post : list ascii)
    (addr : Z) (s1 s2 : list ascii) (w : world) :
  well_formed fl wd (Some ds) lm "s" = true ->
  firstn (Z.to_nat (int_value ds)) s1 = firstn (Z.to_nat (int_value ds)) s2 ->
  formatValueBasic cfg
    (mkPtr cb (directive_text fl wd (Some ds) lm "s" ++ post))
    (spec_end (mkPtr cb (directive_text fl wd (Some ds) lm "s" ++ post)))
    (c_string addr s1) w
  = formatValueBasic cfg
      (mkPtr cb (directive_text fl wd (Some ds) lm "s" ++ post))
      (spec_end (mkPtr cb (directive_text fl wd (Some ds) lm "s" ++ post)))
      (c_string addr s2) w.
Proof.
  intros H P. rewrite spec_end_well_formed by assumption.
  unfold formatValueBasic, bind at 1 7, get_out. unfold bind at 1 6.
  rewrite (streamStateFromFormat_well_formed cfg fl wd (Some ds) lm "s" cb
             post w H).
  set (e1 := snd (flag_run fl (reset (out w), 0%Z))).
  set (o3 := parsed_stream fl wd (Some ds) (out w)).
  change ((r <- set_conversion cfg "s" true e1 ;;
           integer_precision_fixup (fst r) true
             (negb match wd with [] => true | _ :: _ => false end) ;;
           ret (snd r)) (mkWorld o3 (reported w)))
    with (Done (Z.lor e1 Flag_TruncateToPrecision), mkWorld o3 (reported w)).
  cbv iota.
  pose proof (has_extra_truncate_set e1) as T.
  rewrite (has_extra_nonzero _ _ T).
  unfold bind, update. cbn [out reported].
  rewrite !buffered_c_string by assumption.
  assert (P3 : precision o3 = int_value ds) by reflexivity.
  rewrite P3, (firstn_until_nul _ s1 s2 P). reflexivity.
Qed.

Lemma X14_witness :
  formatValueBasic default_build
    (mkPtr ["%"%char] (directive_text [] [] (Some (chars "3")) [] "s" ++ []))
    (spec_end (mkPtr ["%"%char]
                 (directive_text [] [] (Some (chars "3")) [] "s" ++ [])))
    (c_string 4096 (chars "hello")) (mkWorld ostringstream [])
  = formatValueBasic default_build
      (mkPtr ["%"%char] (directive_text [] [] (Some (chars "3")) [] "s" ++ []))
      (spec_end (mkPtr ["%"%char]
                   (directive_text [] [] (Some (chars "3")) [] "s" ++ [])))
      (c_string 4096 (chars "helium")) (mkWorld ostringstream []).
Proof.
  apply (@X14_truncation_reads_precision_many default_build [] []
           (chars "3") [] ["%"%char] [] 4096 (chars "hello") (chars "helium")
           (mkWorld ostringstream []));
    reflexivity.
Defined.

(* ------------------------------------------------------------------ *)
(** ** Text in a field *)

Lemma formatValue_text cfg o b e v t :
  prints_text v t -> deref_prev e = "s"%char ->
  formatValue cfg o b e v = insert_text o t.
Proof.
  intros [addr s | x] D; cbn [formatValue std_string];
    unfold formatValue_generic;
    cbn [Insertable_c_string Insertable_string convert_char convert_voidptr
         insert]; rewrite ?D; reflexivity.
Qed.

(** An s conversion without precision and without the space flag puts the
    text into the stream as the flags and the width have set it up. *)
Lemma formatValueBasic_text cfg fl wd lm cb post v t w :
  well_formed fl wd None lm "s" = true ->
  snd (flag_run fl (reset (out w), 0%Z)) = 0%Z ->
  prints_text v t ->
  formatValueBasic cfg
    (mkPtr cb (directive_text fl wd None lm "s" ++ post))
    (spec_end (mkPtr cb (directive_text fl wd None lm "s" ++ post))) v w
  = (Done tt,
     wrote (let o2 := parsed_stream fl wd None (out w) in
            if (Z.land (flags o2) ios.adjustfield =? ios.left)%Z
            then t ++ padding o2 (List.length t)
            else padding o2 (List.length t) ++ t) w).
Proof.
  intros H E T. rewrite spec_end_well_formed by assumption.
  unfold formatValueBasic, bind at 1, get_out. unfold bind at 1.
  rewrite (streamStateFromFormat_well_formed cfg fl wd None lm "s" cb post w H).
  change (set_conversion cfg "s" false
            (snd (flag_run fl (reset (out w), 0%Z))))
    with (@ret (bool * Z) (false, snd (flag_run fl (reset (out w), 0%Z)))).
  rewrite E. unfold integer_precision_fixup, bind, ret, update.
  cbn [fst snd andb out reported Z.eqb].
  rewrite (@formatValue_text cfg _ _ _ v t T
             (deref_prev_directive fl wd None lm "s" cb post)).
  unfold wrote, insert_text. f_equal.
  assert (S : str (parsed_stream fl wd None (out w)) = str (out w)).
  { unfold parsed_stream.
    destruct (flag_run_frame fl (reset (out w)) 0%Z) as (A & _).
    destruct wd; cbn [str set_width]; exact A. }
  unfold set_fill, set_flags, set_precision, set_width, put.
  cbn [width precision flags fill str]. rewrite S.
  destruct (Z.land (flags (parsed_stream fl wd None (out w)))
              ios.adjustfield =? ios.left)%Z; reflexivity.
Qed.

Lemma padding_width wd o n c :
  width o = int_value wd -> fill o = c -> padding o n = pad_to wd c n.
Proof. intros W F. unfold padding, pad_to. now rewrite W, F. Qed.

Lemma well_formed_text fl wd lm :
  forallb is_flag fl = true -> forallb is_digit wd = true ->
  no_flag_ahead wd = true -> forallb is_length_modifier lm = true ->
  well_formed fl wd None lm "s" = true.
Proof.
  intros F W NF L. unfold well_formed. now rewrite F, W, NF, L.
Qed.

(** X15.  A width in front of an s conversion gives the least number of
    characters of the field: text shorter than the width is filled up with
    spaces on its left, with spaces on its right under the minus flag, and
    with zeros on its left under the zero flag; longer text is written as
    it is. *)
Theorem X15_width_pads_text cfg (wd lm cb post : list ascii) (v : value)
    (t : list ascii) (w : world) :
  forallb is_digit wd = true -> no_flag_ahead wd = true ->
  forallb is_length_modifier lm = true -> prints_text v t ->
  formatValueBasic cfg
    (mkPtr cb (directive_text [] wd None lm "s" ++ post))
    (spec_end (mkPtr cb (directive_text [] wd None lm "s" ++ post))) v w
  = (Done tt, wrote (pad_to wd " " (List.length t) ++ t) w) /\
  formatValueBasic cfg
    (mkPtr cb (directive_text ["-"%char] wd None lm "s" ++ post))
    (spec_end (mkPtr cb (directive_text ["-"%char] wd None lm "s" ++ post)))
    v w
  = (Done tt, wrote (t ++ pad_to wd " " (List.length t)) w) /\
  formatValueBasic cfg
    (mkPtr cb (directive_text ["0"%char] wd None lm "s" ++ post))
    (spec_end (mkPtr cb (directive_text ["0"%char] wd None lm "s" ++ post)))
    v w
  = (Done tt, wrote (pad_to wd "0" (List.length t) ++ t) w).
Proof.
  intros W NF L T. split; [| split].
  - rewrite (@formatValueBasic_text cfg [] wd lm cb post v t w
               (well_formed_text [] wd lm eq_refl W NF L) eq_refl T).
    cbv zeta. unfold parsed_stream. cbn [flag_run fold_left fst].
    assert (A : Z.land (flags (match wd with
                               | [] => reset (out w)
                               | _ :: _ => set_width (int_value wd)
                                             (reset (out w))
                               end)) ios.adjustfield = 0%Z).
    { destruct wd; cbn [flags set_width]; unfold reset, unsetf;
        cbn [flags set_flags]; apply land_ldiff_inside; reflexivity. }
    rewrite A. change (0 =? ios.left)%Z with false. cbv iota.
    rewrite (@padding_width wd _ _ " "%char); [reflexivity | |];
      destruct wd; reflexivity.
  - assert (R : flag_run ["-"%char] (reset (out w), 0%Z)
                = (setf_mask ios.left ios.adjustfield
                     (set_fill " " (reset (out w))), 0%Z))
      by (cbn [flag_run fold_left]; apply flag_step_minus).
    rewrite (@formatValueBasic_text cfg ["-"%char] wd lm cb post v t w
               (well_formed_text ["-"%char] wd lm eq_refl W NF L)
               ltac:(now rewrite R) T).
    cbv zeta. unfold parsed_stream. rewrite R. cbn [fst].
    assert (A : Z.land (flags (match wd with
                               | [] => setf_mask ios.left ios.adjustfield
                                         (set_fill " " (reset (out w)))
                               | _ :: _ =>
                                   set_width (int_value wd)
                                     (setf_mask ios.left ios.adjustfield
                                        (set_fill " " (reset (out w))))
                               end)) ios.adjustfield = ios.left).
    { destruct wd; cbn [flags set_width]; unfold setf_mask;
        cbn [flags set_flags]; apply adjustfield_left. }
    rewrite A. rewrite Z.eqb_refl.
    rewrite (@padding_width wd _ _ " "%char); [reflexivity | |];
      destruct wd; reflexivity.
  - assert (R : flag_run ["0"%char] (reset (out w), 0%Z)
                = (setf_mask ios.internal ios.adjustfield
                     (set_fill "0" (reset (out w))), 0%Z)).
    { cbn [flag_run fold_left]. rewrite flag_step_zero.
      now rewrite reset_no_left. }
    rewrite (@formatValueBasic_text cfg ["0"%char] wd lm cb post v t w
               (well_formed_text ["0"%char] wd lm eq_refl W NF L)
               ltac:(now rewrite R) T).
    cbv zeta. unfold parsed_stream. rewrite R. cbn [fst].
    assert (A : Z.land (flags (match wd with
                               | [] => setf_mask ios.internal ios.adjustfield
                                         (set_fill "0" (reset (out w)))
                               | _ :: _ =>
                                   set_width (int_value wd)
                                     (setf_mask ios.internal ios.adjustfield
                                        (set_fill "0" (reset (out w))))
                               end)) ios.adjustfield = ios.internal).
    { destruct wd; cbn [flags set_width]; unfold setf_mask;
        cbn [flags set_flags]; apply adjustfield_internal. }
    rewrite A. change (ios.internal =? ios.left)%Z with false. cbv iota.
    rewrite (@padding_width wd _ _ "0"%char); [reflexivity | |];
      destruct wd; reflexivity.
Qed.

Lemma X15_witness :
  formatValueBasic default_build
    (mkPtr ["%"%char] (directive_text ["-"%char] (chars "6") None [] "s"
                         ++ chars "|"))
    (spec_end (mkPtr ["%"%char]
                 (directive_text ["-"%char] (chars "6") None [] "s"
                    ++ chars "|")))
    (c_string 4096 (chars "abc")) (mkWorld ostringstream [])
  = (Done tt, wrote (chars "abc   ") (mkWorld ostringstream [])).
Proof.
  apply (@X15_width_pads_text default_build (chars "6") [] ["%"%char]
           (chars "|") (c_string 4096 (chars "abc"))
           (until_nul (chars "abc")) (mkWorld ostringstream []) eq_refl
           eq_refl eq_refl (text_c_string 4096 (chars "abc"))).
Defined.

(* ------------------------------------------------------------------ *)
(** ** Base, float style and case *)

Lemma ldiff_conversion_bits f :
  Z.land f conversion_bits = 0%Z -> f = Z.ldiff f conversion_bits.
Proof.
  intros H. apply Z.bits_inj'. intros n Hn. rewrite Z.ldiff_spec.
  assert (B : Z.testbit (Z.land f conversion_bits) n = false)
    by (rewrite H; apply Z.bits_0).
  rewrite Z.land_spec in B.
  destruct (Z.testbit f n), (Z.testbit conversion_bits n);
    try reflexivity; discriminate B.
Qed.

(** On a stream whose base, float and case flags are clear the [switch]
    on the conversion character sets the ones of the table. *)
Lemma set_conversion_flags cfg conv ps e o rep :
  (conv =? "n")%char = false -> Z.land (flags o) conversion_bits = 0%Z ->
  exists r o',
    set_conversion cfg conv ps e (mkWorld o rep) = (Done r, mkWorld o' rep) /\
    Z.land (flags o') conversion_bits = conversion_flags conv /\
    Z.land (flags o') ios.adjustfield = Z.land (flags o) ios.adjustfield /\
    str o' = str o /\ width o' = width o /\ fill o' = fill o /\
    precision o' = precision o.
Proof.
  intros N Z0. apply ldiff_conversion_bits in Z0.
  unfold set_conversion, conversion_flags.
  repeat match goal with
  | |- context [(conv =? ?x)%char] =>
      destruct (conv =? x)%char eqn:?; cbn [orb]; cbv beta iota
  end; try discriminate N;
    unfold bind, update, ret; cbn [out reported];
    eexists _, _; (split; [reflexivity |]);
    unfold setf, setf_mask, set_flags;
    cbn [flags str width fill precision];
    (split; [| split; [| repeat split]]);
    try (rewrite Z0; generalize (flags o); intro; bits);
    try (generalize (flags o); intro; bits).
Qed.

Lemma parsed_stream_conversion_bits fl wd prec o :
  Z.land (flags (parsed_stream fl wd prec o)) conversion_bits = 0%Z.
Proof.
  assert (F : Z.land (flags (fst (flag_run fl (reset o, 0%Z)))) conversion_bits
              = 0%Z).
  { assert (G : forall l s,
               Z.land (flags (fst s)) conversion_bits = 0%Z ->
               Z.land (flags (fst (flag_run l s))) conversion_bits = 0%Z).
    { induction l as [| a l IH]; intros s Hs; [exact Hs |].
      cbn [flag_run fold_left]. apply IH. unfold flag_step.
      destruct (parse_flag a (fst s) (snd s)) as [[o1 e1] |] eqn:E;
        [| exact Hs].
      destruct (parse_flag_frame a (fst s) (snd s) E) as (_ & _ & _ & _ & B).
      cbn [fst]. now rewrite B. }
    apply G. cbn [fst]. unfold reset, unsetf. cbn [flags set_flags].
    apply land_ldiff_inside. reflexivity. }
  unfold parsed_stream.
  destruct prec, wd; cbn [flags set_precision set_width]; exact F.
Qed.

(** X16.  Numeric base, float style and letter case of a field are decided
    by the conversion letter alone: after a directive of the documented
    form has been interpreted, the base, float and uppercase flags of the
    stream are the ones that go with the letter, whatever they were before
    the call and whatever flags, width and precision the directive has. *)
Theorem X16_conversion_letter_decides_base cfg (fl wd : list ascii)
    (prec : option (list ascii)) (lm : list ascii) (conv : ascii)
    (cb post : list ascii) (w : world) :
  well_formed fl wd prec lm conv = true -> (conv =? "n")%char = false ->
  exists extraFlags w',
    streamStateFromFormat cfg
      (mkPtr cb (directive_text fl wd prec lm conv ++ post))
      (spec_end (mkPtr cb (directive_text fl wd prec lm conv ++ post))) w
    = (Done extraFlags, w') /\
    Z.land (flags (out w')) conversion_bits = conversion_flags conv /\
    reported w' = reported w /\ str (out w') = str (out w).
Proof.
  intros H N. rewrite spec_end_well_formed by assumption.
  rewrite (streamStateFromFormat_well_formed cfg fl wd prec lm conv cb post w H).
  destruct (@set_conversion_flags cfg conv
              (match prec with Some _ => true | None => false end)
              (snd (flag_run fl (reset (out w), 0%Z)))
              (parsed_stream fl wd prec (out w)) (reported w) N
              (parsed_stream_conversion_bits fl wd prec (out w)))
    as ([ic ef] & o' & E & B & _ & S & _).
  assert (S0 : str (parsed_stream fl wd prec (out w)) = str (out w)).
  { unfold parsed_stream.
    destruct (flag_run_frame fl (reset (out w)) 0%Z) as (A & _).
    destruct prec, wd; cbn [str set_precision set_width]; exact A. }
  unfold bind at 1. rewrite E. cbn [fst snd].
  unfold integer_precision_fixup.
  destruct (ic && match prec with Some _ => true | None => false end &&
            negb (negb match wd with [] => true | _ :: _ => false end));
    unfold bind, update, ret; cbn [out reported];
    eexists _, _; (split; [reflexivity |]); cbn [out reported];
    unfold set_fill, setf_mask, set_flags, set_width;
    cbn [flags str]; repeat split; try congruence.
  rewrite <- B. generalize (flags o'). intro. bits.
Qed.

Lemma X16_witness :
  exists extraFlags w',
    streamStateFromFormat default_build
      (mkPtr ["%"%char] (directive_text (chars "#0") (chars "8")
                           (Some (chars "3")) (chars "l") "X" ++ chars "|"))
      (spec_end
         (mkPtr ["%"%char] (directive_text (chars "#0") (chars "8")
                              (Some (chars "3")) (chars "l") "X"
                              ++ chars "|")))
      (mkWorld (mkStream 3 9 (Z.lor ios.oct ios.scientific) "*" []) [])
    = (Done extraFlags, w') /\
    Z.land (flags (out w')) conversion_bits = Z.lor ios.hex ios.uppercase.
Proof.
  destruct (@X16_conversion_letter_decides_base default_build (chars "#0")
              (chars "8") (Some (chars "3")) (chars "l") "X" ["%"%char]
              (chars "|")
              (mkWorld (mkStream 3 9 (Z.lor ios.oct ios.scientific) "*" []) [])
              eq_refl eq_refl) as (ef & w' & E & B & _).
  exists ef, w'. split; [exact E | exact B].
Defined.

(* ------------------------------------------------------------------ *)
(** ** Width and precision *)

Lemma int_value_decimal ds :
  forallb is_digit ds = true -> (decimal ds < 2 ^ 31)%Z ->
  int_value ds = decimal ds.
Proof.
  intros D B.
  pose proof (@parseInt_loop_decimal ds 0 [] [] D eq_refl (Z.le_refl 0)) as P.
  rewrite Z.mul_0_l, Z.add_0_l in P. specialize (P B).
  rewrite (@parseInt_loop_digits ds 0 [] [] D (or_intror (or_introl eq_refl)))
    in P.
  now injection P.
Qed.

Lemma parsed_stream_width_precision fl wd prec o :
  width (parsed_stream fl wd prec o) = int_value wd /\
  precision (parsed_stream fl wd prec o)
  = match prec with Some ds => int_value ds | None => 6%Z end.
Proof.
  unfold parsed_stream.
  destruct (flag_run_frame fl (reset o) 0%Z) as (_ & W & P & _).
  destruct prec, wd; cbn [width precision set_precision set_width];
    rewrite ?W, ?P; split; reflexivity.
Qed.

(** X17.  The width and the precision of a directive are read as decimal
    numbers and become the width and the precision of the stream; without
    a width the field width is 0 and without a precision the precision is
    6, whatever the stream had before.  (The one exception is the integer
    conversion with a precision and no width, where the width is taken
    from the precision.) *)
Theorem X17_width_and_precision_of_a_directive cfg (fl wd : list ascii)
    (prec : option (list ascii)) (lm : list ascii) (conv : ascii)
    (cb post : list ascii) (w : world) :
  well_formed fl wd prec lm conv = true -> (conv =? "n")%char = false ->
  (decimal wd < 2 ^ 31)%Z ->
  match prec with Some ds => (decimal ds < 2 ^ 31)%Z | None => True end ->
  exists extraFlags w',
    streamStateFromFormat cfg
      (mkPtr cb (directive_text fl wd prec lm conv ++ post))
      (spec_end (mkPtr cb (directive_text fl wd prec lm conv ++ post))) w
    = (Done extraFlags, w') /\
    precision (out w')
    = match prec with Some ds => decimal ds | None => 6%Z end /\
    (is_int_conversion conv = false \/ prec = None \/ wd <> [] ->
     width (out w') = decimal wd).
Proof.
  intros H N Bw Bp. rewrite spec_end_well_formed by assumption.
  pose proof (well_formed_parts _ _ _ _ _ H) as (_ & Dw & _ & Dp & _ & _).
  rewrite (streamStateFromFormat_well_formed cfg fl wd prec lm conv cb post w H).
  destruct (@set_conversion_flags cfg conv
              (match prec with Some _ => true | None => false end)
              (snd (flag_run fl (reset (out w), 0%Z)))
              (parsed_stream fl wd prec (out w)) (reported w) N
              (parsed_stream_conversion_bits fl wd prec (out w)))
    as ([ic ef] & o' & E & _ & _ & _ & W & _ & P).
  destruct (parsed_stream_width_precision fl wd prec (out w)) as (W0 & P0).
  assert (Ic : ic = is_int_conversion conv).
  { revert E. unfold set_conversion, is_int_conversion.
    repeat match goal with
    | |- context [(conv =? ?x)%char] =>
        destruct (conv =? x)%char eqn:?; cbn [orb]; cbv beta iota
    end; try discriminate N;
      unfold bind, update, ret; cbn [out reported]; intros E;
      injection E as <- _ _; reflexivity. }
  assert (Pv : precision o'
               = match prec with Some ds => decimal ds | None => 6%Z end).
  { rewrite P, P0. destruct prec as [ds |]; [| reflexivity].
    now apply int_value_decimal. }
  assert (Wv : width o' = decimal wd)
    by (rewrite W, W0; now apply int_value_decimal).
  unfold bind at 1. rewrite E. cbn [fst snd].
  unfold integer_precision_fixup. rewrite Ic.
  destruct (is_int_conversion conv &&
            match prec with Some _ => true | None => false end &&
            negb (negb match wd with [] => true | _ :: _ => false end))
    eqn:Fix;
    unfold bind, update, ret; cbn [out reported];
    eexists _, _; (split; [reflexivity |]);
    cbn [out precision width set_fill setf_mask set_flags set_width];
    (split; [exact Pv |]).
  - intros C. exfalso.
    apply andb_prop in Fix. destruct Fix as [Fix F3].
    apply andb_prop in Fix. destruct Fix as [F1 F2].
    destruct C as [C | [C | C]].
    + congruence.
    + subst prec. discriminate F2.
    + destruct wd; [now apply C | discriminate F3].
  - intros _. exact Wv.
Qed.

Lemma X17_witness :
  exists extraFlags w',
    streamStateFromFormat default_build
      (mkPtr ["%"%char] (directive_text (chars "-") (chars "12")
                           (Some (chars "3")) [] "f" ++ chars "|"))
      (spec_end
         (mkPtr ["%"%char] (directive_text (chars "-") (chars "12")
                              (Some (chars "3")) [] "f" ++ chars "|")))
      (mkWorld (mkStream 3 9 ios.oct "*" []) [])
    = (Done extraFlags, w') /\
    precision (out w') = 3%Z /\ width (out w') = 12%Z.
Proof.
  destruct (@X17_width_and_precision_of_a_directive default_build (chars "-")
              (chars "12") (Some (chars "3")) [] "f" ["%"%char] (chars "|")
              (mkWorld (mkStream 3 9 ios.oct "*" []) [])
              eq_refl eq_refl eq_refl eq_refl) as (ef & w' & E & P & W).
  exists ef, w'. split; [exact E |]. split; [exact P |].
  apply W. left. reflexivity.
Defined.

(* ------------------------------------------------------------------ *)
(** ** Integers as characters *)

(** Two values that no overload tells apart and that [formatValue] prints
    alike are formatted alike. *)
Lemma formatValueBasic_same_value cfg b e v1 v2 w :
  (forall o, formatValue cfg o b e v1 = formatValue cfg o b e v2) ->
  (forall o n, formatCStringTruncate o v1 n = (false, o)) ->
  (forall o n, formatCStringTruncate o v2 n = (false, o)) ->
  formatValueBasic cfg b e v1 w = formatValueBasic cfg b e v2 w.
Proof.
  intros F T1 T2. unfold formatValueBasic, bind, get_out.
  destruct (streamStateFromFormat cfg b e w) as [[ef | r |] w1];
    [| reflexivity | reflexivity].
  destruct (ef =? 0)%Z; unfold update, buffered;
    rewrite ?T1, ?T2, ?F; reflexivity.
Qed.

(** X18.  Under the conversion [c] an [int] argument is converted to
    [char] and printed as that character, exactly as a [char] argument
    with that code is. *)
Theorem X18_int_under_c_prints_a_character cfg (fl wd : list ascii)
    (prec : option (list ascii)) (lm cb post : list ascii) (n : Z)
    (w : world) :
  well_formed fl wd prec lm "c" = true ->
  formatValueBasic cfg
    (mkPtr cb (directive_text fl wd prec lm "c" ++ post))
    (spec_end (mkPtr cb (directive_text fl wd prec lm "c" ++ post)))
    (int n) w
  = formatValueBasic cfg
      (mkPtr cb (directive_text fl wd prec lm "c" ++ post))
      (spec_end (mkPtr cb (directive_text fl wd prec lm "c" ++ post)))
      (char_ (ascii_of_N (Z.to_N (n mod 256)))) w.
Proof.
  intros H. rewrite spec_end_well_formed by assumption.
  apply formatValueBasic_same_value; try reflexivity.
  intros o. cbn [formatValue int]. unfold formatValue_generic, formatValue_char.
  cbn [Insertable_int convert_char convert_voidptr].
  rewrite deref_prev_directive. reflexivity.
Qed.

Lemma X18_witness :
  formatValueBasic default_build
    (mkPtr ["%"%char] (directive_text (chars "-") (chars "3") None [] "c"
                         ++ chars "|"))
    (spec_end (mkPtr ["%"%char]
                 (directive_text (chars "-") (chars "3") None [] "c"
                    ++ chars "|")))
    (int 65) (mkWorld ostringstream [])
  = formatValueBasic default_build
      (mkPtr ["%"%char] (directive_text (chars "-") (chars "3") None [] "c"
                           ++ chars "|"))
      (spec_end (mkPtr ["%"%char]
                   (directive_text (chars "-") (chars "3") None [] "c"
                      ++ chars "|")))
      (char_ (ascii_of_N (Z.to_N (65 mod 256)))) (mkWorld ostringstream []).
Proof.
  apply (@X18_int_under_c_prints_a_character default_build (chars "-")
           (chars "3") None [] ["%"%char] (chars "|") 65
           (mkWorld ostringstream [])).
  reflexivity.
Defined.

(* ------------------------------------------------------------------ *)
(** ** Text that is in the stream already *)

Lemma put_onto p x o : put x (onto p o) = onto p (put x o).
Proof. unfold put, onto. cbn [width precision flags fill str].
  now rewrite app_assoc. Qed.

Lemma write_onto p s n o : write s n (onto p o) = onto p (write s n o).
Proof. unfold write. apply put_onto. Qed.

Lemma insert_text_onto p o s :
  insert_text (onto p o) s = onto p (insert_text o s).
Proof.
  unfold insert_text. rewrite put_onto. reflexivity.
Qed.

Lemma insert_long_onto p o n : insert_long (onto p o) n = onto p (insert_long o n).
Proof. unfold insert_long. rewrite put_onto. reflexivity. Qed.

Lemma insert_int_onto p o n : insert_int (onto p o) n = onto p (insert_int o n).
Proof.
  unfold insert_int. cbn [flags onto].
  destruct ((Z.land (flags o) ios.basefield =? ios.oct)%Z
            || (Z.land (flags o) ios.basefield =? ios.hex)%Z);
    apply insert_long_onto.
Qed.

Lemma insert_char_onto p o c : insert_char (onto p o) c = onto p (insert_char o c).
Proof. apply insert_text_onto. Qed.

Lemma insert_voidptr_onto p o a :
  insert_voidptr (onto p o) a = onto p (insert_voidptr o a).
Proof. unfold insert_voidptr. rewrite put_onto. reflexivity. Qed.

Lemma int_inserts_blindly n : inserts_blindly (int n).
Proof. intros p o. apply insert_int_onto. Qed.

Lemma std_string_inserts_blindly x : inserts_blindly (std_string x).
Proof. intros p o. apply insert_text_onto. Qed.

Lemma formatValue_onto cfg p o b e v :
  inserts_blindly v ->
  formatValue cfg (onto p o) b e v = onto p (formatValue cfg o b e v).
Proof.
  intros B. destruct v as [c | c | c | addr s | T ins x]; cbn [formatValue];
    unfold formatValue_char, formatValue_generic.
  - destruct (_ || _); [apply insert_int_onto | apply insert_char_onto].
  - destruct (_ || _); [apply insert_int_onto | apply insert_char_onto].
  - destruct (_ || _); [apply insert_int_onto | apply insert_char_onto].
  - cbn [Insertable_c_string convert_char convert_voidptr insert].
    destruct (deref_prev e =? "p")%char;
      [apply insert_voidptr_onto | apply insert_text_onto].
  - cbn [inserts_blindly] in B.
    destruct convert_char as [to_char |], convert_voidptr as [to_ptr |];
      repeat match goal with
      | |- context [if ?c then _ else _] => destruct c
      end;
      auto using insert_char_onto, insert_voidptr_onto.
Qed.

Lemma munge_onto p ef r o : munge ef r (onto p o) = onto p (munge ef r o).
Proof.
  unfold munge. cbn [precision onto].
  destruct (_ && _); [apply write_onto | apply insert_text_onto].
Qed.

Lemma parse_flag_onto p a o e :
  parse_flag a (onto p o) e
  = match parse_flag a o e with
    | Some (o', e') => Some (onto p o', e')
    | None => None
    end.
Proof.
  unfold parse_flag.
  repeat match goal with
  | |- context [if (a =? ?x)%char then _ else _] => destruct (a =? x)%char
  end; try reflexivity.
  unfold has_flag. cbn [flags onto].
  destruct (negb (negb (Z.land (flags o) ios.left =? 0)%Z)); reflexivity.
Qed.

Lemma parse_flags_onto p ca : forall o e cb,
  parse_flags (onto p o) e cb ca
  = (onto p (fst (fst (parse_flags o e cb ca))),
     snd (fst (parse_flags o e cb ca)), snd (parse_flags o e cb ca)).
Proof.
  induction ca as [| a ca IH]; intros o e cb; [reflexivity |].
  cbn [parse_flags]. rewrite parse_flag_onto.
  destruct (parse_flag a o e) as [[o' e'] |]; [apply IH | reflexivity].
Qed.

Section Blind.

Variable cfg : config.

Lemma blind_ret {A} (a : A) : content_blind (ret a).
Proof. intros p w. reflexivity. Qed.

Lemma blind_bind {A B} (m : M A) (k : A -> M B) :
  content_blind m -> (forall a, content_blind (k a)) ->
  content_blind (bind m k).
Proof.
  intros Hm Hk p w. unfold bind. rewrite Hm.
  destruct (m w) as [[a | r |] w1]; cbn [fst snd]; [apply Hk | |];
    reflexivity.
Qed.

Lemma blind_update f :
  (forall p o, f (onto p o) = onto p (f o)) -> content_blind (update f).
Proof.
  intros H p w. unfold update, onto_world. cbn [out reported fst snd].
  now rewrite H.
Qed.

Lemma blind_error r : content_blind (TINYFORMAT_ERROR cfg r).
Proof.
  intros p w. unfold TINYFORMAT_ERROR.
  destruct (TINYFORMAT_ERROR_as cfg); [destruct (NDEBUG cfg) | |];
    reflexivity.
Qed.

Lemma blind_assert c : content_blind (assert cfg c).
Proof.
  intros p w. unfold assert. destruct (c || NDEBUG cfg); reflexivity.
Qed.

End Blind.

(** Computations put together from the primitives, [get_out] apart. *)
Ltac blind :=
  repeat match goal with
  | |- content_blind (ret _) => apply blind_ret
  | |- content_blind (TINYFORMAT_ERROR _ _) => apply blind_error
  | |- content_blind (assert _ _) => apply blind_assert
  | |- content_blind (update _) =>
      apply blind_update; intros ? ?; reflexivity
  | |- content_blind (bind _ _) => apply blind_bind; [| intros ?]
  | |- content_blind (if ?b then _ else _) => destruct b
  | |- content_blind (match ?p with (_, _) => _ end) => destruct p
  | |- content_blind (let '(_, _) := ?p in _) => destruct p
  | |- content_blind (match ?p with Some _ => _ | None => _ end) =>
      destruct p
  end.

Section BlindFormat.

Variable cfg : config.

Lemma get_out_bind {A} (k : ostream -> M A) w :
  (o <- get_out ;; k o) w = k (out w) w.
Proof. reflexivity. Qed.

Lemma set_out_bind {A} (k : M A) o w :
  (set_out o ;; k) w = k (mkWorld o (reported w)).
Proof. reflexivity. Qed.

Lemma blind_streamStateFromFormat b e :
  content_blind (streamStateFromFormat cfg b e).
Proof.
  unfold streamStateFromFormat.
  apply blind_bind; [unfold reset_stream_state; blind |]. intros [].
  intros p w. rewrite !get_out_bind.
  cbn [out onto_world]. rewrite parse_flags_onto.
  destruct (parse_flags (out w) 0 (before b) (after b)) as [[o' ef] c].
  cbn [fst snd]. rewrite !set_out_bind.
  assert (K : content_blind
                ('(widthSet, c) <- parse_width cfg c ;;
                 '(precisionSet, c) <- parse_precision cfg c ;;
                 (let c := skip_length_modifiers c in
                  let type := if ptr_lt c e then deref c else "s"%char in
                  '(intConversion, extraFlags) <-
                    set_conversion cfg type precisionSet ef ;;
                  integer_precision_fixup intConversion precisionSet
                    widthSet ;;
                  assert cfg (ptr_le c e) ;;
                  ret extraFlags))).
  { apply blind_bind; [unfold parse_width; blind |]. intros [widthSet c1].
    apply blind_bind; [unfold parse_precision; blind |].
    intros [precisionSet c2]. cbv zeta.
    apply blind_bind; [unfold set_conversion; blind |]. intros [ic ef'].
    apply blind_bind; [unfold integer_precision_fixup; blind |]. intros [].
    blind. }
  exact (K p (mkWorld o' (reported w))).
Qed.

Lemma blind_formatValueBasic b e v :
  inserts_blindly v -> content_blind (formatValueBasic cfg b e v).
Proof.
  intros B p w. unfold formatValueBasic. rewrite !get_out_bind.
  cbn [out onto_world width precision flags fill onto].
  assert (K : content_blind
                (extraFlags <- streamStateFromFormat cfg b e ;;
                 (if (extraFlags =? 0)%Z
                  then update (fun o => formatValue cfg o b e v)
                  else update (fun o =>
                         munge extraFlags (buffered cfg extraFlags o b e v) o))
                 ;;
                 update (set_width (width (out w))) ;;
                 update (set_precision (precision (out w))) ;;
                 update (set_flags (flags (out w))) ;;
                 update (set_fill (fill (out w))))).
  { apply blind_bind; [apply blind_streamStateFromFormat |]. intros ef.
    apply blind_bind; [| intros []; blind].
    destruct (ef =? 0)%Z; apply blind_update; intros q o.
    - now apply formatValue_onto.
    - apply (munge_onto q ef (buffered cfg ef o b e v) o). }
  exact (K p w).
Qed.

Lemma blind_findFormatSpecEnd c : content_blind (findFormatSpecEnd cfg c).
Proof. unfold findFormatSpecEnd. blind. Qed.

Lemma wrote_onto t p w : wrote t (onto_world p w) = onto_world p (wrote t w).
Proof.
  unfold wrote, onto_world. cbn [out reported]. now rewrite put_onto.
Qed.

Lemma blind_format args : forall fmt,
  Forall inserts_blindly args -> content_blind (format cfg fmt args).
Proof.
  induction args as [| v args IH]; intros fmt B p w;
    destruct (printFormatStringLiteral_put fmt) as (t & c & E).
  - rewrite !(@format_nil_scanned cfg fmt t c _ E), wrote_onto.
    destruct (negb (deref c =? NUL)%char);
      [apply blind_error | apply blind_ret].
  - rewrite !(@format_cons_scanned cfg fmt t c v args _ E), wrote_onto.
    inversion B as [| ? ? Bv Ba]; subst.
    apply (@blind_bind _ _ (findFormatSpecEnd cfg c));
      [apply blind_findFormatSpecEnd |].
    intros fmtEnd. apply blind_bind;
      [now apply blind_formatValueBasic | intros _; now apply IH].
Qed.

End BlindFormat.

(** X19.  The convenience functions agree with [format]: on any stream
    that has the flags of a fresh string stream outside the ones the
    interpreter resets, whatever it holds already and whatever its width,
    precision and fill are, [format], and so [printf] on [std::cout],
    appends exactly the text that the string-returning [format] returns,
    ends the way it ends and reports what it reports.  (The arguments'
    insertion operators are taken not to look at the text already in the
    stream; the ones of the header do not.) *)
Theorem X19_printf_and_string_format_agree cfg (fmt : string)
    (args : list value) (o : ostream) :
  Forall inserts_blindly args ->
  Z.ldiff (flags o) reset_mask = Z.ldiff (flags ostringstream) reset_mask ->
  exists t,
    str (out (snd (printf cfg fmt args (mkWorld o [])))) = str o ++ t /\
    format_string cfg fmt args
    = (match fst (printf cfg fmt args (mkWorld o [])) with
       | Done _ => Done (text t)
       | Thrown r => Thrown r
       | Aborted => Aborted
       end,
       reported (snd (printf cfg fmt args (mkWorld o [])))).
Proof.
  intros B F. unfold printf, format_string.
  set (o0 := mkStream (width o) (precision o) (flags o) (fill o) []).
  assert (Eo : mkWorld o [] = onto_world (str o) (mkWorld o0 [])).
  { unfold onto_world, onto, o0. cbn [out reported width precision flags
      fill str]. rewrite app_nil_r. destruct o; reflexivity. }
  rewrite Eo, (@blind_format cfg args (c_str fmt) B (str o) (mkWorld o0 [])).
  assert (A : alike (mkWorld o0 []) (mkWorld ostringstream []))
    by (repeat split; exact F).
  destruct (respects_format cfg args (c_str fmt) A) as (E1 & E2 & E3 & _).
  destruct (format cfg (c_str fmt) args (mkWorld ostringstream []))
    as [r1 w1].
  destruct (format cfg (c_str fmt) args (mkWorld o0 [])) as [r2 w2].
  cbn [fst snd onto_world out reported onto str] in *. subst r2.
  exists (str (out w1)). rewrite E3, E2. split; [reflexivity |].
  destruct r1 as [[] | r |]; reflexivity.
Qed.

Lemma X19_witness :
  exists t,
    str (out (snd (printf default_build "%5d|%-4s|" [int 42; c_string 4096 (chars "ab")]
                     (mkWorld (mkStream 9 2 (Z.lor ios.skipws ios.hex) "*"
                                 (chars "earlier ")) []))))
    = chars "earlier " ++ t /\
    format_string default_build "%5d|%-4s|" [int 42; c_string 4096 (chars "ab")]
    = (match fst (printf default_build "%5d|%-4s|"
                    [int 42; c_string 4096 (chars "ab")]
                    (mkWorld (mkStream 9 2 (Z.lor ios.skipws ios.hex) "*"
                                (chars "earlier ")) [])) with
       | Done _ => Done (text t)
       | Thrown r => Thrown r
       | Aborted => Aborted
       end,
       reported (snd (printf default_build "%5d|%-4s|"
                        [int 42; c_string 4096 (chars "ab")]
                        (mkWorld (mkStream 9 2 (Z.lor ios.skipws ios.hex) "*"
                                    (chars "earlier ")) [])))).
Proof.
  apply (@X19_printf_and_string_format_agree default_build "%5d|%-4s|"
           [int 42; c_string 4096 (chars "ab")]
           (mkStream 9 2 (Z.lor ios.skipws ios.hex) "*" (chars "earlier "))).
  - repeat constructor. apply int_inserts_blindly.
  - reflexivity.
Defined.

(* ------------------------------------------------------------------ *)
(** ** The first error in a build whose handler keeps control *)

Section FirstError.

Variable cfg : config.
Hypothesis Hx : error_returns cfg = false.

Lemma first_ret {A} (a : A) w : ends_at_first_error cfg (ret a) w.
Proof. reflexivity. Qed.

Lemma first_update f w : ends_at_first_error cfg (update f) w.
Proof. reflexivity. Qed.

Lemma first_get_out w : ends_at_first_error cfg get_out w.
Proof. reflexivity. Qed.

Lemma first_set_out o w : ends_at_first_error cfg (set_out o) w.
Proof. reflexivity. Qed.

Lemma first_assert_true w : ends_at_first_error cfg (assert cfg true) w.
Proof. reflexivity. Qed.

Lemma first_error r w : ends_at_first_error cfg (TINYFORMAT_ERROR cfg r) w.
Proof.
  unfold error_returns in Hx.
  unfold ends_at_first_error, TINYFORMAT_ERROR.
  destruct (TINYFORMAT_ERROR_as cfg) eqn:H;
    [destruct (NDEBUG cfg) eqn:N | |]; cbn [reported];
    try discriminate Hx.
  - repeat split. now exists r.
  - split; reflexivity.
Qed.

Lemma first_bind_with {A B} (m : M A) (k : A -> M B) w
    (Q : A -> world -> Prop) (X : world -> Prop) :
  outcome m w Q X -> ends_at_first_error cfg m w ->
  (forall a w', Q a w' -> ends_at_first_error cfg (k a) w') ->
  ends_at_first_error cfg (bind m k) w.
Proof.
  unfold outcome, ends_at_first_error, bind. intros HQ Hm Hk.
  destruct (m w) as [[a | r |] w1]; [| exact Hm | exact Hm].
  specialize (Hk a w1 HQ).
  destruct (k a w1) as [[b | r |] w2]; now rewrite <- Hm.
Qed.

Lemma first_bind {A B} (m : M A) (k : A -> M B) w :
  ends_at_first_error cfg m w ->
  (forall a w', ends_at_first_error cfg (k a) w') ->
  ends_at_first_error cfg (bind m k) w.
Proof.
  intros Hm Hk.
  apply (@first_bind_with _ _ m k w (fun _ _ => True) (fun _ => True));
    auto.
  unfold outcome. destruct (m w) as [[] ?]; exact I.
Qed.

End FirstError.

(** Computations put together from the primitives, without [assert]. *)
Ltac at_first_error H :=
  repeat match goal with
  | |- ends_at_first_error ?cfg (ret _) _ => apply (@first_ret cfg)
  | |- ends_at_first_error ?cfg (update _) _ => apply (@first_update cfg)
  | |- ends_at_first_error ?cfg (TINYFORMAT_ERROR _ _) _ =>
      apply (@first_error cfg H)
  | |- ends_at_first_error ?cfg get_out _ => apply (@first_get_out cfg)
  | |- ends_at_first_error ?cfg (set_out _) _ => apply (@first_set_out cfg)
  | |- ends_at_first_error ?cfg (assert _ true) _ =>
      apply (@first_assert_true cfg)
  | |- ends_at_first_error ?cfg (bind _ _) _ =>
      apply (@first_bind cfg); [| intros ? ?]
  | |- ends_at_first_error _ (if ?b then _ else _) _ => destruct b
  | |- ends_at_first_error _ (match ?p with (_, _) => _ end) _ => destruct p
  | |- ends_at_first_error _ (let '(_, _) := ?p in _) _ => destruct p
  | |- ends_at_first_error _
         (match ?p with Some _ => _ | None => _ end) _ => destruct p
  end.

Section FirstErrorFormat.

Variable cfg : config.
Hypothesis Hx : error_returns cfg = false.

Lemma streamStateFromFormat_first_error cb l stop fmtEnd w :
  stops stop = true ->
  (List.length l + List.length cb <= offset fmtEnd)%nat ->
  ends_at_first_error cfg
    (streamStateFromFormat cfg (mkPtr cb (l ++ stop)) fmtEnd) w.
Proof.
  intros Hstop Hend. unfold streamStateFromFormat.
  apply first_bind; [unfold reset_stream_state; at_first_error Hx |].
  intros [] w0.
  apply first_bind; [at_first_error Hx |]. intros o w1. cbn [before after].
  pose proof (parse_flags_steps (l ++ stop) o 0 cb) as S.
  destruct (parse_flags o 0 cb (l ++ stop)) as [[o' ef] c]. cbn [snd] in S.
  cbv beta iota.
  assert (W : within cb l stop c)
    by (eapply within_steps; eauto; apply within_start).
  apply first_bind; [at_first_error Hx |]. intros [] w2.
  eapply first_bind_with;
    [apply parse_width_spec; eauto | unfold parse_width; at_first_error Hx |].
  intros [widthSet c1] w3 (W1 & _). cbn [snd] in W1. cbv beta iota.
  eapply first_bind_with;
    [apply parse_precision_spec; eauto
    | unfold parse_precision; at_first_error Hx |].
  intros [precisionSet c2] w4 (W2 & _). cbn [snd] in W2.
  cbv beta iota zeta.
  apply first_bind; [unfold set_conversion; at_first_error Hx |].
  intros [ic ef'] w5. cbv beta iota.
  apply first_bind; [unfold integer_precision_fixup; at_first_error Hx |].
  intros [] w6.
  assert (Hle : ptr_le (skip_length_modifiers c2) fmtEnd = true).
  { unfold ptr_le. apply Nat.leb_le.
    assert (W3 : within cb l stop (skip_length_modifiers c2))
      by (eapply within_steps; eauto; apply skip_length_modifiers_steps).
    apply within_offset in W3. lia. }
  rewrite Hle. at_first_error Hx.
Qed.

Lemma formatValueBasic_first_error fmtBegin v w :
  ends_at_first_error cfg
    (formatValueBasic cfg fmtBegin (spec_end fmtBegin) v) w.
Proof.
  unfold formatValueBasic.
  apply first_bind; [at_first_error Hx |]. intros o w1.
  apply first_bind; [| intros ef w2; at_first_error Hx].
  destruct fmtBegin as [cb pa].
  destruct (split_advancing pa) as (l & stop & -> & F & S).
  apply streamStateFromFormat_first_error; [assumption |].
  now apply spec_end_bound.
Qed.

Lemma format_first_error args : forall fmt w,
  ends_at_first_error cfg (format cfg fmt args) w.
Proof.
  assert (K : forall A (m m' : M A) t w,
             m' w = m (wrote t w) ->
             ends_at_first_error cfg m (wrote t w) ->
             ends_at_first_error cfg m' w).
  { unfold ends_at_first_error. intros A m m' t w ->. exact (fun H => H). }
  induction args as [| v args IH]; intros fmt w;
    destruct (printFormatStringLiteral_put fmt) as (t & c & E).
  - eapply K; [apply (@format_nil_scanned cfg fmt t c w E) |].
    at_first_error Hx.
  - eapply K; [apply (@format_cons_scanned cfg fmt t c v args w E) |].
    eapply first_bind_with;
      [apply findFormatSpecEnd_spec
      | unfold findFormatSpecEnd; at_first_error Hx |].
    intros e w1 (-> & _).
    apply first_bind; [apply formatValueBasic_first_error |]. intros [] w2.
    apply IH.
Qed.

End FirstErrorFormat.

(* ------------------------------------------------------------------ *)
(** ** Directives counted against arguments *)

Lemma count_error_dec r :
  r = err_too_many \/ r = err_not_enough \/ not_a_count_error r.
Proof.
  destruct (string_dec r err_too_many) as [-> | N1]; [now left |].
  destruct (string_dec r err_not_enough) as [-> | N2]; [now right; left |].
  right; right. now split.
Qed.

(** C2, with the two reasons as the code has them.  [format] raises the
    reason [err_too_many] (too many conversion specifiers) only when the
    template holds more directives than there are arguments, and the
    reason [err_not_enough] (not enough conversion specifiers) only when
    there are more arguments than directives; with equal counts it raises
    neither.  When the counts differ it does raise the one that goes with
    the direction, in every build, unless the call was cut short: the
    handler kept control at an earlier error, which then is the only
    reason reported.  In a build whose handler returns, [format] returns.
    The directives are counted by [directives]: a doubled percent sign is
    text and a percent sign that ends the template starts nothing. *)
Theorem C2_count_mismatch_reasons cfg (fmt : cptr) (args : list value)
    (w : world) :
  exists msgs,
    reported (snd (format cfg fmt args w)) = reported w ++ msgs /\
    (In err_too_many msgs ->
     (List.length args < directives (after fmt))%nat) /\
    (In err_not_enough msgs ->
     (directives (after fmt) < List.length args)%nat) /\
    ((List.length args < directives (after fmt))%nat ->
     In err_too_many msgs \/
     cut_short cfg (fst (format cfg fmt args w)) msgs) /\
    ((directives (after fmt) < List.length args)%nat ->
     In err_not_enough msgs \/
     cut_short cfg (fst (format cfg fmt args w)) msgs) /\
    (error_returns cfg = true -> fst (format cfg fmt args w) = Done tt).
Proof.
  pose proof (format_counts cfg args fmt w) as H. unfold outcome in H.
  assert (F : error_returns cfg = false ->
              ends_at_first_error cfg (format cfg fmt args) w)
    by (intros Hx; now apply format_first_error).
  unfold ends_at_first_error in F.
  destruct (format cfg fmt args w) as [[[] | r |] w']; cbn [fst snd].
  - destruct H as (msgs & R & [C1 C2] & [K1 K2]). exists msgs.
    repeat split; auto.
  - destruct H as (Hx & msgs & R & [C1 C2]).
    destruct (F Hx) as (T & R'). rewrite R in R'.
    apply app_inv_head in R'. subst msgs. exists [r].
    split; [exact R |]. split; [exact C1 |]. split; [exact C2 |].
    assert (Cut : not_a_count_error r -> cut_short cfg (Thrown r) [r]).
    { intros N. split; [exact Hx |]. exists r. repeat split; try apply N.
      left. now split. }
    destruct (count_error_dec r) as [-> | [-> | N]].
    + split; [intros _; left; now left |]. split; [| congruence].
      intros L. pose proof (C1 (or_introl eq_refl)). lia.
    + split; [| split; [intros _; left; now left | congruence]].
      intros L. pose proof (C2 (or_introl eq_refl)). lia.
    + repeat split; try (intros _; right; now apply Cut). congruence.
  - destruct H as (Hx & msgs & R & [C1 C2]).
    destruct (F Hx) as (T & N & r & R'). rewrite R in R'.
    apply app_inv_head in R'. subst msgs. exists [r].
    split; [exact R |]. split; [exact C1 |]. split; [exact C2 |].
    assert (Cut : not_a_count_error r -> cut_short cfg Aborted [r]).
    { intros N'. split; [exact Hx |]. exists r. repeat split; try apply N'.
      right. now split. }
    destruct (count_error_dec r) as [-> | [-> | N']].
    + split; [intros _; left; now left |]. split; [| congruence].
      intros L. pose proof (C1 (or_introl eq_refl)). lia.
    + split; [| split; [intros _; left; now left | congruence]].
      intros L. pose proof (C2 (or_introl eq_refl)). lia.
    + repeat split; try (intros _; right; now apply Cut). congruence.
Qed.

Lemma C2_witness :
  exists msgs,
    reported (snd (format default_build (c_str "%d and %d") [int 5]
                     (mkWorld ostringstream [])))
    = [] ++ msgs /\
    In err_too_many msgs.
Proof.
  destruct (C2_count_mismatch_reasons default_build (c_str "%d and %d")
              [int 5] (mkWorld ostringstream []))
    as (msgs & R & _ & _ & K & _).
  exists msgs. split; [exact R |].
  destruct K as [K | (_ & r & E & (N & _) & _)];
    [vm_compute; lia | exact K |].
  exfalso. cbn [app] in R. rewrite E in R. vm_compute in R.
  injection R as R. apply N. now rewrite <- R.
Defined.

(** The claim C2 names the reasons the other way round.  With a directive
    left and no argument, the one reason raised is the one about too many
    conversion specifiers; it does not state that there are not enough of
    them.  The reason that states so is raised in the opposite case, an
    argument left and no directive. *)
Lemma C2_counterexample_reasons :
  directives (chars "%d") = 1%nat /\
  format_string returning_build "%d" [] = (Done ""%string, [err_too_many]) /\
  states "not enough conversion specifiers" err_too_many = false /\
  directives (chars "") = 0%nat /\
  fst (format_string returning_build "" [int 5]) = Done "5"%string /\
  hd_error (snd (format_string returning_build "" [int 5]))
  = Some err_not_enough /\
  states "not enough conversion specifiers" err_not_enough = true.
Proof. repeat split. Qed.

(* ------------------------------------------------------------------ *)
(** ** Arguments of character type *)

Lemma narrow_character_cases cfg v c n :
  narrow_character cfg v c n ->
  (-128 <= n < 256)%Z /\
  (forall o b e,
     formatValue cfg o b e v = formatValue_char o e n c) /\
  (forall o k, formatCStringTruncate o v k = (false, o)).
Proof.
  assert (B : forall a, (0 <= code a < 256)%Z).
  { intros a. unfold code. pose proof (N_ascii_bounded a). lia. }
  assert (S : forall a m, (-128 <= m < 128)%Z -> (m mod 256 = code a)%Z ->
                          int_of_signed a = m).
  { intros a m R E. unfold int_of_signed. pose proof (B a).
    destruct (code a <? 128)%Z eqn:L;
      [apply Z.ltb_lt in L | apply Z.ltb_ge in L];
      revert E; Z.div_mod_to_equations; lia. }
  intros [a | a m R E | a m Sg R E | a Sg]; cbn [formatValue];
    rewrite ?Sg; pose proof (B a); (split; [lia |]);
    (split; [| reflexivity]); intros o b e;
    now rewrite ?(S a m R E).
Qed.

(** Under an integer conversion a narrow character is formatted as the
    [int] of its value, under any other as the text of one character. *)
Lemma formatValue_narrow cfg v c n o b e :
  narrow_character cfg v c n ->
  formatValue cfg o b e v
  = formatValue cfg o b e
      (if prints_as_integer (deref_prev e) then int n
       else std_string (String c "")).
Proof.
  intros H. destruct (narrow_character_cases H) as (_ & F & _). rewrite F.
  unfold formatValue_char. fold (prints_as_integer (deref_prev e)).
  destruct (prints_as_integer (deref_prev e)) eqn:P;
    cbn [formatValue int std_string]; unfold formatValue_generic;
    cbn [Insertable_int Insertable_string convert_char convert_voidptr
         insert]; [| reflexivity].
  destruct (deref_prev e =? "c")%char eqn:C; [| reflexivity].
  apply Ascii.eqb_eq in C. rewrite C in P. discriminate P.
Qed.

Lemma formatValueBasic_narrow cfg v c n b e w :
  narrow_character cfg v c n ->
  formatValueBasic cfg b e v w
  = formatValueBasic cfg b e
      (if prints_as_integer (deref_prev e) then int n
       else std_string (String c "")) w.
Proof.
  intros H. apply formatValueBasic_same_value.
  - intros o. now apply formatValue_narrow.
  - apply (narrow_character_cases H).
  - destruct (prints_as_integer (deref_prev e)); reflexivity.
Qed.

(** The call of [format] on the one directive [%conv]. *)
Lemma format_string_narrow cfg v c n conv :
  narrow_character cfg v c n -> terminates conv = true ->
  format_string cfg (String "%" (String conv "")) [v]
  = format_string cfg (String "%" (String conv ""))
      [if prints_as_integer conv then int n else std_string (String c "")].
Proof.
  intros H T. unfold format_string, c_str. cbn [chars list_ascii_of_string].
  rewrite !(@format_first_directive cfg [] [] conv [] [] _ []
              (mkWorld ostringstream []) eq_refl eq_refl eq_refl T).
  cbn [escape rev app]. unfold bind.
  rewrite (@formatValueBasic_narrow cfg v c n _ _ _ H).
  reflexivity.
Qed.

Lemma narrow_values_complete n :
  (-128 <= n < 256)%Z -> In n narrow_values.
Proof.
  intros R. unfold narrow_values. apply in_map_iff.
  exists (Z.to_nat (n + 128)). split; [lia |]. apply in_seq. lia.
Qed.

Lemma all_integer_conversions conv :
  prints_as_integer conv = true ->
  In conv ["u"; "d"; "i"; "o"; "X"; "x"]%char.
Proof.
  unfold prints_as_integer. intros H.
  repeat (apply orb_prop in H; destruct H as [H | H]);
    apply Ascii.eqb_eq in H; subst conv; cbn; auto 8.
Qed.

Lemma integer_texts cfg :
  forallb (fun conv => forallb (writes_integer_text cfg conv) narrow_values)
    ["u"; "d"; "i"; "o"; "X"; "x"]%char = true.
Proof. vm_compute. reflexivity. Qed.

Lemma character_texts cfg c conv :
  terminates conv = true -> prints_as_integer conv = false ->
  (conv =? "n")%char = false ->
  format_string cfg (String "%" (String conv "")) [std_string (String c "")]
  = (Done (String c ""), []).
Proof.
  destruct conv as [[] [] [] [] [] [] [] []]; intros T P N;
    try discriminate T; try discriminate P; try discriminate N;
    vm_compute; reflexivity.
Qed.

(** C9.  An argument of type [char], [signed char] or [unsigned char] is
    formatted under the conversions u d i o X x exactly as the [int] of
    its integer value is, and under every other conversion character as
    the text of the one character, whatever flags, width, precision and
    length modifiers the directive has.  The plain directive writes, under
    u d i o X x, the decimal, octal or hexadecimal numeral of the value
    (a negative value with its minus sign in decimal, and as an unsigned
    int in octal and hexadecimal), and under every other supported
    conversion the character itself.  The character A prints as A under
    [%c] and as 65 under [%d]; the signed character with code 255 prints
    as -1 under [%d] and the unsigned one as 255. *)
Theorem C9_character_arguments cfg (v : value) (c : ascii) (n : Z) :
  narrow_character cfg v c n ->
  (forall fl wd prec lm conv cb post w,
     well_formed fl wd prec lm conv = true ->
     formatValueBasic cfg
       (mkPtr cb (directive_text fl wd prec lm conv ++ post))
       (spec_end (mkPtr cb (directive_text fl wd prec lm conv ++ post))) v w
     = formatValueBasic cfg
         (mkPtr cb (directive_text fl wd prec lm conv ++ post))
         (spec_end (mkPtr cb (directive_text fl wd prec lm conv ++ post)))
         (if prints_as_integer conv then int n
          else std_string (String c "")) w) /\
  (forall conv,
     prints_as_integer conv = true ->
     exists t,
       format_string cfg (String "%" (String conv "")) [v]
       = (Done (text t), []) /\
       integer_text conv n t = true) /\
  (forall conv,
     terminates conv = true -> prints_as_integer conv = false ->
     (conv =? "n")%char = false ->
     format_string cfg (String "%" (String conv "")) [v]
     = (Done (String c ""), [])) /\
  format_string cfg "%c" [char_ "A"] = (Done "A"%string, []) /\
  format_string cfg "%d" [char_ "A"] = (Done "65"%string, []) /\
  format_string cfg "%d %d" [signed_char "255"; unsigned_char "255"]
  = (Done "-1 255"%string, []) /\
  format_string cfg "%u %i %o %x %X" [signed_char "Z"; unsigned_char "Z";
                                      char_ "Z"; char_ "Z"; char_ "Z"]
  = (Done "90 90 132 5a 5A"%string, []).
Proof.
  intros H. split; [| split; [| split]].
  - intros fl wd prec lm conv cb post w W.
    rewrite spec_end_well_formed by assumption.
    rewrite (@formatValueBasic_narrow cfg v c n _ _ w H).
    now rewrite deref_prev_directive.
  - intros conv P.
    assert (T : terminates conv = true)
      by (destruct (all_integer_conversions conv P)
            as [<- | [<- | [<- | [<- | [<- | [<- | []]]]]]]; reflexivity).
    rewrite (@format_string_narrow cfg v c n conv H T), P.
    pose proof (integer_texts cfg) as A. rewrite forallb_forall in A.
    specialize (A conv (all_integer_conversions conv P)).
    rewrite forallb_forall in A.
    specialize (A n (narrow_values_complete
                       (proj1 (narrow_character_cases H)))).
    unfold writes_integer_text in A.
    destruct (format_string cfg (String "%" (String conv "")) [int n])
      as [[t | r |] [| m ms]]; try discriminate A.
    exists (chars t). split; [| exact A].
    unfold text, chars. now rewrite string_of_list_ascii_of_string.
  - intros conv T P N. rewrite (@format_string_narrow cfg v c n conv H T), P.
    now apply character_texts.
  - destruct cfg as [hook ndebug [|]]; repeat split; reflexivity.
Qed.

Lemma C9_witness :
  exists t,
    format_string default_build "%x" [signed_char "255"]
    = (Done (text t), []) /\
    integer_text "x" (-1) t = true.
Proof.
  apply (@C9_character_arguments default_build (signed_char "255") "255"
           (-1) (narrow_signed default_build "255" (n := -1)
                   ltac:(lia) eq_refl)).
  reflexivity.
Defined.
